(** * The diffusion orchestration engine of [diffusion.py]

    A shallow embedding of [DiffusionFramework]: the forward corruption of
    [train_one_batch], the sampling loop of [infer_one_batch], the epoch
    drivers [train_single_epoch] and [evaluate_single_epoch], and the control
    loop [main_training_loop].

    Tensors hold IEEE-754 binary32 numbers (torch's default dtype), modelled by
    the Standard Library's executable specification [SpecFloat] with round to
    nearest even.  Effects (log lines, telemetry points, weight writes,
    scheduler steps) are recorded in an event trace that is threaded through a
    state-and-exception monad; a raised Python exception is the [Raise]
    outcome, which keeps the state reached when it was raised.

    numpy's reductions ([np.mean], [np.nanmean]) add in numpy's order:
    pairwise, with eight partial sums.  The epoch drivers take from the
    engine what [train_one_batch], [infer_one_batch] and the metrics return
    on each batch; a batch on which one of them raises is not modelled, and
    the statements about the drivers are about runs in which they return.

    Random draws ([random.randrange], [torch.randn_like]) are arguments of
    the functions that use them.  Not modelled: the progress bar, the
    switches [model.train()] and [model.eval()], the transfers to the device,
    the time stamp of a log line, and broadcasting between tensors of
    different sizes (which raise here). *)

From Stdlib Require Import String ZArith List Bool Lia Sorted.
From Stdlib Require Import Floats.SpecFloat.
From Stdlib Require Import Ascii DecimalString DecimalZ DecimalPos.
Import ListNotations.
Local Open Scope string_scope.
Local Open Scope list_scope.
Local Open Scope Z_scope.

(* ================================================================== *)
(** ** binary32 arithmetic *)

Module F32.

Definition prec : Z := 24.
Definition emax : Z := 128.

Definition float : Type := spec_float.

Definition fadd : float -> float -> float := SFadd prec emax.
Definition fsub : float -> float -> float := SFsub prec emax.
Definition fmul : float -> float -> float := SFmul prec emax.
Definition fdiv : float -> float -> float := SFdiv prec emax.
Definition fsqrt : float -> float := SFsqrt prec emax.
(** [<=] and [==] of IEEE-754: both are false as soon as one side is NaN. *)
Definition fleb : float -> float -> bool := SFleb.
Definition feqb : float -> float -> bool := SFeqb.

(** Conversion of a Python [int] to the tensor's dtype. *)
Definition of_Z (n : Z) : float := binary_normalize prec emax n 0 false.

Definition zero : float := S754_zero false.
Definition one : float := Eval cbv in of_Z 1.
Definition two : float := Eval cbv in of_Z 2.
Definition three : float := Eval cbv in of_Z 3.
Definition half : float := Eval cbv in SFdiv prec emax (of_Z 1) (of_Z 2).
Definition nan : float := S754_nan.
Definition pinf : float := S754_infinity false.

Definition is_nan (x : float) : bool :=
  match x with S754_nan => true | _ => false end.

Definition is_zero (x : float) : bool :=
  match x with S754_zero _ => true | _ => false end.

(** Neither NaN nor an infinity. *)
Definition is_finite (x : float) : bool :=
  match x with S754_zero _ | S754_finite _ _ _ => true | _ => false end.

(** A float of the format: its mantissa and exponent are canonical. *)
Definition valid (x : float) : bool := valid_binary prec emax x.

(** Equality of values: the same datum, or two zeros (whose signs may differ,
    as [+0.0 == -0.0] holds in Python). *)
Definition same_value (x y : float) : Prop :=
  x = y \/ (is_zero x = true /\ is_zero y = true).

(** What adding a zero to [c] leaves: [c] itself, except that a negative zero
    may come out as the positive zero. *)
Definition kept (c v : float) : Prop :=
  v = c \/ (c = S754_zero true /\ v = S754_zero false).

End F32.
Export F32.

(* ================================================================== *)
(** ** Exceptions and the state-and-exception monad *)

Definition tensor : Type := list float.

(** [OrderedDict] with string keys: an association list whose keys are
    distinct, in insertion order. *)
Definition odict (V : Type) : Type := list (string * V).

(** The lines [write_log_line] is given.  Constant lines are kept as text;
    formatted lines keep the values that are formatted into them.  The
    time stamp [write_log_line] prepends is not modelled. *)
Inductive log_line : Type :=
| Text (line : string)
| BeginEpoch (epoch_number : Z)
| TrainProgress (epoch_number i : Z) (lr mean_loss : float)
| MeanResults (mean_metric_results : odict float)
| RmsValue (rms_metrics : float).

(** The observable effects of the engine, in the order they happen. *)
Inductive event : Type :=
| LogLine (line : log_line) (also_print : bool)
| AddScalar (series_name : string) (y_value : float) (x_value : Z)
| LogVisuals (series_name : string) (index : Z)
| SaveModel (epoch_number : Z) (best : bool)
| SchedulerStep.

Inductive exn : Type :=
| UnboundLocalError (name : string)
| ZeroDivisionError
| KeyError (key : string)
| IndexError
| ShapeError
| ModelError (msg : string)
| OSError (failed : event).

Inductive result (A : Type) : Type :=
| Ok (a : A)
| Raise (e : exn).
Arguments Ok {A} a.
Arguments Raise {A} e.

Definition bind_result {A B} (r : result A) (k : A -> result B) : result B :=
  match r with
  | Ok a => k a
  | Raise e => Raise e
  end.

Definition M (S A : Type) : Type := S -> result A * S.

Definition ret {S A} (a : A) : M S A := fun s => (Ok a, s).
Definition raise {S A} (e : exn) : M S A := fun s => (Raise e, s).
Definition lift {S A} (r : result A) : M S A := fun s => (r, s).
Definition gets {S A} (f : S -> A) : M S A := fun s => (Ok (f s), s).
Definition modify {S} (f : S -> S) : M S unit := fun s => (Ok tt, f s).

Definition bind {S A B} (m : M S A) (k : A -> M S B) : M S B :=
  fun s =>
    match m s with
    | (Ok a, s') => k a s'
    | (Raise e, s') => (Raise e, s')
    end.

Declare Scope monad_scope.
Delimit Scope monad_scope with monad.
Notation "x <- m ;; k" := (bind m (fun x => k))
  (at level 61, m at next level, right associativity) : monad_scope.
Notation "' p <- m ;; k" := (bind m (fun x => let p := x in k))
  (at level 61, p pattern, m at next level, right associativity) : monad_scope.
Notation "m ;; k" := (bind m (fun _ => k))
  (at level 61, right associativity) : monad_scope.
Notation "'let?' x := r 'in' k" := (bind_result r (fun x => k))
  (at level 61, x name, r at next level, right associativity) : monad_scope.
Local Open Scope monad_scope.

(** Python's [a % b] on integers: the remainder has the sign of the divisor,
    and a zero divisor raises. *)
Definition py_mod (a b : Z) : result Z :=
  if b =? 0 then Raise ZeroDivisionError else Ok (a mod b).

(* ================================================================== *)
(** ** Tensors *)

(** Element-wise combination of two tensors of the same size; sizes that
    differ raise (broadcasting is not modelled). *)
Fixpoint zip_with (f : float -> float -> float) (x y : tensor) : result tensor :=
  match x, y with
  | [], [] => Ok []
  | a :: x', b :: y' =>
      let? r := zip_with f x' y' in Ok (f a b :: r)
  | _, _ => Raise ShapeError
  end.

Definition tadd : tensor -> tensor -> result tensor := zip_with fadd.
Definition tmul : tensor -> tensor -> result tensor := zip_with fmul.

(** A zero-dimensional tensor times a tensor. *)
Definition scale (a : float) (x : tensor) : tensor := map (fmul a) x.

(** The mask as the numbers the arithmetic of lines 160 and 171 sees: 1 where
    it is true, 0 where it is false. *)
Definition mask_value (b : bool) : float := if b then one else zero.
Definition mask_values (mask : list bool) : tensor := map mask_value mask.

(** [1 - mask]. *)
Definition one_minus (m : tensor) : tensor := map (fsub one) m.

(** [x*mask + cond_image*(1-mask)], the expression of lines 160 and 171. *)
Definition blend (x cond_image : tensor) (mask : list bool) : result tensor :=
  let m := mask_values mask in
  let? unknown := tmul x m in
  let? known := tmul cond_image (one_minus m) in
  tadd unknown known.

(** Pixel [p] of [img] is the pixel [c] of the conditioning image. *)
Definition known_pixel_kept (p : nat) (c : float) (img : tensor) : Prop :=
  exists v, nth_error img p = Some v /\ kept c v.

(** Modelled from the spec: [NoiseSchedule] (module [support] is missing), an
    ordered, indexable sequence of [len] coefficient pairs read as
    [alphas[i]] and [gammas[i]] for [i] in [[0, len)]. *)
Definition NoiseSchedule : Type := list (float * float).

Definition schedule_at (sched : NoiseSchedule) (t : nat) : result (float * float) :=
  match nth_error sched t with
  | Some ag => Ok ag
  | None => Raise IndexError
  end.

(* ================================================================== *)
(** ** The model capabilities *)

(** A capability is a function of the model's own state [MS] (weights, random
    generator), which it may change, and it may raise. *)
Definition refine_fn (MS : Type) : Type :=
  tensor -> tensor -> float -> float -> M MS tensor.
Definition predict_fn (MS : Type) : Type :=
  tensor -> tensor -> float -> M MS tensor.

(** One invocation of the refinement step as the model sees it: the
    arguments it was given. *)
Record invocation : Type :=
  { given_image : tensor; given_cond_image : tensor;
    given_alpha : float; given_gamma : float }.

Definition given_coefficients (i : invocation) : float * float :=
  (given_alpha i, given_gamma i).

(** The model [refinement_step] made to keep, in its own state, the
    invocations of its refinement step: it answers as [refinement_step]
    does, and an invocation is kept when, and only when, the step is
    invoked. *)
Definition recording {MS} (refinement_step : refine_fn MS)
  : refine_fn (list invocation * MS) :=
  fun x c a g st =>
    let '(r, ms') := refinement_step x c a g (snd st) in
    (r, (fst st ++ [{| given_image := x; given_cond_image := c;
                       given_alpha := a; given_gamma := g |}], ms')).

(** [DiffusionModel.refinement_step] of the placeholder class (line 17). *)
Definition refinement_step_stub {MS} : refine_fn MS :=
  fun _ _ _ _ => raise (ModelError "Must define a refinement step!").

(** One recorded call of [refinement_step]: the schedule index [t] that was
    read and the two coefficients that were passed. *)
Record refine_call : Type :=
  { rc_index : nat; rc_alpha : float; rc_gamma : float }.

(** One recorded call of the network in [train_one_batch]. *)
Record predict_call : Type :=
  { pc_cond_image : tensor; pc_noisy_image : tensor; pc_gamma : float }.

(** The model's state together with the calls made on it so far. *)
Record observed (MS C : Type) : Type :=
  { model_state : MS; calls : list C }.
Arguments model_state {MS C} o.
Arguments calls {MS C} o.

Definition call {MS C A} (c : C) (m : M MS A) : M (observed MS C) A :=
  fun s =>
    let '(r, ms) := m (model_state s) in
    (r, {| model_state := ms; calls := calls s ++ [c] |}).

(** The state of a run on a recording model, without what the model has
    recorded. *)
Definition unrecorded {MS C} (s : observed (list invocation * MS) C)
  : observed MS C :=
  {| model_state := snd (model_state s); calls := calls s |}.

(** The invocations the model has recorded. *)
Definition invocations {MS C} (s : observed (list invocation * MS) C)
  : list invocation :=
  fst (model_state s).

(* ================================================================== *)
(** ** [train_one_batch] (lines 105-122) *)

(** Line 114: [torch.sqrt(gamma)*gt_image + torch.sqrt(1-gamma)*noise_field]. *)
Definition noisy_image (gamma : float) (gt_image noise_field : tensor) : result tensor :=
  tadd (scale (fsqrt gamma) gt_image) (scale (fsqrt (fsub one gamma)) noise_field).

(** [t] is the draw of [random.randrange] and [noise_field] the draw of
    [torch.randn_like(gt_image)]; [optimizer_step] stands for
    [loss.backward()] followed by [self.optimizer.step()]. *)
Definition train_one_batch {MS} (model : predict_fn MS)
    (training_loss_function : tensor -> tensor -> result float)
    (optimizer_step : float -> MS -> MS)
    (training_noise_schedule : NoiseSchedule)
    (t : nat) (noise_field : tensor)
    (gt_image cond_image : tensor) (mask : list bool)
  : M (observed MS predict_call) float :=
  ag <- lift (schedule_at training_noise_schedule t) ;;
  let gamma := snd ag in
  noisy <- lift (noisy_image gamma gt_image noise_field) ;;
  predicted_noise_field <-
    call {| pc_cond_image := cond_image; pc_noisy_image := noisy; pc_gamma := gamma |}
         (model cond_image noisy gamma) ;;
  loss <- lift (training_loss_function noise_field predicted_noise_field) ;;
  modify (fun s => {| model_state := optimizer_step loss (model_state s);
                      calls := calls s |}) ;;
  ret loss.

(* ================================================================== *)
(** ** [infer_one_batch] (lines 158-172) *)

(** The body of the loop for the loop variable [i] (lines 164-171). *)
Definition refinement_iteration {MS} (refinement_step : refine_fn MS)
    (inference_noise_schedule : NoiseSchedule)
    (cond_image : tensor) (mask : list bool)
    (predicted_gt_image : tensor) (i : nat)
  : M (observed MS refine_call) tensor :=
  let t := (length inference_noise_schedule - (i + 1))%nat in
  ag <- lift (schedule_at inference_noise_schedule t) ;;
  candidate <-
    call {| rc_index := t; rc_alpha := fst ag; rc_gamma := snd ag |}
         (refinement_step predicted_gt_image cond_image (fst ag) (snd ag)) ;;
  lift (blend candidate cond_image mask).

Fixpoint refinement_loop {MS} (refinement_step : refine_fn MS)
    (inference_noise_schedule : NoiseSchedule)
    (cond_image : tensor) (mask : list bool)
    (predicted_gt_image : tensor) (range : list nat)
  : M (observed MS refine_call) tensor :=
  match range with
  | [] => ret predicted_gt_image
  | i :: range' =>
      next <- refinement_iteration refinement_step inference_noise_schedule
                cond_image mask predicted_gt_image i ;;
      refinement_loop refinement_step inference_noise_schedule
        cond_image mask next range'
  end.

(** The working image at the boundary after the first [k] iterations of the
    loop; [noise] is the draw of [torch.randn_like(cond_image)]. *)
Definition infer_iterations {MS} (refinement_step : refine_fn MS)
    (inference_noise_schedule : NoiseSchedule) (noise : tensor)
    (cond_image : tensor) (mask : list bool) (k : nat)
  : M (observed MS refine_call) tensor :=
  start <- lift (blend noise cond_image mask) ;;
  refinement_loop refinement_step inference_noise_schedule
    cond_image mask start (seq 0 k).

Definition infer_one_batch {MS} (refinement_step : refine_fn MS)
    (inference_noise_schedule : NoiseSchedule) (noise : tensor)
    (cond_image : tensor) (mask : list bool)
  : M (observed MS refine_call) tensor :=
  infer_iterations refinement_step inference_noise_schedule noise
    cond_image mask (length inference_noise_schedule).

(** The call that reads index [t] of the schedule. *)
Definition call_at (sched : NoiseSchedule) (t : nat) : refine_call :=
  let ag := nth t sched (zero, zero) in
  {| rc_index := t; rc_alpha := fst ag; rc_gamma := snd ag |}.

(** The calls a sweep from index [T-1] down to index [0] makes. *)
Definition descending_calls (sched : NoiseSchedule) : list refine_call :=
  map (call_at sched) (rev (seq 0 (length sched))).

(* ================================================================== *)
(** ** The engine's collaborators and its sinks *)

(** Modelled from the spec: [TorchMetric] (module [support] is missing), a
    named comparator that yields an ordered collection of per-sample scalars;
    [scores m e b] is what it yields on the prediction and the ground truth
    of batch [b] of the evaluation of epoch [e]. *)
Record metric : Type :=
  { metric_name : string; scores : Z -> nat -> list float }.

(** What the engine is built from, as far as the drivers consult it.
    - [batch_losses e]: the values [train_one_batch] returns on the batches
      of the training dataloader during epoch [e], in order;
    - [evaluation_batches e]: the number of batches the evaluation dataloader
      yields during epoch [e];
    - [learning_rate k]: [optimizer.param_groups[-1]['lr']] after [k] steps
      of the scheduler;
    - [io_fails past e]: whether performing effect [e] after the effects
      [past] raises (log file, telemetry sink, weight file, scheduler). *)
Record engine : Type :=
  { loss_function_name : string;
    evaluation_metrics : list metric;
    has_summary_writer : bool;
    learning_rate : nat -> float;
    batch_losses : Z -> list float;
    evaluation_batches : Z -> nat;
    io_fails : list event -> event -> bool }.

Definition emit (E : engine) (e : event) : M (list event) unit :=
  fun past =>
    if io_fails E past e then (Raise (OSError e), past)
    else (Ok tt, past ++ [e]).

(** Lines 182-187. *)
Definition write_log_line (E : engine) (line : log_line) (also_print : bool)
  : M (list event) unit :=
  emit E (LogLine line also_print).

(** Lines 189-192. *)
Definition log_scalar (E : engine) (series_name : string) (y_value : float)
    (x_value : Z) : M (list event) unit :=
  if has_summary_writer E then emit E (AddScalar series_name y_value x_value)
  else ret tt.

(** Lines 194-206, as one effect. *)
Definition log_visuals (E : engine) (series_name : string) (index : Z)
  : M (list event) unit :=
  emit E (LogVisuals series_name index).

(** Lines 174-180: the artifact is named from the epoch number and the flag. *)
Definition save (E : engine) (epoch_number : Z) (best : bool)
  : M (list event) unit :=
  emit E (SaveModel epoch_number best).

Definition is_scheduler_step (e : event) : bool :=
  match e with SchedulerStep => true | _ => false end.

Definition scheduler_steps (past : list event) : nat :=
  length (filter is_scheduler_step past).

Definition current_lr (E : engine) : M (list event) float :=
  gets (fun past => learning_rate E (scheduler_steps past)).

(* ================================================================== *)
(** ** [train_single_epoch] (lines 64-102) *)

(** The local variables of the method; [mean_loss] is unbound until the
    first logging iteration assigns it. *)
Record train_locals : Type :=
  { running_loss : float; current_loss : float; mean_loss : option float }.

Definition train_series (E : engine) : string :=
  String.append "train/" (loss_function_name E).

(** Lines 78-100 for batch number [i] (counted from 1) whose call of
    [train_one_batch] returned [loss]; [n] is [len(self.training_dataloader)]. *)
Definition train_iteration (E : engine) (epoch_number log_every n : Z)
    (loc : train_locals) (i : Z) (loss : float) : M (list event) train_locals :=
  let running := fadd (running_loss loc) loss in
  r <- lift (py_mod i log_every) ;;
  if r =? 0 then
    let mean := fdiv running (of_Z log_every) in
    lr <- current_lr E ;;
    write_log_line E (TrainProgress epoch_number i lr mean) false ;;
    let global_index := (epoch_number - 1) * n + i in
    log_scalar E (train_series E) mean global_index ;;
    ret {| running_loss := zero; current_loss := loss; mean_loss := Some mean |}
  else
    ret {| running_loss := running; current_loss := loss;
           mean_loss := mean_loss loc |}.

Fixpoint train_loop (E : engine) (epoch_number log_every n : Z)
    (loc : train_locals) (i : Z) (losses : list float)
  : M (list event) train_locals :=
  match losses with
  | [] => ret loc
  | loss :: losses' =>
      loc' <- train_iteration E epoch_number log_every n loc i loss ;;
      train_loop E epoch_number log_every n loc' (i + 1) losses'
  end.

Definition train_single_epoch (E : engine) (epoch_number log_every : Z)
    (losses : list float) : M (list event) float :=
  let start := {| running_loss := zero; current_loss := zero; mean_loss := None |} in
  loc <- train_loop E epoch_number log_every (Z.of_nat (length losses))
           start 1 losses ;;
  match mean_loss loc with
  | Some m => ret m
  | None => raise (UnboundLocalError "mean_loss")
  end.

(** The local variables after one more batch, effects apart. *)
Definition next_locals (log_every : Z) (loc : train_locals) (i : Z) (loss : float)
  : train_locals :=
  let running := fadd (running_loss loc) loss in
  if i mod log_every =? 0 then
    {| running_loss := zero; current_loss := loss;
       mean_loss := Some (fdiv running (of_Z log_every)) |}
  else
    {| running_loss := running; current_loss := loss; mean_loss := mean_loss loc |}.

Fixpoint locals_after (log_every : Z) (loc : train_locals) (i : Z)
    (losses : list float) : train_locals :=
  match losses with
  | [] => loc
  | loss :: losses' => locals_after log_every (next_locals log_every loc i loss) (i + 1) losses'
  end.

(** The losses of the last complete logging interval: with [n] batches and
    [k = n / log_every], the batches [(k-1)*log_every + 1 .. k*log_every]. *)
Definition last_complete_interval (log_every : nat) (losses : list float)
  : list float :=
  let k := (length losses / log_every)%nat in
  firstn log_every (skipn ((k - 1) * log_every) losses).

(** The losses after the last logging boundary. *)
Definition trailing_interval (log_every : nat) (losses : list float)
  : list float :=
  let k := (length losses / log_every)%nat in
  skipn (k * log_every) losses.

(** Left-to-right summation from the accumulator's initial [0.]. *)
Definition fsum (xs : list float) : float := fold_left fadd xs zero.

(* ================================================================== *)
(** ** numpy's reductions *)

(** The eight partial sums of numpy's unrolled summation loop. *)
Definition acc8 : Type :=
  (float * float * float * float * float * float * float * float)%type.

(** [for (i = 8; i < n - (n % 8); i += 8) r[j] += a[i + j]]: every complete
    group of eight is added to the partial sums; what is returned with them
    are the [n % 8] entries that remain.  The first argument bounds the
    number of groups. *)
Fixpoint unrolled (groups : nat) (r : acc8) (a : list float)
  : acc8 * list float :=
  match groups with
  | O => (r, a)
  | S groups' =>
      match a with
      | a0 :: a1 :: a2 :: a3 :: a4 :: a5 :: a6 :: a7 :: a' =>
          let '(r0, r1, r2, r3, r4, r5, r6, r7) := r in
          unrolled groups'
            (fadd r0 a0, fadd r1 a1, fadd r2 a2, fadd r3 a3,
             fadd r4 a4, fadd r5 a5, fadd r6 a6, fadd r7 a7) a'
      | _ => (r, a)
      end
  end.

(** The two branches of numpy's [pairwise_sum] that do not recurse: fewer
    than eight entries are added one after the other; from eight entries on
    the first eight start the partial sums, the complete groups of eight are
    added to them, the partial sums are added as a balanced tree, and the
    remaining entries are added one after the other. *)
Definition block_sum (a : list float) : float :=
  match a with
  | a0 :: a1 :: a2 :: a3 :: a4 :: a5 :: a6 :: a7 :: a' =>
      let '(r, rest) :=
        unrolled (length a' / 8) (a0, a1, a2, a3, a4, a5, a6, a7) a' in
      let '(r0, r1, r2, r3, r4, r5, r6, r7) := r in
      fold_left fadd rest
        (fadd (fadd (fadd r0 r1) (fadd r2 r3))
              (fadd (fadd r4 r5) (fadd r6 r7)))
  | _ => fold_left fadd a zero
  end.

(** One of the partial sums is NaN. *)
Definition nan_among (r : acc8) : Prop :=
  let '(r0, r1, r2, r3, r4, r5, r6, r7) := r in
  In nan [r0; r1; r2; r3; r4; r5; r6; r7].

(** numpy's [PW_BLOCKSIZE]. *)
Definition PW_BLOCKSIZE : nat := 128.

(** Where [pairwise_sum] cuts an array of more than [PW_BLOCKSIZE] entries:
    [n2 = n / 2; n2 -= n2 % 8]. *)
Definition half_point (n : nat) : nat := (n / 2 - (n / 2) mod 8)%nat.

(** numpy's [pairwise_sum]; [depth] bounds the depth of the recursion. *)
Fixpoint pairwise_sum_rec (depth : nat) (a : list float) : float :=
  match depth with
  | O => block_sum a
  | S depth' =>
      if (length a <=? PW_BLOCKSIZE)%nat then block_sum a
      else
        let n2 := half_point (length a) in
        fadd (pairwise_sum_rec depth' (firstn n2 a))
             (pairwise_sum_rec depth' (skipn n2 a))
  end.

(** A depth that is never exhausted: every cut leaves two shorter arrays. *)
Definition pairwise_sum (a : list float) : float :=
  pairwise_sum_rec (length a) a.

(** [np.sum] ([np.add.reduce]) of a one-dimensional float32 array as numpy
    computes it: the accumulator starts from the identity [0] and receives
    the pairwise sum of the array, which the reduction hands to the inner
    loop in one piece.  (numpy versions differ in starting the sequential
    branch from [0.] or from [-0.]; after the addition to the accumulator
    the results are the same.) *)
Definition np_sum (a : list float) : float := fadd zero (pairwise_sum a).

(** A binary64 number read as a float32 number: [np.float32(x)]. *)
Definition to_float32 (x : spec_float) : float :=
  match x with
  | S754_finite s m e =>
      binary_normalize prec emax (if s then Z.neg m else Z.pos m) e s
  | _ => x
  end.

(** [tot.dtype.type(tot / count)] for a float32 scalar [tot] and an integer
    scalar [count]: the quotient is computed in binary64 and then rounded to
    float32. *)
Definition np_divide (tot : float) (count : Z) : float :=
  to_float32 (SFdiv 53 1024 tot (binary_normalize 53 1024 count 0 false)).

(** [np.mean] of a one-dimensional float32 array. *)
Definition mean (xs : list float) : float :=
  np_divide (np_sum xs) (Z.of_nat (length xs)).

(* ================================================================== *)
(** ** [evaluate_single_epoch] (lines 124-146) *)

Fixpoint od_get {V} (d : odict V) (key : string) : option V :=
  match d with
  | [] => None
  | (k, v) :: d' => if String.eqb k key then Some v else od_get d' key
  end.

Fixpoint od_set {V} (d : odict V) (key : string) (v : V) : odict V :=
  match d with
  | [] => [(key, v)]
  | (k, v0) :: d' =>
      if String.eqb k key then (k, v) :: d' else (k, v0) :: od_set d' key v
  end.

(** [OrderedDict(pairs)]. *)
Definition od_of_pairs {V} (pairs : list (string * V)) : odict V :=
  fold_left (fun d kv => od_set d (fst kv) (snd kv)) pairs [].

Definition replace_nan (xs : list float) : list float :=
  map (fun x => if is_nan x then zero else x) xs.

Definition not_nan (x : float) : bool := negb (is_nan x).

(** [np.nanmean] on a one-dimensional collection, as numpy computes it: NaNs
    are replaced by zero, and the [np.sum] of the result is divided by the
    number of entries that are not NaN. *)
Definition nanmean (xs : list float) : float :=
  np_divide (np_sum (replace_nan xs))
            (Z.of_nat (length (filter not_nan xs))).

(** Lines 152-154 of [evaluate_one_batch].  The call of [infer_one_batch]
    (line 150) and the calls of the metrics are taken to return: what they
    return on the batch is what [scores] gives. *)
Definition evaluate_one_batch (E : engine) (epoch_number : Z) (b : nat)
  : odict (list float) :=
  od_of_pairs
    (map (fun m => (metric_name m, scores m epoch_number b)) (evaluation_metrics E)).

(** [all_metric_results[key].extend(vals)]. *)
Definition od_extend (all : odict (list float)) (key : string) (vals : list float)
  : result (odict (list float)) :=
  match od_get all key with
  | Some old => Ok (od_set all key (old ++ vals))
  | None => Raise (KeyError key)
  end.

(** Lines 137-138. *)
Fixpoint extend_all (all metric_results : odict (list float))
  : result (odict (list float)) :=
  match metric_results with
  | [] => Ok all
  | (key, vals) :: rest =>
      let? all' := od_extend all key vals in extend_all all' rest
  end.

(** Lines 132-138; the second component is the [metric_results] of the last
    batch, unbound while no batch has been seen. *)
Fixpoint evaluation_loop (E : engine) (epoch_number : Z)
    (all : odict (list float)) (last : option (odict (list float)))
    (batches : list nat)
  : result (odict (list float) * option (odict (list float))) :=
  match batches with
  | [] => Ok (all, last)
  | b :: batches' =>
      let metric_results := evaluate_one_batch E epoch_number b in
      let? all' := extend_all all metric_results in
      evaluation_loop E epoch_number all' (Some metric_results) batches'
  end.

(** Lines 140-143. *)
Fixpoint reduce_metrics (all : odict (list float)) (keys : list string)
  : result (list (string * float)) :=
  match keys with
  | [] => Ok []
  | key :: keys' =>
      match od_get all key with
      | Some results =>
          let? rest := reduce_metrics all keys' in
          Ok ((key, nanmean results) :: rest)
      | None => Raise (KeyError key)
      end
  end.

Definition evaluate_single_epoch (E : engine) (epoch_number : Z)
  : M (list event) (odict float) :=
  let all_metric_results :=
    od_of_pairs (map (fun m => (metric_name m, @nil float)) (evaluation_metrics E)) in
  looped <- lift (evaluation_loop E epoch_number all_metric_results None
                    (seq 0 (evaluation_batches E epoch_number))) ;;
  match snd looped with
  | None => raise (UnboundLocalError "metric_results")
  | Some metric_results =>
      pairs <- lift (reduce_metrics (fst looped) (map fst metric_results)) ;;
      let mean_metric_results := od_of_pairs pairs in
      log_visuals E "Evaluation" epoch_number ;;
      ret mean_metric_results
  end.

(* ================================================================== *)
(** ** [main_training_loop] (lines 208-245) *)

(** The local variables of the loop that survive an iteration, and the
    effects performed so far. *)
Record run_state : Type :=
  { epoch_number : Z; best_rms_metrics : option float; trace : list event }.

(** A computation that only performs effects, run inside the loop. *)
Definition on_trace {A} (m : M (list event) A) : M run_state A :=
  fun s =>
    let '(r, past) := m (trace s) in
    (r, {| epoch_number := epoch_number s;
           best_rms_metrics := best_rms_metrics s;
           trace := past |}).

Definition set_best (rms : float) : M run_state unit :=
  modify (fun s => {| epoch_number := epoch_number s;
                      best_rms_metrics := Some rms;
                      trace := trace s |}).

Definition next_epoch : M run_state unit :=
  modify (fun s => {| epoch_number := epoch_number s + 1;
                      best_rms_metrics := best_rms_metrics s;
                      trace := trace s |}).

(** Lines 221-223: [np.sqrt(np.mean(tuple(m**2 for m in means)))]. *)
Definition rms_of (mean_metric_results : odict float) : float :=
  fsqrt (mean (map (fun kv => fmul (snd kv) (snd kv)) mean_metric_results)).

(** Lines 225-226. *)
Fixpoint log_metric_scalars (E : engine) (epoch : Z) (means : odict float)
  : M (list event) unit :=
  match means with
  | [] => ret tt
  | (metric_name, value) :: means' =>
      log_scalar E (String.append "Evaluation/" metric_name) value epoch ;;
      log_metric_scalars E epoch means'
  end.

(** Lines 212-214. *)
Definition training_phase (E : engine) (log_every : Z) : M run_state unit :=
  epoch <- gets epoch_number ;;
  on_trace (write_log_line E (BeginEpoch epoch) true) ;;
  on_trace (write_log_line E (Text "Beginning training...") true) ;;
  on_trace (train_single_epoch E epoch log_every (batch_losses E epoch)) ;;
  ret tt.

(** Lines 228-234: the comparison with the best value so far; the result is
    the flag [saved]. *)
Definition record_best (E : engine) (rms_metrics : float) : M run_state bool :=
  epoch <- gets epoch_number ;;
  before <- gets best_rms_metrics ;;
  match before with None => set_best rms_metrics | Some _ => ret tt end ;;
  let best := match before with None => rms_metrics | Some b => b end in
  if fleb rms_metrics best then
    on_trace (write_log_line E (Text "This is the new best epoch!!") true) ;;
    set_best rms_metrics ;;
    on_trace (write_log_line E (Text "Saving new best model...") false) ;;
    on_trace (save E epoch true) ;;
    ret true
  else ret false.

(** Lines 217-227: the evaluation and its report; the result is
    [rms_metrics]. *)
Definition evaluation_report (E : engine) : M run_state float :=
  epoch <- gets epoch_number ;;
  on_trace (write_log_line E
    (Text "This is an evaluation epoch. Beginning evalution...") true) ;;
  mean_metric_results <- on_trace (evaluate_single_epoch E epoch) ;;
  on_trace (write_log_line E (Text "Mean evaluation results follow:") true) ;;
  on_trace (write_log_line E (MeanResults mean_metric_results) true) ;;
  let rms_metrics := rms_of mean_metric_results in
  on_trace (write_log_line E (RmsValue rms_metrics) true) ;;
  on_trace (log_metric_scalars E epoch mean_metric_results) ;;
  on_trace (log_scalar E "Evaluation/All_Metrics_RMS" rms_metrics epoch) ;;
  ret rms_metrics.

(** Lines 217-234. *)
Definition evaluating_phase (E : engine) : M run_state bool :=
  rms_metrics <- evaluation_report E ;;
  record_best E rms_metrics.

Definition already_saved_line : log_line :=
  Text "However, the model has already been saved this epoch. Resuming training.".

(** Lines 236-242. *)
Definition saving_phase (E : engine) (saved : bool) : M run_state unit :=
  epoch <- gets epoch_number ;;
  on_trace (write_log_line E (Text "This is a save epoch.") false) ;;
  if saved then
    on_trace (write_log_line E already_saved_line false)
  else
    on_trace (write_log_line E (Text "Saving model...") false) ;;
    on_trace (save E epoch false) ;;
    on_trace (write_log_line E (Text "Resuming training.") true).

(** Lines 243-245. *)
Definition advance (E : engine) : M run_state unit :=
  next_epoch ;;
  on_trace (emit E SchedulerStep).

(** Lines 215-245. *)
Definition after_training (E : engine) (eval_every save_every : Z)
  : M run_state unit :=
  epoch <- gets epoch_number ;;
  r_eval <- lift (py_mod epoch eval_every) ;;
  saved <- (if r_eval =? 0 then evaluating_phase E else ret false) ;;
  r_save <- lift (py_mod epoch save_every) ;;
  (if r_save =? 0 then saving_phase E saved else ret tt) ;;
  advance E.

(** One iteration of [while True] (lines 212-245). *)
Definition epoch_body (E : engine) (log_every eval_every save_every : Z)
  : M run_state unit :=
  training_phase E log_every ;;
  after_training E eval_every save_every.

(** The first [n] iterations of the loop, which has no exit of its own. *)
Fixpoint epochs (E : engine) (log_every eval_every save_every : Z) (n : nat)
  : M run_state unit :=
  match n with
  | O => ret tt
  | S n' =>
      epoch_body E log_every eval_every save_every ;;
      epochs E log_every eval_every save_every n'
  end.

Definition initial_state : run_state :=
  {| epoch_number := 1; best_rms_metrics := None; trace := [] |}.

Definition main_training_loop (E : engine) (log_every eval_every save_every : Z)
    (n : nat) : result unit * run_state :=
  epochs E log_every eval_every save_every n initial_state.

(* ================================================================== *)
(** ** Observations on traces *)

Definition is_save (e : event) : bool :=
  match e with SaveModel _ _ => true | _ => false end.

(** The weight writes of a trace, in order. *)
Definition saves (past : list event) : list event := filter is_save past.

(** The index of a point given to the telemetry sink on the series of the
    training loss. *)
Definition train_point (E : engine) (e : event) : list Z :=
  match e with
  | AddScalar series_name _ x_value =>
      if String.eqb series_name (train_series E) then [x_value] else []
  | _ => []
  end.

Definition train_points (E : engine) (past : list event) : list Z :=
  flat_map (train_point E) past.

(** The state [s] with its trace replaced. *)
Definition with_trace (s : run_state) (past : list event) : run_state :=
  {| epoch_number := epoch_number s;
     best_rms_metrics := best_rms_metrics s;
     trace := past |}.

(** What lines 230-233 append. *)
Definition best_lines (epoch : Z) : list event :=
  [ LogLine (Text "This is the new best epoch!!") true;
    LogLine (Text "Saving new best model...") false;
    SaveModel epoch true ].

(** The value [rms_metrics] is compared with on line 229: the best so far,
    or [rms_metrics] itself at the first evaluation. *)
Definition reference (rms : float) (s : run_state) : float :=
  match best_rms_metrics s with None => rms | Some b => b end.

(** What lines 236-242 append. *)
Definition save_lines (epoch : Z) (saved : bool) : list event :=
  LogLine (Text "This is a save epoch.") false ::
  (if saved then [ LogLine already_saved_line false ]
   else [ LogLine (Text "Saving model...") false;
          SaveModel epoch false;
          LogLine (Text "Resuming training.") true ]).

(** No effect of the engine fails. *)
Definition reliable (E : engine) : Prop :=
  forall past e, io_fails E past e = false.

(** [m] returns from every state. *)
Definition returns {S A} (m : M S A) : Prop :=
  forall s, exists a s', m s = (Ok a, s').

(** The keys of a dictionary. *)
Definition od_keys {V} (d : odict V) : list string := map fst d.

(** Whatever its outcome, [m] only appends events that satisfy [P]. *)
Definition emits_only {A} (P : event -> Prop) (m : M (list event) A) : Prop :=
  forall past r past',
    m past = (r, past') -> exists new, past' = past ++ new /\ Forall P new.

(** The same inside the loop, where [m] also leaves the epoch counter alone. *)
Definition phase_emits {A} (P : event -> Prop) (m : M run_state A) : Prop :=
  forall s r s',
    m s = (r, s') ->
    epoch_number s' = epoch_number s /\
    exists new, trace s' = trace s ++ new /\ Forall P new.

(** An event other than a step of the scheduler. *)
Definition quiet_scheduler (e : event) : Prop := is_scheduler_step e = false.

(** An event that gives no point to the series of the training loss. *)
Definition no_train_point (E : engine) (e : event) : Prop := train_point E e = [].

(** What a computation that ends with lines 243-245 does to the epoch
    counter and to the scheduler: when it completes, the counter has advanced
    by one and the step of the scheduler is its last effect; when it raises,
    the counter has not moved unless the step of the scheduler is what
    raised.  Its other effects satisfy [P]. *)
Definition advances_once (P : event -> Prop) (m : M run_state unit) : Prop :=
  forall s r s',
    m s = (r, s') ->
    match r with
    | Ok _ =>
        epoch_number s' = epoch_number s + 1 /\
        exists new, trace s' = trace s ++ new ++ [SchedulerStep] /\ Forall P new
    | Raise e =>
        (exists new, trace s' = trace s ++ new /\ Forall P new) /\
        (e <> OSError SchedulerStep -> epoch_number s' = epoch_number s)
    end.

(** The points of the training series are strictly increasing and at most
    [bound]. *)
Definition increasing_below (bound : Z) (points : list Z) : Prop :=
  StronglySorted Z.lt points /\ Forall (fun x => x <= bound) points.

(** The best value [after] is the value [before] or a value that compares
    [<=] with it. *)
Definition best_kept_or_lowered (before after : option float) : Prop :=
  match before with
  | None => True
  | Some b => exists b', after = Some b' /\ (b' = b \/ fleb b' b = true)
  end.

(** [m] leaves the best value alone. *)
Definition keeps_best {A} (m : M run_state A) : Prop :=
  forall s r s', m s = (r, s') -> best_rms_metrics s' = best_rms_metrics s.

(** [m] never replaces the best value by one that is not [<=] it. *)
Definition lowers_best {A} (m : M run_state A) : Prop :=
  forall s r s',
    m s = (r, s') ->
    best_kept_or_lowered (best_rms_metrics s) (best_rms_metrics s').

(** What a logging iteration at batch [i] with the mean [mean] appends
    (lines 87-98). *)
Definition logging_events (E : engine) (epoch n : Z) (lr : float) (i : Z)
    (mean : float) : list event :=
  LogLine (TrainProgress epoch i lr mean) false ::
  (if has_summary_writer E
   then [AddScalar (train_series E) mean ((epoch - 1) * n + i)]
   else []).

(** The mean of the [j]-th group of [log_every] losses, [j] counted from 1. *)
Definition interval_mean (log_every : Z) (losses : list float) (j : nat) : float :=
  fdiv (fsum (firstn (Z.to_nat log_every)
                (skipn ((j - 1) * Z.to_nat log_every) losses)))
       (of_Z log_every).

(** The log of a training epoch: one logging event per complete group of
    [log_every] batches, at the last batch of the group. *)
Definition epoch_log (E : engine) (epoch log_every : Z) (lr : float)
    (losses : list float) : list event :=
  flat_map
    (fun j => logging_events E epoch (Z.of_nat (length losses)) lr
                (Z.of_nat j * log_every) (interval_mean log_every losses j))
    (seq 1 (length losses / Z.to_nat log_every)).

(** An [OrderedDict] keyed by metric name, holding [f m] for metric [m]. *)
Definition named {V} (f : metric -> V) (ms : list metric) : odict V :=
  map (fun m => (metric_name m, f m)) ms.

(** [od_set] on the metrics themselves: [m] takes the place of the entry of
    its name, or becomes the last entry. *)
Fixpoint rep_set (d : list metric) (m : metric) : list metric :=
  match d with
  | [] => [m]
  | m0 :: d' =>
      if String.eqb (metric_name m0) (metric_name m) then m :: d'
      else m0 :: rep_set d' m
  end.

(** The metrics an [OrderedDict] built from [(metric.name, ...)] pairs
    holds a value for: of each name the last metric, at the position of the
    first. *)
Definition representatives (ms : list metric) : list metric :=
  fold_left rep_set ms [].

(** All the scalars a metric yields in an evaluation epoch, batch after
    batch. *)
Definition epoch_scores_upto (E : engine) (epoch : Z) (n : nat) (m : metric)
  : list float :=
  concat (map (scores m epoch) (seq 0 n)).

Definition epoch_scores (E : engine) (epoch : Z) : metric -> list float :=
  epoch_scores_upto E epoch (evaluation_batches E epoch).

Definition epoch_means (E : engine) (epoch : Z) : odict float :=
  od_of_pairs
    (named (fun m => nanmean (epoch_scores E epoch m)) (evaluation_metrics E)).

(** The events a run of the engine may perform: a scalar only with a summary
    writer, a visual only on the series of the evaluation. *)
Definition permitted (E : engine) (e : event) : Prop :=
  match e with
  | AddScalar _ _ _ => has_summary_writer E = true
  | LogVisuals series_name _ => series_name = "Evaluation"
  | _ => True
  end.

(** The epoch number a weight write carries. *)
Definition save_epoch (e : event) : list Z :=
  match e with SaveModel n _ => [n] | _ => [] end.

(** The epoch numbers of the weight writes of a trace, in order. *)
Definition save_epochs (past : list event) : list Z := flat_map save_epoch past.

(** An event other than a weight write. *)
Definition no_save (e : event) : Prop := save_epoch e = [].

(** [m] leaves the epoch counter alone and writes the weights at most once,
    under the epoch number [e]. *)
Definition saves_at_most_once {A} (e : Z) (m : M run_state A) : Prop :=
  forall s r s',
    m s = (r, s') ->
    epoch_number s' = epoch_number s /\
    exists new,
      trace s' = trace s ++ new /\
      (save_epochs new = [] \/ save_epochs new = [e]).

(** The weight writes so far carry increasing epoch numbers, all of them
    below the current one. *)
Definition saved_before (s : run_state) : Prop :=
  StronglySorted Z.lt (save_epochs (trace s)) /\
  Forall (fun x => x < epoch_number s) (save_epochs (trace s)).

(** ['{}'.format(n)] for an [int]: its decimal numeral. *)
Definition str (n : Z) : string := NilZero.string_of_int (Z.to_int n).

(** Lines 176-178: the name of the weights file. *)
Definition save_name (epoch_number : Z) (best : bool) : string :=
  let _best := if best then "_BEST" else EmptyString in
  String.append "model_" (String.append (str epoch_number) _best).

(** The names of the weights files a trace has written, in order. *)
Definition weight_file (e : event) : list string :=
  match e with SaveModel n best => [save_name n best] | _ => [] end.

Definition weight_files (past : list event) : list string :=
  flat_map weight_file past.

(* ================================================================== *)
(** ** Instances used in examples *)

Definition fresh {MS C} (ms : MS) : observed MS C :=
  {| model_state := ms; calls := [] |}.

(** A model that has diverged: every pixel it returns is NaN. *)
Definition nan_refinement : refine_fn unit :=
  fun predicted_gt_image_t _ _ _ => ret (map (fun _ => nan) predicted_gt_image_t).

(** A model whose every output pixel is [v]. *)
Definition constant_refinement (v : float) : refine_fn unit :=
  fun predicted_gt_image_t _ _ _ => ret (map (fun _ => v) predicted_gt_image_t).

(** A model that returns the image it is given. *)
Definition identity_refinement : refine_fn unit :=
  fun predicted_gt_image_t _ _ _ => ret predicted_gt_image_t.

(** A model that answers with the conditioning image. *)
Definition conditioning_refinement : refine_fn unit :=
  fun _ cond_image _ _ => ret cond_image.

Definition identity_network : predict_fn unit :=
  fun _ noisy _ => ret noisy.

Definition first_pixel_loss (x y : tensor) : result float :=
  Ok (fsub (hd zero x) (hd zero y)).

(** One metric whose second sample is NaN, three batches per training epoch,
    one batch per evaluation, a telemetry sink, and no failing effect. *)
Definition example_metric : metric :=
  {| metric_name := "mse"; scores := fun _ _ => [one; nan; three] |}.

Definition example_engine : engine :=
  {| loss_function_name := "MSELoss";
     evaluation_metrics := [example_metric];
     has_summary_writer := true;
     learning_rate := fun _ => half;
     batch_losses := fun _ => [one; two; three];
     evaluation_batches := fun _ => 1%nat;
     io_fails := fun _ _ => false |}.



(** The engine of the example with a weight file that cannot be written. *)
Definition read_only_engine : engine :=
  {| loss_function_name := "MSELoss";
     evaluation_metrics := [example_metric];
     has_summary_writer := true;
     learning_rate := fun _ => half;
     batch_losses := fun _ => [one; two; three];
     evaluation_batches := fun _ => 1%nat;
     io_fails := fun _ e => is_save e |}.

(** The engine of the example with an evaluation loader that yields no
    batch. *)
Definition unevaluated_engine : engine :=
  {| loss_function_name := "MSELoss";
     evaluation_metrics := [example_metric];
     has_summary_writer := true;
     learning_rate := fun _ => half;
     batch_losses := fun _ => [one; two; three];
     evaluation_batches := fun _ => 0%nat;
     io_fails := fun _ _ => false |}.

(** Two metrics under one name, evaluated on two batches. *)
Definition shadowing_metric : metric :=
  {| metric_name := "mse"; scores := fun _ _ => [two] |}.

Definition shadowed_engine : engine :=
  {| loss_function_name := "MSELoss";
     evaluation_metrics := [example_metric; shadowing_metric];
     has_summary_writer := true;
     learning_rate := fun _ => half;
     batch_losses := fun _ => [one; two; three];
     evaluation_batches := fun _ => 2%nat;
     io_fails := fun _ _ => false |}.

(** The engine of the example without a summary writer. *)
Definition headless_engine : engine :=
  {| loss_function_name := "MSELoss";
     evaluation_metrics := [example_metric];
     has_summary_writer := false;
     learning_rate := fun _ => half;
     batch_losses := fun _ => [one; two; three];
     evaluation_batches := fun _ => 1%nat;
     io_fails := fun _ _ => false |}.

(* ================================================================== *)
(** * Facts *)

(** ** The monad *)

Lemma bind_inv {S A B} (m : M S A) (k : A -> M S B) s r s2 :
  bind m k s = (r, s2) ->
  (exists a s1, m s = (Ok a, s1) /\ k a s1 = (r, s2)) \/
  (exists e, m s = (Raise e, s2) /\ r = Raise e).
Proof.
  unfold bind. destruct (m s) as [[a | e] s1]; intros H.
  - left. eauto.
  - right. inversion H; subst. eauto.
Qed.

Lemma bind_Ok {S A B} (m : M S A) (k : A -> M S B) s b s2 :
  bind m k s = (Ok b, s2) ->
  exists a s1, m s = (Ok a, s1) /\ k a s1 = (Ok b, s2).
Proof.
  intros H. destruct (bind_inv _ _ _ _ _ H) as [H1 | [e [_ H1]]]; [exact H1 | discriminate].
Qed.

Lemma bind_step {S A B} (m : M S A) (k : A -> M S B) s a s1 :
  m s = (Ok a, s1) -> bind m k s = k a s1.
Proof. intros H. unfold bind. now rewrite H. Qed.

Lemma bind_raise {S A B} (m : M S A) (k : A -> M S B) s e s1 :
  m s = (Raise e, s1) -> bind m k s = (Raise e, s1).
Proof. intros H. unfold bind. now rewrite H. Qed.

Lemma lift_inv {S A} (r0 : result A) (s : S) r s1 :
  lift r0 s = (r, s1) -> r0 = r /\ s1 = s.
Proof. unfold lift. intros H. inversion H. auto. Qed.

Lemma bind_result_Ok {A B} (r : result A) (k : A -> result B) b :
  bind_result r k = Ok b -> exists a, r = Ok a /\ k a = Ok b.
Proof. destruct r as [a | e]; simpl; intros H; [eauto | discriminate]. Qed.

Lemma call_Ok {MS C A} (cl : C) (m : M MS A) s a s' :
  call cl m s = (Ok a, s') ->
  exists ms', m (model_state s) = (Ok a, ms') /\
              s' = {| model_state := ms'; calls := calls s ++ [cl] |}.
Proof.
  unfold call. destruct (m (model_state s)) as [r ms'] eqn:E.
  intros H. inversion H; subst. eauto.
Qed.

(** Splits a hypothesis on a successful [bind] into its two steps. *)
Ltac bind_ok H :=
  let a := fresh "a" in
  let s := fresh "s" in
  let H1 := fresh "Hstep" in
  apply bind_Ok in H; destruct H as (a & s & H1 & H).

(** ** binary32 *)

Lemma shift23 (m : positive) :
  (m * 8388608)%positive
  = (m~0~0~0~0~0~0~0~0~0~0~0~0~0~0~0~0~0~0~0~0~0~0~0)%positive.
Proof. rewrite Pos.mul_comm. reflexivity. Qed.

Lemma digits_shift23 (m : positive) :
  Zpos (digits2_pos (m~0~0~0~0~0~0~0~0~0~0~0~0~0~0~0~0~0~0~0~0~0~0~0))
  = Zpos (digits2_pos m) + 23.
Proof. cbn [digits2_pos]. rewrite !Pos2Z.inj_succ. lia. Qed.

(** Rounding the product of a canonical mantissa with the mantissa of [1.0]
    gives the mantissa back. *)
Lemma round_times_one s m e :
  bounded prec emax m e = true ->
  binary_round_aux prec emax s (Zpos (m * 8388608)) (e + -23) loc_Exact
  = S754_finite s m e.
Proof.
  intros Hb. unfold bounded, canonical_mantissa in Hb.
  apply andb_true_iff in Hb. destruct Hb as [Hc He].
  apply Z.eqb_eq in Hc.
  unfold binary_round_aux, shr_fexp.
  rewrite shift23. unfold Zdigits2. rewrite digits_shift23.
  replace (Z.pos (digits2_pos m) + 23 + (e + -23))
    with (Z.pos (digits2_pos m) + e) by lia.
  rewrite Hc.
  replace (e - (e + -23)) with 23 by lia.
  cbn [shr shr_record_of_loc iter_pos shr_1 orb shr_m loc_of_shr_record
       round_nearest_even].
  replace (e + -23 + 23) with e by lia.
  rewrite Hc, Z.sub_diag. cbn [shr shr_m]. now rewrite He.
Qed.

Lemma fmul_one_r x : valid x = true -> fmul x one = x.
Proof.
  destruct x as [s | s | | s m e]; intros Hv; try reflexivity.
  - unfold fmul, one; simpl. now destruct s.
  - unfold fmul, one; simpl. now destruct s.
  - unfold fmul, one, SFmul.
    replace (xorb s false) with s by now destruct s.
    now apply round_times_one.
Qed.

Lemma fmul_one_l x : valid x = true -> fmul one x = x.
Proof.
  destruct x as [s | s | | s m e]; intros Hv; try reflexivity.
  unfold fmul, one, SFmul. rewrite Pos.mul_comm, Z.add_comm.
  now apply round_times_one.
Qed.

Lemma fmul_zero_r x s :
  is_finite x = true -> exists s', fmul x (S754_zero s) = S754_zero s'.
Proof. destruct x; simpl; intros H; try discriminate; eauto. Qed.

Lemma fmul_zero_l x s :
  is_finite x = true -> exists s', fmul (S754_zero s) x = S754_zero s'.
Proof. destruct x; simpl; intros H; try discriminate; eauto. Qed.

Lemma fadd_zero_l s c : kept c (fadd (S754_zero s) c).
Proof.
  destruct c as [s' | s' | | s' m e]; try (left; reflexivity).
  destruct s, s'; simpl; unfold kept; auto.
Qed.

Lemma fadd_zero_r s c : kept c (fadd c (S754_zero s)).
Proof.
  destruct c as [s' | s' | | s' m e]; try (left; reflexivity).
  destruct s, s'; simpl; unfold kept; auto.
Qed.


(** ** Tensors *)

Lemma zip_with_length f x y r :
  zip_with f x y = Ok r -> length x = length y /\ length r = length x.
Proof.
  revert y r. induction x as [| a x IH]; intros [| b y] r H; simpl in H;
    try discriminate.
  - inversion H; subst. auto.
  - apply bind_result_Ok in H. destruct H as (r' & Hr & H).
    inversion H; subst. destruct (IH _ _ Hr) as [H1 H2]. simpl. lia.
Qed.

Lemma zip_with_total f x y :
  length x = length y -> exists r, zip_with f x y = Ok r.
Proof.
  revert y. induction x as [| a x IH]; intros [| b y] H; simpl in H;
    try discriminate.
  - exists []. reflexivity.
  - destruct (IH y) as [r Hr]; [lia |]. exists (f a b :: r).
    simpl. now rewrite Hr.
Qed.

Lemma zip_with_nth f x y r p a b :
  zip_with f x y = Ok r ->
  nth_error x p = Some a -> nth_error y p = Some b ->
  nth_error r p = Some (f a b).
Proof.
  revert y r p. induction x as [| a0 x IH]; intros [| b0 y] r p H Ha Hb;
    simpl in H; try discriminate.
  - destruct p; discriminate.
  - apply bind_result_Ok in H. destruct H as (r' & Hr & H).
    inversion H; subst. destruct p as [| p]; simpl in *.
    + congruence.
    + eauto.
Qed.

Lemma nth_error_defined {A} (l : list A) p :
  (p < length l)%nat -> exists a, nth_error l p = Some a.
Proof.
  intros H. destruct (nth_error l p) as [a |] eqn:E; [eauto |].
  apply nth_error_None in E. lia.
Qed.

Lemma blend_length x c mask r :
  blend x c mask = Ok r ->
  length x = length mask /\ length c = length mask /\ length r = length mask.
Proof.
  unfold blend, tmul, tadd. intros H.
  apply bind_result_Ok in H. destruct H as (u & Hu & H).
  apply bind_result_Ok in H. destruct H as (k & Hk & H).
  apply zip_with_length in Hu, Hk, H.
  unfold one_minus, mask_values in *. rewrite ?length_map in *. lia.
Qed.

Lemma blend_total x c mask :
  length x = length mask -> length c = length mask ->
  exists r, blend x c mask = Ok r.
Proof.
  intros Hx Hc. unfold blend, tmul, tadd.
  destruct (zip_with_total fmul x (mask_values mask)) as [u Hu].
  { unfold mask_values. now rewrite length_map. }
  destruct (zip_with_total fmul c (one_minus (mask_values mask))) as [k Hk].
  { unfold one_minus, mask_values. now rewrite !length_map. }
  rewrite Hu, Hk. simpl. apply zip_with_total.
  apply zip_with_length in Hu, Hk. lia.
Qed.

(** The blend at a position of the known region. *)
Lemma blend_known x c mask r p cv :
  blend x c mask = Ok r ->
  nth_error mask p = Some false ->
  nth_error c p = Some cv -> valid cv = true ->
  (forall xv, nth_error x p = Some xv -> is_finite xv = true) ->
  exists v, nth_error r p = Some v /\ kept cv v.
Proof.
  intros H Hm Hc Hv Hx.
  destruct (blend_length _ _ _ _ H) as (Lx & Lc & Lr).
  assert (Hp : (p < length mask)%nat) by (apply nth_error_Some; congruence).
  destruct (nth_error_defined x p) as [xv Hxv]; [lia |].
  unfold blend, tmul, tadd in H.
  apply bind_result_Ok in H. destruct H as (u & Hu & H).
  apply bind_result_Ok in H. destruct H as (k & Hk & H).
  assert (Hm0 : nth_error (mask_values mask) p = Some zero).
  { unfold mask_values. rewrite nth_error_map, Hm. reflexivity. }
  assert (Hm1 : nth_error (one_minus (mask_values mask)) p = Some one).
  { unfold one_minus. rewrite nth_error_map, Hm0. reflexivity. }
  pose proof (zip_with_nth _ _ _ _ _ _ _ Hu Hxv Hm0) as Hup.
  pose proof (zip_with_nth _ _ _ _ _ _ _ Hk Hc Hm1) as Hkp.
  pose proof (zip_with_nth _ _ _ _ _ _ _ H Hup Hkp) as Hrp.
  exists (fadd (fmul xv zero) (fmul cv one)). split; [exact Hrp |].
  rewrite (fmul_one_r cv Hv).
  destruct (fmul_zero_r xv false (Hx _ Hxv)) as [s' Hz].
  unfold zero. rewrite Hz. apply fadd_zero_l.
Qed.

(** ** C1: the known region *)

(** A pixel of [x*mask + cond_image*(1-mask)]. *)
Lemma blend_nth x c mask r p xv cv m :
  blend x c mask = Ok r ->
  nth_error mask p = Some m ->
  nth_error c p = Some cv -> nth_error x p = Some xv ->
  nth_error r p
  = Some (fadd (fmul xv (mask_value m)) (fmul cv (fsub one (mask_value m)))).
Proof.
  intros H Hm Hc Hx.
  unfold blend, tmul, tadd in H.
  apply bind_result_Ok in H. destruct H as (u & Hu & H).
  apply bind_result_Ok in H. destruct H as (k & Hk & H).
  assert (Hm0 : nth_error (mask_values mask) p = Some (mask_value m)).
  { unfold mask_values. rewrite nth_error_map, Hm. reflexivity. }
  assert (Hm1 : nth_error (one_minus (mask_values mask)) p
                = Some (fsub one (mask_value m))).
  { unfold one_minus. rewrite nth_error_map, Hm0. reflexivity. }
  pose proof (zip_with_nth _ _ _ _ _ _ _ Hu Hx Hm0) as Hup.
  pose proof (zip_with_nth _ _ _ _ _ _ _ Hk Hc Hm1) as Hkp.
  exact (zip_with_nth _ _ _ _ _ _ _ H Hup Hkp).
Qed.

Lemma blend_defined x c mask r p :
  blend x c mask = Ok r -> (p < length mask)%nat ->
  exists xv, nth_error x p = Some xv.
Proof.
  intros H Hp. destruct (blend_length _ _ _ _ H) as (Lx & _ & _).
  apply nth_error_defined. lia.
Qed.

(** The blend at a position of the known region under a candidate that is
    NaN or infinite there. *)
Lemma blend_known_lost x c mask r p xv cv :
  blend x c mask = Ok r ->
  nth_error mask p = Some false ->
  nth_error c p = Some cv ->
  nth_error x p = Some xv -> is_finite xv = false ->
  nth_error r p = Some nan.
Proof.
  intros H Hm Hc Hx Hf.
  rewrite (blend_nth _ _ _ _ _ _ _ _ H Hm Hc Hx). f_equal.
  destruct xv; try discriminate; reflexivity.
Qed.

Lemma loop_app {MS} (refinement_step : refine_fn MS) sched cond_image mask :
  forall a b img s,
    refinement_loop refinement_step sched cond_image mask img (a ++ b) s
    = bind (refinement_loop refinement_step sched cond_image mask img a)
        (fun mid =>
           refinement_loop refinement_step sched cond_image mask mid b) s.
Proof.
  induction a as [| i a IH]; intros b img s; [reflexivity |].
  simpl. unfold bind.
  destruct (refinement_iteration refinement_step sched cond_image mask img i s)
    as [[next | e] s1]; [| reflexivity].
  rewrite IH. reflexivity.
Qed.

(** What an iteration of the sweep that returns has done. *)
Lemma iteration_Ok {MS} (refinement_step : refine_fn MS) sched cond_image mask
    img i s next s' :
  refinement_iteration refinement_step sched cond_image mask img i s
  = (Ok next, s') ->
  exists ag candidate,
    schedule_at sched (length sched - (i + 1)) = Ok ag /\
    refinement_step img cond_image (fst ag) (snd ag) (model_state s)
    = (Ok candidate, model_state s') /\
    blend candidate cond_image mask = Ok next.
Proof.
  unfold refinement_iteration. intros H. bind_ok H. bind_ok H.
  apply lift_inv in Hstep. destruct Hstep as [Hag Hs]. subst s0.
  apply call_Ok in Hstep0. destruct Hstep0 as (ms' & Hcall & Hs1).
  apply lift_inv in H. destruct H as [Hb Hs']. subst s' s1.
  exists a, a0. auto.
Qed.

(** The boundary after iteration [k] is reached from the boundary before it
    by one iteration. *)
Lemma infer_iterations_S {MS} (refinement_step : refine_fn MS) sched noise
    cond_image mask k s img s' :
  infer_iterations refinement_step sched noise cond_image mask (S k) s
  = (Ok img, s') ->
  exists prev s1,
    infer_iterations refinement_step sched noise cond_image mask k s
    = (Ok prev, s1) /\
    refinement_iteration refinement_step sched cond_image mask prev k s1
    = (Ok img, s').
Proof.
  unfold infer_iterations. intros H. bind_ok H.
  rewrite seq_S, loop_app in H. simpl in H. bind_ok H. bind_ok H.
  unfold ret in H. inversion H; subst. clear H.
  exists a0, s1. split; [| exact Hstep1].
  now rewrite (bind_step _ _ _ _ _ Hstep).
Qed.

(** C1 (as amended).  At a position [p] where the mask is false the working
    image holds the conditioning image's pixel (the same datum, except that
    a conditioning pixel [-0.0] may be held as [+0.0]):
    - at the boundary before the first iteration, if the noise drawn at [p]
      is finite;
    - at the boundary after an iteration, if the value the model returned at
      [p] in that iteration is finite, whatever it returned before; when that
      value is NaN or infinite the pixel is NaN;
    - in the result of [infer_one_batch], which is the last of these
      boundaries. *)
Theorem known_region_preserved :
  forall (MS : Type) (refinement_step : refine_fn MS) (sched : NoiseSchedule)
         (noise cond_image : tensor) (mask : list bool) (p : nat) (c : float),
    nth_error mask p = Some false ->
    nth_error cond_image p = Some c ->
    valid c = true ->
    (forall s img s',
        infer_iterations refinement_step sched noise cond_image mask 0 s
        = (Ok img, s') ->
        (forall v, nth_error noise p = Some v -> is_finite v = true) ->
        known_pixel_kept p c img) /\
    (forall k s img s',
        infer_iterations refinement_step sched noise cond_image mask (S k) s
        = (Ok img, s') ->
        exists prev s1 ag candidate,
          infer_iterations refinement_step sched noise cond_image mask k s
          = (Ok prev, s1) /\
          schedule_at sched (length sched - (k + 1)) = Ok ag /\
          refinement_step prev cond_image (fst ag) (snd ag) (model_state s1)
          = (Ok candidate, model_state s') /\
          blend candidate cond_image mask = Ok img /\
          ((forall v, nth_error candidate p = Some v -> is_finite v = true) ->
           known_pixel_kept p c img) /\
          (forall v, nth_error candidate p = Some v -> is_finite v = false ->
                     nth_error img p = Some nan)) /\
    (forall s img s',
        infer_one_batch refinement_step sched noise cond_image mask s
        = (Ok img, s') ->
        match length sched with
        | O =>
            (forall v, nth_error noise p = Some v -> is_finite v = true) ->
            known_pixel_kept p c img
        | S k =>
            exists prev s1 ag candidate,
              infer_iterations refinement_step sched noise cond_image mask k s
              = (Ok prev, s1) /\
              schedule_at sched 0 = Ok ag /\
              refinement_step prev cond_image (fst ag) (snd ag)
                (model_state s1)
              = (Ok candidate, model_state s') /\
              blend candidate cond_image mask = Ok img /\
              ((forall v, nth_error candidate p = Some v ->
                          is_finite v = true) ->
               known_pixel_kept p c img) /\
              (forall v, nth_error candidate p = Some v ->
                         is_finite v = false ->
                         nth_error img p = Some nan)
        end).
Proof.
  intros MS refinement_step sched noise cond_image mask p c Hm Hc Hv.
  assert (Hstart : forall s img s',
             infer_iterations refinement_step sched noise cond_image mask 0 s
             = (Ok img, s') ->
             (forall v, nth_error noise p = Some v -> is_finite v = true) ->
             known_pixel_kept p c img).
  { intros s img s' H Hn. unfold infer_iterations in H. bind_ok H.
    apply lift_inv in Hstep. destruct Hstep as [Hb _].
    simpl in H. inversion H; subst.
    eapply blend_known; eauto. }
  assert (Hstep : forall k s img s',
             infer_iterations refinement_step sched noise cond_image mask
               (S k) s = (Ok img, s') ->
             exists prev s1 ag candidate,
               infer_iterations refinement_step sched noise cond_image mask k s
               = (Ok prev, s1) /\
               schedule_at sched (length sched - (k + 1)) = Ok ag /\
               refinement_step prev cond_image (fst ag) (snd ag)
                 (model_state s1)
               = (Ok candidate, model_state s') /\
               blend candidate cond_image mask = Ok img /\
               ((forall v, nth_error candidate p = Some v ->
                           is_finite v = true) ->
                known_pixel_kept p c img) /\
               (forall v, nth_error candidate p = Some v ->
                          is_finite v = false ->
                          nth_error img p = Some nan)).
  { intros k s img s' H.
    destruct (infer_iterations_S _ _ _ _ _ _ _ _ _ H) as (prev & s1 & Hk & Hit).
    destruct (iteration_Ok _ _ _ _ _ _ _ _ _ Hit)
      as (ag & candidate & Hag & Hcall & Hb).
    exists prev, s1, ag, candidate.
    split; [exact Hk |]. split; [exact Hag |]. split; [exact Hcall |].
    split; [exact Hb |]. split.
    - intros Hf. eapply blend_known; eauto.
    - intros v Hx Hf. eapply blend_known_lost; eauto. }
  split; [exact Hstart | split; [exact Hstep |]].
  intros s img s' H. unfold infer_one_batch in H.
  destruct (length sched) as [| k] eqn:HT.
  - now apply (Hstart s img s').
  - destruct (Hstep k s img s' H)
      as (prev & s1 & ag & candidate & Hk & Hag & Hrest).
    exists prev, s1, ag, candidate.
    split; [exact Hk |]. split; [| exact Hrest].
    now replace (S k - (k + 1))%nat with 0%nat in Hag by lia.
Qed.

Lemma known_region_preserved_witness :
  known_pixel_kept 0 one [one; half].
Proof.
  pose proof (known_region_preserved unit identity_refinement
                [(half, half); (one, one)] [half; half] [one; two]
                [false; true] 0%nat one eq_refl eq_refl eq_refl)
    as [_ [_ Hrun]].
  destruct (Hrun (fresh tt) [one; half]
              (snd (infer_one_batch identity_refinement
                      [(half, half); (one, one)] [half; half] [one; two]
                      [false; true] (fresh tt)))
              eq_refl)
    as (prev & s1 & ag & candidate & Hk & Hag & Hcall & _ & Hkept & _).
  apply Hkept. intros v Hx.
  vm_compute in Hk. inversion Hk; subst prev s1.
  unfold identity_refinement, ret in Hcall. inversion Hcall; subst candidate.
  simpl in Hx. inversion Hx. reflexivity.
Defined.

(** C1 (as stated) fails: a model that returns NaN at a known position leaves
    NaN there, since [NaN * 0 = NaN] and [NaN + c = NaN]. *)
Lemma known_region_counterexample :
  fst (infer_one_batch nan_refinement [(half, half)] [half] [one] [false] (fresh tt))
    = Ok [nan]
  /\ nth_error [false] 0 = Some false
  /\ nth_error [one] 0 = Some one
  /\ ~ same_value nan one.
Proof.
  repeat split; try reflexivity.
  intros [H | [H _]]; discriminate.
Qed.

(** Why [kept] has its second case: a conditioning pixel [-0.0] under a
    non-negative candidate is blended to [+0.0]. *)
Example negative_zero_blended :
  blend [half] [S754_zero true] [false] = Ok [S754_zero false].
Proof. reflexivity. Qed.

(** ** C3: the order in which the schedule is consumed *)

Lemma rev_seq_descending (T : nat) :
  rev (seq 0 T) = map (fun i => (T - (i + 1))%nat) (seq 0 T).
Proof.
  induction T as [| T IH].
  - reflexivity.
  - rewrite seq_S at 1. rewrite rev_app_distr. simpl rev. simpl app.
    change (seq 0 (S T)) with (0%nat :: seq 1 T).
    rewrite <- seq_shift, map_cons, map_map. f_equal.
    + lia.
    + rewrite IH. apply map_ext. intros i. lia.
Qed.

Section Sweep.

Context {MS : Type}.
Variable refinement_step : refine_fn MS.
Variable sched : NoiseSchedule.
Variable cond_image : tensor.
Variable mask : list bool.

(** A model that, given an image of the size of the conditioning image,
    does not raise and returns an image of that size. *)
Hypothesis total :
  forall x a g ms,
    length x = length cond_image ->
    exists out ms',
      refinement_step x cond_image a g ms = (Ok out, ms') /\
      length out = length cond_image.
Hypothesis mask_size : length mask = length cond_image.

Lemma iteration_returns img i s :
  (i < length sched)%nat ->
  length img = length cond_image ->
  exists next s',
    refinement_iteration refinement_step sched cond_image mask img i s
    = (Ok next, s') /\
    length next = length cond_image.
Proof.
  intros Hi Himg. unfold refinement_iteration.
  destruct (nth_error_defined sched (length sched - (i + 1))) as [ag Hag]; [lia |].
  assert (Hs : schedule_at sched (length sched - (i + 1)) = Ok ag)
    by (unfold schedule_at; now rewrite Hag).
  rewrite (bind_step _ _ s ag s) by (unfold lift; now rewrite Hs).
  destruct (total img (fst ag) (snd ag) (model_state s) Himg)
    as (out & ms' & Hr & Hl).
  destruct (blend_total out cond_image mask) as [next Hb]; [lia | lia |].
  eexists next, _.
  erewrite bind_step; [| unfold call; rewrite Hr; reflexivity].
  unfold lift. rewrite Hb. split; [reflexivity |].
  destruct (blend_length _ _ _ _ Hb) as (_ & _ & Hn). lia.
Qed.

Lemma loop_returns range : forall img s,
  Forall (fun i => (i < length sched)%nat) range ->
  length img = length cond_image ->
  exists out s',
    refinement_loop refinement_step sched cond_image mask img range s = (Ok out, s').
Proof.
  induction range as [| i range IH]; intros img s Hr Himg; simpl.
  - eexists _, _. reflexivity.
  - inversion Hr; subst.
    destruct (iteration_returns img i s) as (next & s1 & Hn & Hl);
      [assumption | assumption |].
    rewrite (bind_step _ _ _ _ _ Hn). now apply IH.
Qed.

End Sweep.

(** *** The invocations the model itself has seen *)

Lemma recording_inv {MS} (refinement_step : refine_fn MS) x c a g st r st' :
  recording refinement_step x c a g st = (r, st') ->
  refinement_step x c a g (snd st) = (r, snd st') /\
  fst st' = fst st ++ [{| given_image := x; given_cond_image := c;
                          given_alpha := a; given_gamma := g |}].
Proof.
  unfold recording. destruct (refinement_step x c a g (snd st)) as [r0 ms'].
  intros H. inversion H; subst. auto.
Qed.

Lemma map_nth_seq {A} (l : list A) d :
  map (fun t => nth t l d) (seq 0 (length l)) = l.
Proof.
  induction l as [| x l IH]; [reflexivity |].
  simpl length. cbn [seq map nth]. f_equal.
  rewrite <- seq_shift, map_map. exact IH.
Qed.

(** Reading the schedule at the indices [T-1], ..., [0] gives it reversed. *)
Lemma descending_read (sched : NoiseSchedule) :
  map (fun i => nth (length sched - (i + 1)) sched (zero, zero))
      (seq 0 (length sched))
  = rev sched.
Proof.
  rewrite <- (map_map (fun i => (length sched - (i + 1))%nat)
                      (fun t => nth t sched (zero, zero))).
  rewrite <- rev_seq_descending, map_rev, map_nth_seq. reflexivity.
Qed.

Section Recorded.

Context {MS : Type}.
Variable refinement_step : refine_fn MS.
Variable sched : NoiseSchedule.
Variable cond_image : tensor.
Variable mask : list bool.

(** An iteration within the schedule invokes the model once, whatever comes
    of the invocation and of the blend; and the recording model runs as the
    model it records. *)
Lemma iteration_recorded img i s r s' :
  (i < length sched)%nat ->
  refinement_iteration (recording refinement_step) sched cond_image mask
    img i s = (r, s') ->
  invocations s'
  = invocations s
    ++ [{| given_image := img; given_cond_image := cond_image;
           given_alpha := fst (nth (length sched - (i + 1)) sched (zero, zero));
           given_gamma := snd (nth (length sched - (i + 1)) sched (zero, zero))
        |}] /\
  calls s' = calls s ++ [call_at sched (length sched - (i + 1))] /\
  refinement_iteration refinement_step sched cond_image mask img i
    (unrecorded s) = (r, unrecorded s').
Proof.
  intros Hi H. unfold refinement_iteration in *.
  destruct (nth_error_defined sched (length sched - (i + 1))) as [ag Hag];
    [lia |].
  assert (Hn : nth (length sched - (i + 1)) sched (zero, zero) = ag)
    by now apply nth_error_nth.
  rewrite (bind_step _ _ s ag s) in H
    by (unfold lift, schedule_at; now rewrite Hag).
  rewrite (bind_step _ _ (unrecorded s) ag (unrecorded s))
    by (unfold lift, schedule_at; now rewrite Hag).
  rewrite Hn. unfold call_at. rewrite Hn.
  unfold bind, call, lift in *.
  destruct (recording refinement_step img cond_image (fst ag) (snd ag)
              (model_state s)) as [r0 st'] eqn:Hcall.
  apply recording_inv in Hcall. destruct Hcall as [Hf Hrec].
  cbn [unrecorded model_state]. rewrite Hf.
  destruct r0 as [candidate | e];
    inversion H; subst; unfold invocations, unrecorded; simpl; auto.
Qed.

Lemma loop_recorded range : forall img s r s',
  Forall (fun i => (i < length sched)%nat) range ->
  refinement_loop (recording refinement_step) sched cond_image mask
    img range s = (r, s') ->
  exists k made,
    (k <= length range)%nat /\
    invocations s' = invocations s ++ made /\
    map given_coefficients made
    = map (fun i => nth (length sched - (i + 1)) sched (zero, zero))
        (firstn k range) /\
    Forall (fun v => given_cond_image v = cond_image) made /\
    calls s'
    = calls s ++ map (fun i => call_at sched (length sched - (i + 1)))
                   (firstn k range) /\
    (forall out, r = Ok out -> k = length range) /\
    (forall e, r = Raise e -> (1 <= k)%nat) /\
    refinement_loop refinement_step sched cond_image mask img range
      (unrecorded s) = (r, unrecorded s').
Proof.
  induction range as [| i range IH]; intros img s r s' Hr H; simpl in H.
  - inversion H; subst. exists 0%nat, []. simpl. rewrite !app_nil_r.
    split; [lia |]. split; [reflexivity |]. split; [reflexivity |].
    split; [constructor |]. split; [reflexivity |].
    split; [reflexivity |]. split; [discriminate | reflexivity].
  - inversion Hr as [| ? ? Hi Hr']; subst.
    destruct (refinement_iteration (recording refinement_step) sched
                cond_image mask img i s) as [[next | e] s1] eqn:Hit.
    + rewrite (bind_step _ _ _ _ _ Hit) in H.
      destruct (iteration_recorded _ _ _ _ _ Hi Hit) as (Hm & Hc & Hu).
      destruct (IH _ _ _ _ Hr' H)
        as (k & made & Hk & Hm' & Hco & Hcond & Hc' & Hok & Hraise & Hu').
      eexists (S k), (_ :: made).
      split; [simpl; lia |].
      split; [rewrite Hm', Hm, <- app_assoc; reflexivity |].
      split; [simpl; rewrite Hco; unfold given_coefficients; simpl;
              now rewrite <- surjective_pairing |].
      split; [constructor; [reflexivity | exact Hcond] |].
      split; [rewrite Hc', Hc, <- app_assoc; reflexivity |].
      split; [intros out Hout; simpl; now rewrite (Hok out Hout) |].
      split; [intros; lia |].
      simpl. rewrite (bind_step _ _ _ _ _ Hu). exact Hu'.
    + rewrite (bind_raise _ _ _ _ _ Hit) in H. inversion H; subst.
      destruct (iteration_recorded _ _ _ _ _ Hi Hit) as (Hm & Hc & Hu).
      eexists 1%nat, [_].
      split; [simpl; lia |]. split; [exact Hm |].
      split; [simpl; unfold given_coefficients; simpl;
              now rewrite <- surjective_pairing |].
      split; [repeat constructor |]. split; [exact Hc |].
      split; [discriminate |]. split; [intros; lia |].
      simpl. now rewrite (bind_raise _ _ _ _ _ Hu).
Qed.

(** A run of [infer_one_batch] on the recording model, however it ends. *)
Lemma infer_recorded noise s r s' :
  infer_one_batch (recording refinement_step) sched noise cond_image mask s
  = (r, s') ->
  exists k made,
    (k <= length sched)%nat /\
    invocations s' = invocations s ++ made /\
    map given_coefficients made = firstn k (rev sched) /\
    Forall (fun v => given_cond_image v = cond_image) made /\
    calls s' = calls s ++ firstn k (descending_calls sched) /\
    (forall img, r = Ok img -> k = length sched) /\
    (forall start e, blend noise cond_image mask = Ok start ->
                     r = Raise e -> (1 <= k)%nat) /\
    (forall e, blend noise cond_image mask = Raise e ->
               r = Raise e /\ s' = s) /\
    infer_one_batch refinement_step sched noise cond_image mask (unrecorded s)
    = (r, unrecorded s').
Proof.
  intros H. unfold infer_one_batch, infer_iterations in *.
  destruct (blend noise cond_image mask) as [start | e0] eqn:Hb.
  - rewrite (bind_step _ _ s start s) in H by reflexivity.
    rewrite (bind_step _ _ (unrecorded s) start (unrecorded s)) by reflexivity.
    apply loop_recorded in H.
    + destruct H
        as (k & made & Hk & Hm & Hco & Hcond & Hc & Hok & Hraise & Hu).
      rewrite length_seq in *. exists k, made.
      split; [exact Hk |]. split; [exact Hm |].
      split; [rewrite Hco, <- descending_read, firstn_map; reflexivity |].
      split; [exact Hcond |].
      split; [rewrite Hc; unfold descending_calls;
              rewrite rev_seq_descending, map_map, firstn_map; reflexivity |].
      split; [exact Hok |].
      split; [intros start' e _ Hr; exact (Hraise e Hr) |].
      split; [discriminate | exact Hu].
    + apply Forall_forall. intros i Hi. apply in_seq in Hi. lia.
  - rewrite (bind_raise _ _ s e0 s) in H by reflexivity.
    rewrite (bind_raise _ _ (unrecorded s) e0 (unrecorded s)) by reflexivity.
    inversion H; subst. exists 0%nat, []. simpl. rewrite !app_nil_r.
    split; [lia |]. split; [reflexivity |]. split; [reflexivity |].
    split; [constructor |]. split; [reflexivity |].
    split; [discriminate |]. split; [discriminate |].
    split; [| reflexivity].
    intros e He. inversion He; subst. split; reflexivity.
Qed.

End Recorded.

(** C3.  A run of [infer_one_batch] that returns has invoked the model's
    refinement step exactly [T] times: the model that records its own
    invocations has recorded [T] of them, with the pairs
    [(alpha_t, gamma_t)] of the schedule from its last entry to its first,
    read at the indices [T-1], ..., [0] in this order, and with the
    conditioning image each time.  The recording model runs as the model it
    records, and the run does return whenever the model returns images of
    the right size without raising. *)
Theorem refinement_calls_descend :
  forall (MS : Type) (refinement_step : refine_fn MS) (sched : NoiseSchedule)
         (noise cond_image : tensor) (mask : list bool)
         (s : observed (list invocation * MS) refine_call),
    (forall img s',
        infer_one_batch (recording refinement_step) sched noise cond_image
          mask s = (Ok img, s') ->
        exists made,
          invocations s' = invocations s ++ made /\
          length made = length sched /\
          map given_coefficients made = rev sched /\
          Forall (fun v => given_cond_image v = cond_image) made /\
          calls s' = calls s ++ descending_calls sched) /\
    (forall r s',
        infer_one_batch (recording refinement_step) sched noise cond_image
          mask s = (r, s') ->
        infer_one_batch refinement_step sched noise cond_image mask
          (unrecorded s) = (r, unrecorded s')) /\
    length (descending_calls sched) = length sched /\
    map rc_index (descending_calls sched) = rev (seq 0 (length sched)) /\
    (length noise = length cond_image ->
     length mask = length cond_image ->
     (forall x a g ms,
         length x = length cond_image ->
         exists out ms',
           refinement_step x cond_image a g ms = (Ok out, ms') /\
           length out = length cond_image) ->
     exists img s',
       infer_one_batch (recording refinement_step) sched noise cond_image
         mask s = (Ok img, s')).
Proof.
  intros MS refinement_step sched noise cond_image mask s.
  split; [| split; [| split; [| split]]].
  - intros img s' H.
    destruct (infer_recorded refinement_step sched cond_image mask noise
                s _ _ H)
      as (k & made & _ & Hm & Hco & Hcond & Hc & Hok & _).
    rewrite (Hok img eq_refl) in Hco, Hc.
    rewrite <- (length_rev sched) in Hco at 1. rewrite firstn_all in Hco.
    assert (Hlen : length (descending_calls sched) = length sched)
      by (unfold descending_calls;
          now rewrite length_map, length_rev, length_seq).
    rewrite <- Hlen, firstn_all in Hc.
    exists made. split; [exact Hm |]. split; [| auto].
    rewrite <- (length_map given_coefficients), Hco. apply length_rev.
  - intros r s' H.
    destruct (infer_recorded refinement_step sched cond_image mask noise
                s _ _ H) as (k & made & _ & _ & _ & _ & _ & _ & _ & _ & Hu).
    exact Hu.
  - unfold descending_calls. now rewrite length_map, length_rev, length_seq.
  - unfold descending_calls. rewrite map_map. simpl. apply map_id.
  - intros Hn Hm Ht. unfold infer_one_batch, infer_iterations.
    destruct (blend_total noise cond_image mask) as [start Hb]; [lia | lia |].
    rewrite (bind_step _ _ s start s) by (unfold lift; now rewrite Hb).
    apply loop_returns; auto.
    + intros x a g st Hx.
      destruct (Ht x a g (snd st) Hx) as (out & ms' & Hf & Hl).
      eexists out, _. unfold recording. rewrite Hf.
      split; [reflexivity | exact Hl].
    + apply Forall_forall. intros i Hi. apply in_seq in Hi. lia.
    + destruct (blend_length _ _ _ _ Hb) as (_ & _ & Hl). lia.
Qed.

Lemma refinement_calls_descend_witness :
  exists img s',
    infer_one_batch (recording identity_refinement) [(half, half); (one, two)]
      [half; half] [one; two] [false; true] (fresh ([], tt)) = (Ok img, s') /\
    map given_coefficients (invocations s') = [(one, two); (half, half)] /\
    calls s' = [ {| rc_index := 1; rc_alpha := one; rc_gamma := two |};
                 {| rc_index := 0; rc_alpha := half; rc_gamma := half |} ].
Proof.
  destruct (refinement_calls_descend unit identity_refinement
              [(half, half); (one, two)] [half; half] [one; two] [false; true]
              (fresh ([], tt))) as (Hmade & _ & _ & _ & Hret).
  destruct Hret as (img & s' & Hrun).
  - reflexivity.
  - reflexivity.
  - intros x a g ms Hx. exists x, ms. split; [reflexivity | exact Hx].
  - exists img, s'. split; [exact Hrun |].
    destruct (Hmade _ _ Hrun) as (made & Hm & _ & Hco & _ & Hc).
    split; [rewrite Hm; exact Hco | rewrite Hc; reflexivity].
Defined.

(** The placeholder model fails at the first call of the sweep. *)
Example placeholder_model_raises :
  infer_one_batch (@refinement_step_stub unit) [(half, half); (one, two)]
    [half] [one] [false] (fresh tt)
  = (Raise (ModelError "Must define a refinement step!"),
     {| model_state := tt;
        calls := [ {| rc_index := 1; rc_alpha := one; rc_gamma := two |} ] |}).
Proof. reflexivity. Qed.

(** ** C7: the forward corruption *)

Lemma noisy_image_nth gamma gt noise noisy p x n :
  noisy_image gamma gt noise = Ok noisy ->
  nth_error gt p = Some x -> nth_error noise p = Some n ->
  nth_error noisy p
  = Some (fadd (fmul (fsqrt gamma) x) (fmul (fsqrt (fsub one gamma)) n)).
Proof.
  unfold noisy_image, tadd, scale. intros H Hx Hn.
  eapply zip_with_nth; [exact H | |]; rewrite nth_error_map.
  - now rewrite Hx.
  - now rewrite Hn.
Qed.

Lemma noisy_image_length gamma gt noise noisy :
  noisy_image gamma gt noise = Ok noisy ->
  length noise = length gt /\ length noisy = length gt.
Proof.
  unfold noisy_image, tadd, scale. intros H.
  apply zip_with_length in H. rewrite !length_map in H. lia.
Qed.

Lemma noisy_image_total gamma gt noise :
  length noise = length gt -> exists noisy, noisy_image gamma gt noise = Ok noisy.
Proof.
  intros H. unfold noisy_image, tadd, scale. apply zip_with_total.
  rewrite !length_map. lia.
Qed.

(** With [gamma = 1] the noise term is a zero and the signal term is the
    ground truth. *)
Lemma noisy_image_gamma_one gt noise noisy p x :
  noisy_image one gt noise = Ok noisy ->
  nth_error gt p = Some x -> valid x = true ->
  (forall n, nth_error noise p = Some n -> is_finite n = true) ->
  known_pixel_kept p x noisy.
Proof.
  intros H Hx Hv Hn.
  destruct (noisy_image_length _ _ _ _ H) as [Ln _].
  destruct (nth_error_defined noise p) as [n Hnp].
  { rewrite Ln. apply nth_error_Some. congruence. }
  exists (fadd (fmul (fsqrt one) x) (fmul (fsqrt (fsub one one)) n)).
  split; [eapply noisy_image_nth; eauto |].
  change (fsqrt one) with one. change (fsqrt (fsub one one)) with (S754_zero false).
  rewrite (fmul_one_l x Hv).
  destruct (fmul_zero_l n false (Hn _ Hnp)) as [s' Hz]. rewrite Hz.
  apply fadd_zero_r.
Qed.

(** C7.  A call of [train_one_batch] that returns has passed the network
    exactly one image, which at every position is
    [sqrt(gamma_t)*ground_truth + sqrt(1-gamma_t)*noise] for the [gamma_t] of
    the drawn index [t]; with [gamma_t = 1] and a finite noise draw that image
    is the ground truth (the same datum at every pixel, a pixel [-0.0] apart,
    which may be passed as [+0.0]); and the call returns whenever the draws
    have the right size and index and the network and the loss do not raise. *)
Theorem forward_corruption :
  forall (MS : Type) (model : predict_fn MS)
         (loss_function : tensor -> tensor -> result float)
         (optimizer_step : float -> MS -> MS) (sched : NoiseSchedule)
         (t : nat) (noise gt_image cond_image : tensor) (mask : list bool)
         (s : observed MS predict_call),
    (forall loss s',
        train_one_batch model loss_function optimizer_step sched t noise
          gt_image cond_image mask s = (Ok loss, s') ->
        exists alpha gamma noisy,
          nth_error sched t = Some (alpha, gamma) /\
          calls s' = calls s ++ [ {| pc_cond_image := cond_image;
                                     pc_noisy_image := noisy;
                                     pc_gamma := gamma |} ] /\
          length noisy = length gt_image /\
          (forall p x n,
              nth_error gt_image p = Some x -> nth_error noise p = Some n ->
              nth_error noisy p
              = Some (fadd (fmul (fsqrt gamma) x)
                           (fmul (fsqrt (fsub one gamma)) n))) /\
          (gamma = one ->
           forall p x,
             nth_error gt_image p = Some x -> valid x = true ->
             (forall n, nth_error noise p = Some n -> is_finite n = true) ->
             known_pixel_kept p x noisy)) /\
    ((t < length sched)%nat ->
     length noise = length gt_image ->
     (forall c x g ms, exists out ms', model c x g ms = (Ok out, ms')) ->
     (forall x y, exists l, loss_function x y = Ok l) ->
     exists loss s',
       train_one_batch model loss_function optimizer_step sched t noise
         gt_image cond_image mask s = (Ok loss, s')).
Proof.
  intros MS model loss_function optimizer_step sched t noise gt_image
         cond_image mask s.
  split.
  - intros loss s' H. unfold train_one_batch in H.
    bind_ok H. bind_ok H. bind_ok H. bind_ok H. bind_ok H.
    apply lift_inv in Hstep. destruct Hstep as [Hag Hs]. subst s0.
    apply lift_inv in Hstep0. destruct Hstep0 as [Hnoisy Hs]. subst s1.
    apply call_Ok in Hstep1. destruct Hstep1 as (ms' & _ & Hs). subst s2.
    apply lift_inv in Hstep2. destruct Hstep2 as [_ Hs]. subst s3.
    unfold modify in Hstep3. inversion Hstep3; subst. clear Hstep3.
    unfold ret in H. inversion H; subst. clear H.
    destruct a as [alpha gamma]. simpl in *.
    unfold schedule_at in Hag.
    destruct (nth_error sched t) as [ag |] eqn:E; [| discriminate].
    inversion Hag; subst.
    exists alpha, gamma, a0. repeat split.
    + apply (noisy_image_length _ _ _ _ Hnoisy).
    + intros p x n. now apply noisy_image_nth.
    + intros Hg p x Hx Hv Hn. subst gamma. eapply noisy_image_gamma_one; eauto.
  - intros Ht Hl Hmodel Hloss. unfold train_one_batch.
    destruct (nth_error_defined sched t Ht) as [ag Hag].
    rewrite (bind_step _ _ s ag s)
      by (unfold lift, schedule_at; now rewrite Hag).
    destruct (noisy_image_total (snd ag) gt_image noise Hl) as [noisy Hn].
    rewrite (bind_step _ _ s noisy s) by (unfold lift; now rewrite Hn).
    destruct (Hmodel cond_image noisy (snd ag) (model_state s)) as (out & ms' & Hm).
    erewrite bind_step; [| unfold call; rewrite Hm; reflexivity].
    destruct (Hloss noise out) as [l Hlo].
    erewrite bind_step; [| unfold lift; rewrite Hlo; reflexivity].
    eexists _, _. reflexivity.
Qed.

Lemma forward_corruption_witness :
  known_pixel_kept 1 two [one; two].
Proof.
  pose proof (forward_corruption unit identity_network first_pixel_loss
                (fun _ ms => ms) [(half, half); (one, one)] 1%nat
                [half; three] [one; two] [two; two] [true; true]
                (fresh tt)) as [Hshape Hret].
  destruct Hret as (loss & s' & Hrun).
  - simpl. lia.
  - reflexivity.
  - intros c x g ms. exists x, ms. reflexivity.
  - intros x y. eexists. reflexivity.
  - destruct (Hshape _ _ Hrun) as (alpha & gamma & noisy & Hsched & Hcalls & _ & _ & Hone).
    simpl in Hsched. inversion Hsched; subst alpha gamma.
    assert (Hnoisy : noisy = [one; two]).
    { unfold train_one_batch in Hrun. vm_compute in Hrun.
      inversion Hrun; subst s'. simpl in Hcalls. inversion Hcalls. reflexivity. }
    rewrite <- Hnoisy.
    apply (Hone eq_refl 1%nat two); try reflexivity.
    intros n Hn. simpl in Hn. inversion Hn. reflexivity.
Defined.

(** ** [train_single_epoch]: the local variables *)

Lemma py_mod_Ok a b : b <> 0 -> py_mod a b = Ok (a mod b).
Proof. intros H. unfold py_mod. apply Z.eqb_neq in H. now rewrite H. Qed.

Lemma py_mod_inv a b r : py_mod a b = Ok r -> b <> 0 /\ r = a mod b.
Proof.
  unfold py_mod. destruct (b =? 0) eqn:E; intros H; [discriminate |].
  apply Z.eqb_neq in E. inversion H. auto.
Qed.

(** An iteration that is not a logging iteration performs no effect. *)
Lemma train_iteration_silent E epoch L n loc i loss past :
  L <> 0 -> i mod L <> 0 ->
  train_iteration E epoch L n loc i loss past
  = (Ok {| running_loss := fadd (running_loss loc) loss;
           current_loss := loss; mean_loss := mean_loss loc |}, past).
Proof.
  intros HL Hi. unfold train_iteration.
  rewrite (bind_step _ _ past (i mod L) past)
    by (unfold lift; now rewrite py_mod_Ok).
  apply Z.eqb_neq in Hi. now rewrite Hi.
Qed.

Lemma train_loop_silent E epoch L n : forall losses loc i past,
  0 < i -> i + Z.of_nat (length losses) <= L ->
  exists loc',
    train_loop E epoch L n loc i losses past = (Ok loc', past) /\
    mean_loss loc' = mean_loss loc.
Proof.
  induction losses as [| loss losses IH]; intros loc i past Hi Hlen; simpl.
  - exists loc. split; reflexivity.
  - simpl length in Hlen. rewrite Nat2Z.inj_succ in Hlen.
    rewrite (bind_step _ _ past _ past
               (train_iteration_silent E epoch L n loc i loss past
                  ltac:(lia) ltac:(rewrite Z.mod_small; lia))).
    destruct (IH {| running_loss := fadd (running_loss loc) loss;
                    current_loss := loss; mean_loss := mean_loss loc |}
                 (i + 1) past) as (loc' & Hrun & Hmean); [lia | lia |].
    exists loc'. split; assumption.
Qed.

(** C10.  With fewer batches than [log_every], [train_single_epoch] performs
    no effect (no log line, no telemetry point) and raises at its [return],
    which reads the variable [mean_loss] that no iteration has assigned. *)
Theorem short_epoch_raises :
  forall (E : engine) (epoch_number log_every : Z) (losses : list float)
         (past : list event),
    Z.of_nat (length losses) < log_every ->
    train_single_epoch E epoch_number log_every losses past
    = (Raise (UnboundLocalError "mean_loss"), past).
Proof.
  intros E epoch L losses past Hlen. unfold train_single_epoch.
  destruct (train_loop_silent E epoch L (Z.of_nat (length losses)) losses
              {| running_loss := zero; current_loss := zero; mean_loss := None |}
              1 past) as (loc' & Hrun & Hmean); [lia | lia |].
  rewrite (bind_step _ _ _ _ _ Hrun). simpl in Hmean. now rewrite Hmean.
Qed.

Lemma short_epoch_raises_witness :
  train_single_epoch example_engine 1 100 [one; two; three] []
  = (Raise (UnboundLocalError "mean_loss"), []).
Proof.
  apply (short_epoch_raises example_engine 1 100 [one; two; three] []).
  simpl. lia.
Defined.

Lemma emit_Ok E e past u past' :
  emit E e past = (Ok u, past') -> past' = past ++ [e].
Proof.
  unfold emit. destruct (io_fails E past e); intros H; inversion H. reflexivity.
Qed.

Lemma emit_reliable E e past :
  (forall past e, io_fails E past e = false) ->
  emit E e past = (Ok tt, past ++ [e]).
Proof. intros H. unfold emit. now rewrite H. Qed.

Lemma log_scalar_reliable E series y x past :
  (forall past e, io_fails E past e = false) ->
  exists past', log_scalar E series y x past = (Ok tt, past').
Proof.
  intros H. unfold log_scalar. destruct (has_summary_writer E).
  - rewrite emit_reliable by assumption. eauto.
  - unfold ret. eauto.
Qed.

Lemma train_iteration_locals E epoch L n loc i loss past loc' past' :
  train_iteration E epoch L n loc i loss past = (Ok loc', past') ->
  L <> 0 /\ loc' = next_locals L loc i loss.
Proof.
  unfold train_iteration, next_locals. intros H. bind_ok H.
  apply lift_inv in Hstep. destruct Hstep as [Hmod _].
  apply py_mod_inv in Hmod. destruct Hmod as [HL Hr]. subst a.
  split; [exact HL |].
  destruct (i mod L =? 0).
  - bind_ok H. bind_ok H. bind_ok H. unfold ret in H. now inversion H.
  - unfold ret in H. now inversion H.
Qed.

Lemma train_loop_locals E epoch L n : forall losses loc i past loc' past',
  train_loop E epoch L n loc i losses past = (Ok loc', past') ->
  loc' = locals_after L loc i losses.
Proof.
  induction losses as [| loss losses IH]; intros loc i past loc' past' H;
    simpl in H.
  - unfold ret in H. now inversion H.
  - bind_ok H. apply train_iteration_locals in Hstep.
    destruct Hstep as [_ Hloc]. subst a. simpl. eapply IH; eauto.
Qed.

Lemma train_iteration_reliable E epoch L n loc i loss past :
  (forall past e, io_fails E past e = false) -> L <> 0 ->
  exists past',
    train_iteration E epoch L n loc i loss past
    = (Ok (next_locals L loc i loss), past').
Proof.
  intros Hio HL. unfold train_iteration, next_locals.
  rewrite (bind_step _ _ past (i mod L) past)
    by (unfold lift; now rewrite py_mod_Ok).
  destruct (i mod L =? 0).
  - erewrite bind_step by reflexivity.
    erewrite bind_step by (unfold write_log_line; now apply emit_reliable).
    match goal with
    | |- context [log_scalar E ?a ?b ?c] =>
        destruct (log_scalar_reliable E a b c
                    (past ++ [LogLine (TrainProgress epoch i
                       (learning_rate E (scheduler_steps past))
                       (fdiv (fadd (running_loss loc) loss) (of_Z L))) false]) Hio)
          as [past' Hs]
    end.
    erewrite bind_step by exact Hs. unfold ret. eauto.
  - unfold ret. eauto.
Qed.

Lemma train_loop_reliable E epoch L n :
  (forall past e, io_fails E past e = false) -> L <> 0 ->
  forall losses loc i past,
  exists past',
    train_loop E epoch L n loc i losses past
    = (Ok (locals_after L loc i losses), past').
Proof.
  intros Hio HL. induction losses as [| loss losses IH]; intros loc i past; simpl.
  - unfold ret. eauto.
  - destruct (train_iteration_reliable E epoch L n loc i loss past Hio HL)
      as [past1 H1].
    rewrite (bind_step _ _ _ _ _ H1). apply IH.
Qed.

Lemma locals_after_app L : forall a b loc i,
  locals_after L loc i (a ++ b)
  = locals_after L (locals_after L loc i a) (i + Z.of_nat (length a)) b.
Proof.
  induction a as [| x a IH]; intros b loc i.
  - simpl. now rewrite Z.add_0_r.
  - simpl app. simpl locals_after. rewrite IH. f_equal.
    simpl length. lia.
Qed.

(** Strictly inside a logging interval the running sum grows and the last
    mean is left alone. *)
Lemma locals_inside_interval L : 0 < L -> forall c loc i,
  c = [] \/ (0 < i mod L /\ i mod L + Z.of_nat (length c) <= L) ->
  running_loss (locals_after L loc i c) = fold_left fadd c (running_loss loc) /\
  mean_loss (locals_after L loc i c) = mean_loss loc.
Proof.
  intros HL. induction c as [| x c IH]; intros loc i Hc.
  - simpl. auto.
  - destruct Hc as [Hc | [Hi Hlen]]; [discriminate |].
    simpl length in Hlen. rewrite Nat2Z.inj_succ in Hlen.
    simpl locals_after.
    assert (Hne : (i mod L =? 0) = false) by (apply Z.eqb_neq; lia).
    assert (Hnext : next_locals L loc i x
                    = {| running_loss := fadd (running_loss loc) x;
                         current_loss := x; mean_loss := mean_loss loc |})
      by (unfold next_locals; now rewrite Hne).
    rewrite Hnext.
    destruct (IH {| running_loss := fadd (running_loss loc) x;
                    current_loss := x; mean_loss := mean_loss loc |} (i + 1))
      as [Hr Hm].
    { destruct c as [| y c]; [now left | right].
      simpl length in *. rewrite Nat2Z.inj_succ in *.
      rewrite <- Zplus_mod_idemp_l, Z.mod_small by lia. lia. }
    simpl in Hr, Hm. simpl. auto.
Qed.

Lemma boundary_next L i : 1 < L -> (i - 1) mod L = 0 -> i mod L = 1.
Proof.
  intros HL Hi. replace i with ((i - 1) + 1) by lia.
  rewrite <- Zplus_mod_idemp_l, Hi. apply Z.mod_small. lia.
Qed.

(** A complete logging interval that starts at a boundary ends with its mean
    assigned and the running sum reset. *)
Lemma locals_complete_interval L : 0 < L -> forall c0 x loc i,
  (i - 1) mod L = 0 -> Z.of_nat (length c0) + 1 = L ->
  locals_after L loc i (c0 ++ [x])
  = {| running_loss := zero; current_loss := x;
       mean_loss := Some (fdiv (fold_left fadd (c0 ++ [x]) (running_loss loc))
                               (of_Z L)) |}.
Proof.
  intros HL c0 x loc i Hi Hlen. rewrite locals_after_app.
  destruct (locals_inside_interval L HL c0 loc i) as [Hr _].
  { destruct c0 as [| y c0]; [now left | right].
    simpl length in *. rewrite Nat2Z.inj_succ in *.
    rewrite (boundary_next L i) by (lia || assumption). lia. }
  simpl locals_after. unfold next_locals.
  assert (Hb : ((i + Z.of_nat (length c0)) mod L =? 0) = true).
  { apply Z.eqb_eq. replace (i + Z.of_nat (length c0)) with ((i - 1) + 1 * L) by lia.
    now rewrite Z.mod_add by lia. }
  rewrite Hb, Hr, fold_left_app. reflexivity.
Qed.

Lemma split_last {A} (l : list A) n :
  length l = S n -> exists c0 x, l = c0 ++ [x] /\ length c0 = n.
Proof.
  intros H. destruct (@exists_last A l) as (c0 & x & Hl).
  { intros ->. discriminate. }
  exists c0, x. split; [exact Hl |].
  subst l. rewrite length_app in H. simpl in H. lia.
Qed.

(** After [k] complete intervals from a boundary. *)
Lemma locals_complete_intervals L : 0 < L -> forall k losses loc i,
  (i - 1) mod L = 0 -> running_loss loc = zero ->
  length losses = (k * Z.to_nat L)%nat ->
  running_loss (locals_after L loc i losses) = zero /\
  ((1 <= k)%nat ->
   mean_loss (locals_after L loc i losses)
   = Some (fdiv (fsum (skipn ((k - 1) * Z.to_nat L) losses)) (of_Z L))).
Proof.
  intros HL. induction k as [| k IH]; intros losses loc i Hi Hrun Hlen.
  - simpl in Hlen. apply length_zero_iff_nil in Hlen. subst losses.
    simpl. split; [assumption | lia].
  - set (Ln := Z.to_nat L) in *.
    assert (HLn : (1 <= Ln)%nat) by (unfold Ln; lia).
    rewrite <- (firstn_skipn Ln losses).
    assert (Hf : length (firstn Ln losses) = Ln).
    { rewrite length_firstn. simpl in Hlen. lia. }
    assert (Hs : length (skipn Ln losses) = (k * Ln)%nat).
    { rewrite length_skipn. simpl in Hlen. lia. }
    destruct (split_last (firstn Ln losses) (Ln - 1)) as (c0 & x & Hc & Hc0);
      [lia |].
    rewrite locals_after_app, Hc.
    rewrite (locals_complete_interval L HL c0 x loc i Hi)
      by (unfold Ln in Hc0; lia).
    rewrite <- Hc, Hf.
    match goal with
    | |- context [locals_after L ?l ?j (skipn Ln losses)] =>
        destruct (IH (skipn Ln losses) l j) as [Hr Hm]
    end.
    { replace (i + Z.of_nat Ln - 1) with ((i - 1) + 1 * L) by (unfold Ln; lia).
      now rewrite Z.mod_add by lia. }
    { reflexivity. }
    { exact Hs. }
    split; [exact Hr |]. intros _.
    destruct k as [| k].
    + simpl in Hs. apply length_zero_iff_nil in Hs. rewrite Hs.
      simpl locals_after. simpl mean_loss.
      rewrite app_nil_r. simpl skipn. rewrite Hrun. reflexivity.
    + rewrite Hm by lia. rewrite (firstn_skipn Ln losses).
      rewrite skipn_skipn. do 4 f_equal. lia.
Qed.

(** After a whole epoch of at least [log_every] batches. *)
Lemma locals_after_epoch L losses :
  0 < L -> L <= Z.of_nat (length losses) ->
  mean_loss (locals_after L
               {| running_loss := zero; current_loss := zero; mean_loss := None |}
               1 losses)
  = Some (fdiv (fsum (last_complete_interval (Z.to_nat L) losses)) (of_Z L)).
Proof.
  intros HL Hn. unfold last_complete_interval.
  set (Ln := Z.to_nat L). set (n := length losses) in *.
  set (k := (n / Ln)%nat).
  assert (HLn : (1 <= Ln)%nat) by (unfold Ln; lia).
  assert (Hk : (1 <= k)%nat).
  { unfold k. apply Nat.div_str_pos. unfold Ln. lia. }
  assert (Hle : (k * Ln <= n)%nat).
  { unfold k. rewrite Nat.mul_comm. apply Nat.Div0.mul_div_le. }
  assert (Hrem : (n - k * Ln < Ln)%nat).
  { pose proof (Nat.div_mod_eq n Ln) as Hd.
    pose proof (Nat.mod_upper_bound n Ln ltac:(lia)) as Hu.
    unfold k. rewrite (Nat.mul_comm (n / Ln) Ln). lia. }
  clearbody k.
  rewrite <- (firstn_skipn (k * Ln) losses) at 1.
  rewrite locals_after_app.
  assert (Hf : length (firstn (k * Ln) losses) = (k * Ln)%nat)
    by (rewrite length_firstn; fold n; lia).
  destruct (locals_complete_intervals L HL k (firstn (k * Ln) losses)
              {| running_loss := zero; current_loss := zero; mean_loss := None |}
              1) as [Hr Hm]; [reflexivity | reflexivity | exact Hf |].
  specialize (Hm Hk).
  match goal with
  | |- mean_loss (locals_after L ?l ?j ?t) = _ =>
      destruct (locals_inside_interval L HL t l j) as [_ Hm2]
  end.
  { assert (Ht : length (skipn (k * Ln) losses) = (n - k * Ln)%nat)
      by (rewrite length_skipn; reflexivity).
    destruct (skipn (k * Ln) losses) as [| y t]; [now left | right].
    rewrite Hf, Ht.
    assert (HL1 : 1 < L).
    { simpl length in Ht. assert (2 <= Ln)%nat by lia. unfold Ln in *. lia. }
    rewrite (boundary_next L (1 + Z.of_nat (k * Ln)) HL1).
    - unfold Ln in *. lia.
    - replace (1 + Z.of_nat (k * Ln) - 1) with (0 + Z.of_nat k * L)
        by (unfold Ln; lia).
      now rewrite Z.mod_add by lia. }
  rewrite Hm2, Hm. do 3 f_equal.
  rewrite firstn_skipn_comm. do 2 f_equal.
  destruct k as [| k']; [lia |]. simpl. rewrite Nat.sub_0_r. lia.
Qed.

(** C2 (as amended).  With a positive [log_every] and at least [log_every]
    batches, [train_single_epoch] returns the mean loss of the last complete
    logging interval: the sum of its [log_every] losses over [log_every]. *)
Theorem returns_last_logged_mean :
  forall (E : engine) (epoch_number log_every : Z) (losses : list float)
         (past : list event),
    0 < log_every ->
    log_every <= Z.of_nat (length losses) ->
    (forall r past',
        train_single_epoch E epoch_number log_every losses past = (Ok r, past') ->
        r = fdiv (fsum (last_complete_interval (Z.to_nat log_every) losses))
                 (of_Z log_every)) /\
    (reliable E ->
     exists past',
       train_single_epoch E epoch_number log_every losses past
       = (Ok (fdiv (fsum (last_complete_interval (Z.to_nat log_every) losses))
                   (of_Z log_every)), past')).
Proof.
  intros E epoch L losses past HL Hn.
  pose proof (locals_after_epoch L losses HL Hn) as Hmean.
  split.
  - intros r past' H. unfold train_single_epoch in H. bind_ok H.
    apply train_loop_locals in Hstep. subst a. rewrite Hmean in H.
    unfold ret in H. now inversion H.
  - intros Hio. unfold train_single_epoch.
    destruct (train_loop_reliable E epoch L (Z.of_nat (length losses)) Hio
                ltac:(lia) losses
                {| running_loss := zero; current_loss := zero; mean_loss := None |}
                1 past) as [past' Hrun].
    rewrite (bind_step _ _ _ _ _ Hrun), Hmean. unfold ret. eauto.
Qed.

Lemma returns_last_logged_mean_witness :
  exists past',
    train_single_epoch example_engine 1 2 [one; two; three] []
    = (Ok (fdiv (fsum [one; two]) two), past').
Proof.
  exact (proj2 (returns_last_logged_mean example_engine 1 2 [one; two; three] []
                  eq_refl ltac:(simpl; lia))
               (fun _ _ => eq_refl)).
Defined.

(** C2 (as stated) fails: with three batches of losses 1, 2, 3 and
    [log_every = 2] the value returned is 1.5, the mean of the first two,
    and not 3, the mean of the final, partial interval. *)
Lemma partial_interval_counterexample :
  fst (train_single_epoch example_engine 1 2 [one; two; three] [])
    = Ok (S754_finite false 12582912 (-23)) /\
  trailing_interval 2 [one; two; three] = [three] /\
  mean [three] = three /\
  S754_finite false 12582912 (-23) <> three.
Proof. repeat split; try reflexivity. discriminate. Qed.

(** ** Which events a computation may append *)

Section Emits.

Variable P : event -> Prop.

Lemma emits_ret {A} (a : A) : emits_only P (ret a).
Proof. intros past r past' H. inversion H. exists []. now rewrite app_nil_r. Qed.

Lemma emits_raise {A} e : emits_only P (@raise _ A e).
Proof. intros past r past' H. inversion H. exists []. now rewrite app_nil_r. Qed.

Lemma emits_lift {A} (r0 : result A) : emits_only P (lift r0).
Proof. intros past r past' H. inversion H. exists []. now rewrite app_nil_r. Qed.

Lemma emits_gets {A} (f : list event -> A) : emits_only P (gets f).
Proof. intros past r past' H. inversion H. exists []. now rewrite app_nil_r. Qed.

Lemma emits_emit E e : P e -> emits_only P (emit E e).
Proof.
  intros He past r past' H. unfold emit in H.
  destruct (io_fails E past e); inversion H; subst.
  - exists []. now rewrite app_nil_r.
  - exists [e]. auto.
Qed.

Lemma emits_bind {A B} (m : M (list event) A) (k : A -> M (list event) B) :
  emits_only P m -> (forall a, emits_only P (k a)) -> emits_only P (bind m k).
Proof.
  intros Hm Hk past r past' H.
  destruct (bind_inv _ _ _ _ _ H) as [(a & s1 & H1 & H2) | (e & H1 & _)].
  - destruct (Hm _ _ _ H1) as (n1 & -> & F1).
    destruct (Hk a _ _ _ H2) as (n2 & -> & F2).
    exists (n1 ++ n2). rewrite app_assoc. split; [reflexivity |].
    apply Forall_app. auto.
  - exact (Hm _ _ _ H1).
Qed.

Lemma phase_ret {A} (a : A) : phase_emits P (ret a).
Proof.
  intros s r s' H. inversion H. split; [reflexivity |].
  exists []. now rewrite app_nil_r.
Qed.

Lemma phase_lift {A} (r0 : result A) : phase_emits P (lift r0).
Proof.
  intros s r s' H. inversion H. split; [reflexivity |].
  exists []. now rewrite app_nil_r.
Qed.

Lemma phase_gets {A} (f : run_state -> A) : phase_emits P (gets f).
Proof.
  intros s r s' H. inversion H. split; [reflexivity |].
  exists []. now rewrite app_nil_r.
Qed.

Lemma phase_set_best rms : phase_emits P (set_best rms).
Proof.
  intros s r s' H. inversion H. split; [reflexivity |].
  exists []. simpl. now rewrite app_nil_r.
Qed.

Lemma phase_on_trace {A} (m : M (list event) A) :
  emits_only P m -> phase_emits P (on_trace m).
Proof.
  intros Hm s r s' H. unfold on_trace in H.
  destruct (m (trace s)) as [r1 past1] eqn:E. inversion H; subst. simpl.
  split; [reflexivity |]. exact (Hm _ _ _ E).
Qed.

Lemma phase_bind {A B} (m : M run_state A) (k : A -> M run_state B) :
  phase_emits P m -> (forall a, phase_emits P (k a)) -> phase_emits P (bind m k).
Proof.
  intros Hm Hk s r s' H.
  destruct (bind_inv _ _ _ _ _ H) as [(a & s1 & H1 & H2) | (e & H1 & _)].
  - destruct (Hm _ _ _ H1) as (E1 & n1 & T1 & F1).
    destruct (Hk a _ _ _ H2) as (E2 & n2 & T2 & F2).
    split; [congruence |].
    exists (n1 ++ n2). rewrite T2, T1, app_assoc. split; [reflexivity |].
    apply Forall_app. auto.
  - exact (Hm _ _ _ H1).
Qed.

(** *** The sinks and the drivers *)

Hypothesis P_log : forall line also_print, P (LogLine line also_print).

Lemma emits_write_log_line E line also_print :
  emits_only P (write_log_line E line also_print).
Proof. apply emits_emit, P_log. Qed.

Lemma emits_log_scalar E series y x :
  P (AddScalar series y x) -> emits_only P (log_scalar E series y x).
Proof.
  intros H. unfold log_scalar. destruct (has_summary_writer E).
  - now apply emits_emit.
  - apply emits_ret.
Qed.

Lemma emits_train_iteration E epoch L n loc i loss :
  (forall y, P (AddScalar (train_series E) y ((epoch - 1) * n + i))) ->
  emits_only P (train_iteration E epoch L n loc i loss).
Proof.
  intros Hs. unfold train_iteration.
  apply emits_bind; [apply emits_lift | intros r].
  destruct (r =? 0); [| apply emits_ret].
  apply emits_bind; [apply emits_gets | intros lr].
  apply emits_bind; [apply emits_write_log_line | intros _].
  apply emits_bind; [apply emits_log_scalar, Hs | intros _].
  apply emits_ret.
Qed.

Lemma emits_train_loop E epoch L n : forall losses loc i,
  (forall y j, i <= j < i + Z.of_nat (length losses) ->
               P (AddScalar (train_series E) y ((epoch - 1) * n + j))) ->
  emits_only P (train_loop E epoch L n loc i losses).
Proof.
  induction losses as [| loss losses IH]; intros loc i Hs; simpl.
  - apply emits_ret.
  - simpl length in Hs. rewrite Nat2Z.inj_succ in Hs.
    apply emits_bind.
    + apply emits_train_iteration. intros y. apply Hs. lia.
    + intros loc'. apply IH. intros y j Hj. apply Hs. lia.
Qed.

Lemma emits_train_single_epoch E epoch L losses :
  (forall y j, 1 <= j <= Z.of_nat (length losses) ->
     P (AddScalar (train_series E) y ((epoch - 1) * Z.of_nat (length losses) + j))) ->
  emits_only P (train_single_epoch E epoch L losses).
Proof.
  intros Hs. unfold train_single_epoch.
  apply emits_bind.
  - apply emits_train_loop. intros y j Hj. apply Hs. lia.
  - intros loc. destruct (mean_loss loc); [apply emits_ret | apply emits_raise].
Qed.

Hypothesis P_visuals : forall series index, P (LogVisuals series index).

Lemma emits_evaluate_single_epoch E epoch :
  emits_only P (evaluate_single_epoch E epoch).
Proof.
  unfold evaluate_single_epoch.
  apply emits_bind; [apply emits_lift | intros looped].
  destruct (snd looped); [| apply emits_raise].
  apply emits_bind; [apply emits_lift | intros pairs].
  apply emits_bind; [apply emits_emit, P_visuals | intros _].
  apply emits_ret.
Qed.

Hypothesis P_evaluation :
  forall name y x, P (AddScalar (String.append "Evaluation/" name) y x).

Lemma emits_log_metric_scalars E epoch means :
  emits_only P (log_metric_scalars E epoch means).
Proof.
  induction means as [| [name value] means IH]; simpl.
  - apply emits_ret.
  - apply emits_bind; [apply emits_log_scalar, P_evaluation | intros _].
    exact IH.
Qed.

Lemma phase_evaluation_report E : phase_emits P (evaluation_report E).
Proof.
  unfold evaluation_report.
  apply phase_bind; [apply phase_gets | intros epoch].
  apply phase_bind; [apply phase_on_trace, emits_write_log_line | intros _].
  apply phase_bind; [apply phase_on_trace, emits_evaluate_single_epoch | intros means].
  apply phase_bind; [apply phase_on_trace, emits_write_log_line | intros _].
  apply phase_bind; [apply phase_on_trace, emits_write_log_line | intros _].
  apply phase_bind; [apply phase_on_trace, emits_write_log_line | intros _].
  apply phase_bind; [apply phase_on_trace, emits_log_metric_scalars | intros _].
  apply phase_bind.
  { apply phase_on_trace, emits_log_scalar.
    exact (P_evaluation "All_Metrics_RMS" _ _). }
  intros _. apply phase_ret.
Qed.

Hypothesis P_save : forall epoch best, P (SaveModel epoch best).

Lemma phase_record_best E rms : phase_emits P (record_best E rms).
Proof.
  unfold record_best.
  apply phase_bind; [apply phase_gets | intros epoch].
  apply phase_bind; [apply phase_gets | intros before].
  apply phase_bind.
  { destruct before; [apply phase_ret | apply phase_set_best]. }
  intros _. destruct (fleb rms _); [| apply phase_ret].
  apply phase_bind; [apply phase_on_trace, emits_write_log_line | intros _].
  apply phase_bind; [apply phase_set_best | intros _].
  apply phase_bind; [apply phase_on_trace, emits_write_log_line | intros _].
  apply phase_bind; [apply phase_on_trace, emits_emit, P_save | intros _].
  apply phase_ret.
Qed.

Lemma phase_evaluating E : phase_emits P (evaluating_phase E).
Proof.
  unfold evaluating_phase.
  apply phase_bind; [apply phase_evaluation_report | intros rms].
  apply phase_record_best.
Qed.

Lemma phase_saving E saved : phase_emits P (saving_phase E saved).
Proof.
  unfold saving_phase.
  apply phase_bind; [apply phase_gets | intros epoch].
  apply phase_bind; [apply phase_on_trace, emits_write_log_line | intros _].
  destruct saved.
  - apply phase_on_trace, emits_write_log_line.
  - apply phase_bind; [apply phase_on_trace, emits_write_log_line | intros _].
    apply phase_bind; [apply phase_on_trace, emits_emit, P_save | intros _].
    apply phase_on_trace, emits_write_log_line.
Qed.

End Emits.

(** ** C4: the comparison with the best value *)

Lemma on_trace_emit_Ok E e s u s' :
  on_trace (emit E e) s = (Ok u, s') -> s' = with_trace s (trace s ++ [e]).
Proof.
  unfold on_trace. destruct (emit E e (trace s)) as [r past] eqn:He.
  intros H. inversion H; subst. apply emit_Ok in He. now subst.
Qed.

Lemma on_trace_emit_reliable E e s :
  (forall past e, io_fails E past e = false) ->
  on_trace (emit E e) s = (Ok tt, with_trace s (trace s ++ [e])).
Proof. intros H. unfold on_trace. now rewrite emit_reliable. Qed.

Lemma on_trace_best {A} (m : M (list event) A) s r s' :
  on_trace m s = (r, s') ->
  best_rms_metrics s' = best_rms_metrics s /\ epoch_number s' = epoch_number s.
Proof.
  unfold on_trace. destruct (m (trace s)). intros H. inversion H. auto.
Qed.

Lemma fleb_of_feqb x y : feqb x y = true -> fleb x y = true.
Proof.
  unfold feqb, fleb, SFeqb, SFleb.
  destruct (SFcompare x y) as [[| |] |]; intros H; try discriminate; reflexivity.
Qed.

Lemma record_best_Ok E rms s saved s' :
  record_best E rms s = (Ok saved, s') ->
  saved = fleb rms (reference rms s) /\
  s' = {| epoch_number := epoch_number s;
          best_rms_metrics := Some (if saved then rms else reference rms s);
          trace := trace s ++ (if saved then best_lines (epoch_number s) else []) |}.
Proof.
  unfold record_best, reference. intros H.
  apply bind_Ok in H. destruct H as (epoch & s0 & H0 & H).
  inversion H0; subst epoch s0. clear H0.
  apply bind_Ok in H. destruct H as (before & s0 & H0 & H).
  inversion H0; subst before s0. clear H0.
  apply bind_Ok in H. destruct H as (u & s1 & H1 & H).
  assert (Hs1 : s1 = {| epoch_number := epoch_number s;
                        best_rms_metrics :=
                          Some (match best_rms_metrics s with
                                | None => rms | Some b => b end);
                        trace := trace s |}).
  { destruct s as [en [b |] tr]; simpl in *; inversion H1; reflexivity. }
  clear H1. subst s1.
  destruct (fleb rms _) eqn:Hle.
  - bind_ok H. apply on_trace_emit_Ok in Hstep. subst s0.
    bind_ok H. inversion Hstep; subst a0 s0. clear Hstep.
    bind_ok H. apply on_trace_emit_Ok in Hstep. subst s0.
    bind_ok H. apply on_trace_emit_Ok in Hstep. subst s0.
    inversion H; subst. split; [reflexivity |].
    unfold with_trace, best_lines. simpl. rewrite <- !app_assoc. reflexivity.
  - inversion H; subst. split; [reflexivity |]. simpl. now rewrite app_nil_r.
Qed.

Lemma record_best_reliable E rms s :
  (forall past e, io_fails E past e = false) ->
  exists s', record_best E rms s = (Ok (fleb rms (reference rms s)), s').
Proof.
  intros Hio. unfold record_best, reference.
  erewrite bind_step by reflexivity.
  erewrite bind_step by reflexivity.
  assert (Hset : exists s1,
    (match best_rms_metrics s with
     | None => set_best rms | Some _ => ret tt end) s = (Ok tt, s1)).
  { destruct (best_rms_metrics s); eexists; reflexivity. }
  destruct Hset as [s1 Hset]. rewrite (bind_step _ _ _ _ _ Hset).
  destruct (fleb rms _); [| eexists; reflexivity].
  erewrite bind_step by (unfold write_log_line; now apply on_trace_emit_reliable).
  erewrite bind_step by reflexivity.
  erewrite bind_step by (unfold write_log_line; now apply on_trace_emit_reliable).
  erewrite bind_step by (unfold save; now apply on_trace_emit_reliable).
  eexists. reflexivity.
Qed.

(** The first evaluation: whatever happens next, the value has become the
    best. *)
Lemma record_best_first E rms s r s' :
  best_rms_metrics s = None ->
  record_best E rms s = (r, s') -> best_rms_metrics s' = Some rms.
Proof.
  intros Hnone H. unfold record_best in H.
  apply bind_inv in H. destruct H as [(epoch & s0 & H0 & H) | (e & H0 & _)];
    [| discriminate].
  inversion H0; subst epoch s0. clear H0.
  apply bind_inv in H. destruct H as [(before & s0 & H0 & H) | (e & H0 & _)];
    [| discriminate].
  inversion H0; subst before s0. clear H0.
  rewrite Hnone in H.
  apply bind_inv in H. destruct H as [(u & s1 & H1 & H) | (e & H0 & _)];
    [| discriminate].
  inversion H1; subst u s1. clear H1.
  destruct (fleb rms rms); [| inversion H; reflexivity].
  apply bind_inv in H. destruct H as [(u & s1 & H1 & H) | (e & H1 & _)];
    [| apply on_trace_best in H1; destruct H1 as [H1 _]; now rewrite H1].
  apply on_trace_best in H1. destruct H1 as [B1 _].
  apply bind_inv in H. destruct H as [(u2 & s2 & H2 & H) | (e & H2 & _)];
    [| discriminate].
  inversion H2; subst u2 s2. clear H2.
  apply bind_inv in H. destruct H as [(u3 & s3 & H3 & H) | (e & H3 & _)];
    [| apply on_trace_best in H3; destruct H3 as [H3 _]; now rewrite H3].
  apply on_trace_best in H3. destruct H3 as [B3 _].
  apply bind_inv in H. destruct H as [(u4 & s4 & H4 & H) | (e & H4 & _)];
    [| apply on_trace_best in H4; destruct H4 as [H4 _]; now rewrite H4, B3].
  apply on_trace_best in H4. destruct H4 as [B4 _].
  inversion H; subst. now rewrite B4, B3.
Qed.

(** C4.  A value equal to the best so far passes the comparison
    [new_rms <= best_rms]; the value of the first evaluation becomes the best
    whatever happens next; and a call of lines 228-234 that returns has set
    [saved] exactly when the comparison holds, in which case it has written
    the weights once, under the best designation, and recorded the value as
    the best; with sinks that do not fail it returns. *)
Theorem best_epoch_tie_policy :
  forall (E : engine) (rms : float) (s : run_state),
    (forall b, best_rms_metrics s = Some b -> feqb rms b = true ->
               fleb rms (reference rms s) = true) /\
    (best_rms_metrics s = None ->
     forall r s', record_best E rms s = (r, s') -> best_rms_metrics s' = Some rms) /\
    (forall saved s',
        record_best E rms s = (Ok saved, s') ->
        saved = fleb rms (reference rms s) /\
        (saved = true ->
         best_rms_metrics s' = Some rms /\
         trace s' = trace s ++ best_lines (epoch_number s) /\
         saves (best_lines (epoch_number s)) = [SaveModel (epoch_number s) true])) /\
    (reliable E ->
     exists s', record_best E rms s = (Ok (fleb rms (reference rms s)), s')).
Proof.
  intros E rms s. split; [| split; [| split]].
  - intros b Hb Heq. unfold reference. rewrite Hb. now apply fleb_of_feqb.
  - intros Hnone r s' H. eapply record_best_first; eauto.
  - intros saved s' H. apply record_best_Ok in H. destruct H as [Hsaved Hs'].
    split; [exact Hsaved |]. intros Htrue. subst s'. rewrite Htrue. simpl.
    repeat split.
  - intros Hio. now apply record_best_reliable.
Qed.

(** The tie of the spec: the best so far is 0.5 and the new value is 0.5. *)
Lemma best_epoch_tie_policy_witness :
  exists s',
    record_best example_engine half
      {| epoch_number := 2; best_rms_metrics := Some half; trace := [] |}
    = (Ok true, s') /\
    best_rms_metrics s' = Some half /\
    trace s' = best_lines 2.
Proof.
  destruct (best_epoch_tie_policy example_engine half
              {| epoch_number := 2; best_rms_metrics := Some half; trace := [] |})
    as (Htie & _ & Hret & Hrun).
  destruct (Hrun (fun _ _ => eq_refl)) as [s' Hs'].
  rewrite (Htie half eq_refl eq_refl) in Hs'.
  exists s'. split; [exact Hs' |].
  destruct (Hret true s' Hs') as [_ Hsaved].
  destruct (Hsaved eq_refl) as (Hb & Ht & _). auto.
Defined.

(** ** Computations that return *)

Lemma returns_ret {S A} (a : A) : returns (@ret S A a).
Proof. intros s. eexists _, _. reflexivity. Qed.

Lemma returns_gets {S A} (f : S -> A) : returns (gets f).
Proof. intros s. eexists _, _. reflexivity. Qed.

Lemma returns_modify {S} (f : S -> S) : returns (modify f).
Proof. intros s. eexists _, _. reflexivity. Qed.

Lemma returns_lift {S A} (a : A) : returns (@lift S A (Ok a)).
Proof. intros s. eexists _, _. reflexivity. Qed.

Lemma returns_bind {S A B} (m : M S A) (k : A -> M S B) :
  returns m -> (forall a, returns (k a)) -> returns (bind m k).
Proof.
  intros Hm Hk s. destruct (Hm s) as (a & s1 & H1).
  destruct (Hk a s1) as (b & s2 & H2).
  exists b, s2. now rewrite (bind_step _ _ _ _ _ H1).
Qed.

Lemma returns_on_trace {A} (m : M (list event) A) :
  returns m -> returns (on_trace m).
Proof.
  intros Hm s. destruct (Hm (trace s)) as (a & past & H).
  unfold on_trace. rewrite H. eexists _, _. reflexivity.
Qed.

Section Reliable.

Variable E : engine.
Hypothesis sinks : reliable E.

Lemma returns_emit e : returns (emit E e).
Proof. intros past. rewrite (emit_reliable E e past sinks). eauto. Qed.

Lemma returns_write_log_line line also_print :
  returns (write_log_line E line also_print).
Proof. apply returns_emit. Qed.

Lemma returns_log_scalar series y x : returns (log_scalar E series y x).
Proof.
  unfold log_scalar. destruct (has_summary_writer E);
    [apply returns_emit | apply returns_ret].
Qed.

Lemma returns_log_metric_scalars epoch means :
  returns (log_metric_scalars E epoch means).
Proof.
  induction means as [| [name value] means IH]; simpl.
  - apply returns_ret.
  - apply returns_bind; [apply returns_log_scalar | intros _; exact IH].
Qed.

Lemma returns_train_single_epoch epoch L losses :
  0 < L -> L <= Z.of_nat (length losses) ->
  returns (train_single_epoch E epoch L losses).
Proof.
  intros HL Hn past. unfold train_single_epoch.
  destruct (train_loop_reliable E epoch L (Z.of_nat (length losses)) sinks
              ltac:(lia) losses
              {| running_loss := zero; current_loss := zero; mean_loss := None |}
              1 past) as [past' Hrun].
  rewrite (bind_step _ _ _ _ _ Hrun), (locals_after_epoch L losses HL Hn).
  eexists _, _. reflexivity.
Qed.

Lemma returns_record_best rms : returns (record_best E rms).
Proof.
  intros s. destruct (record_best_reliable E rms s sinks) as [s' H]. eauto.
Qed.

Lemma returns_saving_phase saved : returns (saving_phase E saved).
Proof.
  unfold saving_phase.
  apply returns_bind; [apply returns_gets | intros epoch].
  apply returns_bind; [apply returns_on_trace, returns_write_log_line | intros _].
  destruct saved.
  - apply returns_on_trace, returns_write_log_line.
  - apply returns_bind; [apply returns_on_trace, returns_write_log_line | intros _].
    apply returns_bind; [apply returns_on_trace, returns_emit | intros _].
    apply returns_on_trace, returns_write_log_line.
Qed.

Lemma returns_advance : returns (advance E).
Proof.
  unfold advance. apply returns_bind; [apply returns_modify | intros _].
  apply returns_on_trace, returns_emit.
Qed.

End Reliable.

(** *** The dictionaries of the evaluation *)

Lemma od_keys_set {V} (d : odict V) key v k :
  In k (od_keys (od_set d key v)) <-> k = key \/ In k (od_keys d).
Proof.
  unfold od_keys. induction d as [| [k0 v0] d IH]; simpl.
  - intuition.
  - destruct (String.eqb k0 key) eqn:E; simpl.
    + apply String.eqb_eq in E. subst k0. intuition.
    + rewrite IH. intuition.
Qed.

Lemma od_keys_of_pairs {V} (pairs : list (string * V)) k :
  In k (od_keys (od_of_pairs pairs)) <-> In k (map fst pairs).
Proof.
  unfold od_of_pairs.
  assert (G : forall d : odict V,
             In k (od_keys (fold_left (fun d kv => od_set d (fst kv) (snd kv)) pairs d))
             <-> In k (od_keys d) \/ In k (map fst pairs)).
  { induction pairs as [| [k0 v0] pairs IH]; intros d; simpl.
    - intuition.
    - rewrite IH, od_keys_set. simpl. intuition. }
  rewrite G. simpl. intuition.
Qed.

Lemma od_get_key {V} (d : odict V) k :
  In k (od_keys d) -> exists v, od_get d k = Some v.
Proof.
  unfold od_keys. induction d as [| [k0 v0] d IH]; simpl; [intros [] |].
  intros [H | H].
  - subst k0. rewrite String.eqb_refl. eauto.
  - destruct (String.eqb k0 k); eauto.
Qed.

Lemma od_extend_key all key vals :
  In key (od_keys all) ->
  exists all', od_extend all key vals = Ok all' /\
               forall k, In k (od_keys all') <-> In k (od_keys all).
Proof.
  intros H. unfold od_extend. destruct (od_get_key all key H) as [old Hold].
  rewrite Hold. eexists. split; [reflexivity |].
  intros k. rewrite od_keys_set. intuition. now subst.
Qed.

Lemma extend_all_keys metric_results : forall all,
  (forall k, In k (od_keys metric_results) -> In k (od_keys all)) ->
  exists all', extend_all all metric_results = Ok all' /\
               forall k, In k (od_keys all') <-> In k (od_keys all).
Proof.
  induction metric_results as [| [key vals] rest IH]; intros all Hk; simpl.
  - exists all. split; [reflexivity | intuition].
  - destruct (od_extend_key all key vals) as (all1 & H1 & K1).
    { apply Hk. now left. }
    rewrite H1. simpl.
    destruct (IH all1) as (all2 & H2 & K2).
    { intros k Hin. apply K1, Hk. now right. }
    exists all2. split; [exact H2 |]. intros k. now rewrite K2, K1.
Qed.

Lemma reduce_metrics_keys all keys :
  (forall k, In k keys -> In k (od_keys all)) ->
  exists pairs, reduce_metrics all keys = Ok pairs.
Proof.
  induction keys as [| key keys IH]; intros Hk; simpl.
  - eauto.
  - destruct (od_get_key all key) as [results Hr]; [apply Hk; now left |].
    rewrite Hr. destruct IH as [rest Hrest]; [intros k Hin; apply Hk; now right |].
    rewrite Hrest. simpl. eauto.
Qed.

Lemma evaluate_one_batch_keys E epoch b k :
  In k (od_keys (evaluate_one_batch E epoch b))
  <-> In k (map metric_name (evaluation_metrics E)).
Proof.
  unfold evaluate_one_batch. rewrite od_keys_of_pairs, map_map. reflexivity.
Qed.

Lemma evaluation_loop_keys E epoch : forall batches all last,
  (forall k, In k (od_keys all) <-> In k (map metric_name (evaluation_metrics E))) ->
  exists all' last',
    evaluation_loop E epoch all last batches = Ok (all', last') /\
    (forall k, In k (od_keys all') <-> In k (map metric_name (evaluation_metrics E))) /\
    match batches with
    | [] => last' = last
    | _ :: _ => exists b, last' = Some (evaluate_one_batch E epoch b)
    end.
Proof.
  induction batches as [| b batches IH]; intros all last Hk; simpl.
  - exists all, last. auto.
  - destruct (extend_all_keys (evaluate_one_batch E epoch b) all) as (all1 & H1 & K1).
    { intros k Hin. apply Hk. now apply evaluate_one_batch_keys in Hin. }
    rewrite H1. simpl.
    destruct (IH all1 (Some (evaluate_one_batch E epoch b))) as (all2 & last2 & H2 & K2 & L2).
    { intros k. now rewrite K1. }
    exists all2, last2. split; [exact H2 | split; [exact K2 |]].
    destruct batches; [subst; eauto | exact L2].
Qed.

(** With sinks that do not fail and at least one batch,
    [evaluate_single_epoch] returns. *)
Lemma returns_evaluate_single_epoch E epoch :
  reliable E -> (1 <= evaluation_batches E epoch)%nat ->
  returns (evaluate_single_epoch E epoch).
Proof.
  intros Hio Hb past. unfold evaluate_single_epoch.
  destruct (evaluation_loop_keys E epoch (seq 0 (evaluation_batches E epoch))
              (od_of_pairs (map (fun m => (metric_name m, @nil float)) (evaluation_metrics E)))
              None) as (all & last & Hloop & K & L).
  { intros k. rewrite od_keys_of_pairs, map_map. reflexivity. }
  rewrite (bind_step _ _ past (all, last) past) by (unfold lift; now rewrite Hloop).
  destruct (evaluation_batches E epoch) as [| n]; [lia |].
  simpl in L. destruct L as [b ->]. simpl.
  destruct (reduce_metrics_keys all (map fst (evaluate_one_batch E epoch b))) as [pairs Hp].
  { intros k Hin. apply K. exact (proj1 (evaluate_one_batch_keys E epoch b k) Hin). }
  rewrite (bind_step _ _ past pairs past) by (unfold lift; now rewrite Hp).
  unfold log_visuals. rewrite (bind_step _ _ _ _ _ (emit_reliable E _ past Hio)).
  eexists _, _. reflexivity.
Qed.

Lemma returns_evaluating_phase E :
  reliable E -> (forall epoch, 1 <= evaluation_batches E epoch)%nat ->
  returns (evaluating_phase E).
Proof.
  intros Hio Hb. unfold evaluating_phase, evaluation_report.
  apply returns_bind; [| intros rms; now apply returns_record_best].
  apply returns_bind; [apply returns_gets | intros epoch].
  apply returns_bind;
    [apply returns_on_trace; now apply returns_write_log_line | intros _].
  apply returns_bind;
    [apply returns_on_trace; now apply returns_evaluate_single_epoch | intros means].
  apply returns_bind;
    [apply returns_on_trace; now apply returns_write_log_line | intros _].
  apply returns_bind;
    [apply returns_on_trace; now apply returns_write_log_line | intros _].
  apply returns_bind;
    [apply returns_on_trace; now apply returns_write_log_line | intros _].
  apply returns_bind;
    [apply returns_on_trace; now apply returns_log_metric_scalars | intros _].
  apply returns_bind;
    [apply returns_on_trace; now apply returns_log_scalar | intros _].
  apply returns_ret.
Qed.

(** An iteration of the loop completes when no sink fails, every training
    epoch has at least [log_every] batches, every evaluation has a batch, and
    the two periods are not zero. *)
Lemma returns_epoch_body E L ev sv :
  reliable E ->
  0 < L -> (forall epoch, L <= Z.of_nat (length (batch_losses E epoch))) ->
  (forall epoch, 1 <= evaluation_batches E epoch)%nat ->
  ev <> 0 -> sv <> 0 ->
  returns (epoch_body E L ev sv).
Proof.
  intros Hio HL Hn Hb Hev Hsv. unfold epoch_body, after_training, training_phase.
  apply returns_bind.
  { apply returns_bind; [apply returns_gets | intros epoch].
    apply returns_bind;
      [apply returns_on_trace; now apply returns_write_log_line | intros _].
    apply returns_bind;
      [apply returns_on_trace; now apply returns_write_log_line | intros _].
    apply returns_bind; [| intros _; apply returns_ret].
    apply returns_on_trace. now apply returns_train_single_epoch. }
  intros _. apply returns_bind; [apply returns_gets | intros epoch].
  rewrite (py_mod_Ok epoch ev Hev).
  apply returns_bind; [apply returns_lift | intros r_eval].
  apply returns_bind.
  { destruct (r_eval =? 0); [now apply returns_evaluating_phase | apply returns_ret]. }
  intros saved. rewrite (py_mod_Ok epoch sv Hsv).
  apply returns_bind; [apply returns_lift | intros r_save].
  apply returns_bind.
  { destruct (r_save =? 0); [now apply returns_saving_phase | apply returns_ret]. }
  intros _. now apply returns_advance.
Qed.

(** ** C6: the reduction of the metric accumulators *)

Lemma same_value_refl x : same_value x x.
Proof. now left. Qed.





Lemma np_divide_same_value a a' c :
  same_value a a' -> same_value (np_divide a c) (np_divide a' c).
Proof.
  intros [H | [H H']]; [subst; apply same_value_refl |].
  destruct a as [s | | |]; try discriminate.
  destruct a' as [s' | | |]; try discriminate.
  unfold np_divide.
  destruct (binary_normalize 53 1024 c 0 false) as [sc | sc | | sc m e];
    try apply same_value_refl; right; split; reflexivity.
Qed.

Lemma np_divide_nan c : np_divide nan c = nan.
Proof.
  unfold np_divide. now destruct (binary_normalize 53 1024 c 0 false).
Qed.


(** *** numpy's summation *)

(** Fewer than eight entries are added one after the other. *)
Lemma block_sum_short a :
  (length a < 8)%nat -> block_sum a = fold_left fadd a zero.
Proof.
  intros H.
  do 8 (destruct a as [| ? a]; [reflexivity |]).
  simpl in H. lia.
Qed.








Lemma in_cut {A} (x : A) n a :
  In x a <-> In x (firstn n a) \/ In x (skipn n a).
Proof. rewrite <- in_app_iff, firstn_skipn. reflexivity. Qed.



(** A NaN among the entries makes the sum NaN. *)
Lemma fadd_nan_any a b : a = nan \/ b = nan -> fadd a b = nan.
Proof. intros [-> | ->]; [reflexivity | now destruct a]. Qed.

Lemma unrolled_nan : forall g r a r' rest,
  nan_among r \/ In nan a ->
  unrolled g r a = (r', rest) ->
  nan_among r' \/ In nan rest.
Proof.
  induction g as [| g IH]; intros r a r' rest Hn H; simpl in H.
  - inversion H; subst. exact Hn.
  - do 8 (destruct a as [| ? a]; [inversion H; subst; exact Hn |]).
    destruct r as [[[[[[[r0 r1] r2] r3] r4] r5] r6] r7].
    eapply IH; [| exact H].
    unfold nan_among in *. simpl in Hn |- *.
    assert (K : forall a b, a = nan \/ b = nan -> nan = fadd a b)
      by (intros; symmetry; now apply fadd_nan_any).
    intuition (subst; auto 20 using fadd_nan_any).
Qed.

Lemma fold_nan_acc xs : fold_left fadd xs nan = nan.
Proof. induction xs as [| x xs IH]; simpl; [reflexivity | exact IH]. Qed.

Lemma fold_with_nan xs : forall a, In nan xs -> fold_left fadd xs a = nan.
Proof.
  induction xs as [| x xs IH]; intros a Hin; [destruct Hin |].
  simpl. destruct Hin as [-> | Hin].
  - rewrite (fadd_nan_any a nan) by now right. apply fold_nan_acc.
  - now apply IH.
Qed.

Ltac nan_tree :=
  first [ assumption
        | apply fadd_nan_any; first [left; nan_tree | right; nan_tree] ].

Lemma tree_nan r0 r1 r2 r3 r4 r5 r6 r7 :
  nan_among (r0, r1, r2, r3, r4, r5, r6, r7) ->
  fadd (fadd (fadd r0 r1) (fadd r2 r3)) (fadd (fadd r4 r5) (fadd r6 r7)) = nan.
Proof.
  unfold nan_among. simpl. intros H.
  repeat (destruct H as [H | H]; [nan_tree |]). contradiction.
Qed.

Lemma block_sum_nan a : In nan a -> block_sum a = nan.
Proof.
  intros Hin. destruct (Nat.lt_ge_cases (length a) 8) as [Hs | Hl].
  - rewrite block_sum_short by exact Hs. now apply fold_with_nan.
  - do 8 (destruct a as [| ? a]; [simpl in Hl; lia |]).
    unfold block_sum.
    match goal with
    | |- context [unrolled ?g ?r a] =>
        destruct (unrolled g r a) as [r' rest] eqn:Hu;
        assert (Hn : nan_among r' \/ In nan rest)
    end.
    { eapply unrolled_nan; [| exact Hu].
      unfold nan_among. simpl in Hin |- *. intuition auto 20. }
    destruct r' as [[[[[[[r0 r1] r2] r3] r4] r5] r6] r7].
    destruct Hn as [Hn | Hn]; [| now apply fold_with_nan].
    rewrite (tree_nan _ _ _ _ _ _ _ _ Hn). apply fold_nan_acc.
Qed.

Lemma pairwise_sum_nan : forall d a, In nan a -> pairwise_sum_rec d a = nan.
Proof.
  induction d as [| d IH]; intros a Hin; simpl.
  - now apply block_sum_nan.
  - destruct (length a <=? PW_BLOCKSIZE)%nat; [now apply block_sum_nan |].
    apply fadd_nan_any.
    apply (in_cut nan (half_point (length a))) in Hin.
    destruct Hin as [Hin | Hin]; [left | right]; now apply IH.
Qed.

Lemma np_sum_nan a : In nan a -> np_sum a = nan.
Proof.
  intros Hin. unfold np_sum, pairwise_sum. now rewrite pairwise_sum_nan.
Qed.

(** *** [np.nanmean] *)












(** numpy's order of summation shows from eight scalars on: [2^24] followed
    by fifteen ones sums to [2^24 + 14], where adding them one after the
    other gives [2^24]. *)
Example np_sum_pairwise :
  np_sum (of_Z 16777216 :: repeat one 15) = of_Z 16777230 /\
  fsum (of_Z 16777216 :: repeat one 15) = of_Z 16777216 /\
  nanmean (of_Z 16777216 :: repeat one 15) = fdiv (of_Z 16777230) (of_Z 16).
Proof. repeat split; vm_compute; reflexivity. Qed.

(** From eight accumulated scalars on, a NaN entry moves the others to other
    partial sums: the result need not be the mean of the remaining entries
    to the last bit. *)
Example nanmean_regroups :
  nanmean (nan :: of_Z 16777216 :: repeat one 15)
  = fdiv (of_Z 16777228) (of_Z 16) /\
  mean (filter not_nan (nan :: of_Z 16777216 :: repeat one 15))
  = fdiv (of_Z 16777230) (of_Z 16).
Proof. split; vm_compute; reflexivity. Qed.

(** ** C5: one weight write per epoch *)

Lemma saving_phase_Ok E saved s u s' :
  saving_phase E saved s = (Ok u, s') ->
  s' = with_trace s (trace s ++ save_lines (epoch_number s) saved).
Proof.
  unfold saving_phase, save_lines. intros H.
  apply bind_Ok in H. destruct H as (epoch & s0 & H0 & H).
  inversion H0; subst epoch s0. clear H0.
  bind_ok H. apply on_trace_emit_Ok in Hstep. subst s0.
  destruct saved.
  - apply on_trace_emit_Ok in H. subst s'. unfold with_trace. simpl.
    now rewrite <- app_assoc.
  - bind_ok H. apply on_trace_emit_Ok in Hstep. subst s0.
    bind_ok H. apply on_trace_emit_Ok in Hstep. subst s0.
    apply on_trace_emit_Ok in H. subst s'. unfold with_trace. simpl.
    now rewrite <- !app_assoc.
Qed.

Lemma advance_Ok E s u s' :
  advance E s = (Ok u, s') ->
  s' = {| epoch_number := epoch_number s + 1;
          best_rms_metrics := best_rms_metrics s;
          trace := trace s ++ [SchedulerStep] |}.
Proof.
  unfold advance. intros H. bind_ok H. inversion Hstep; subst a s0. clear Hstep.
  apply on_trace_emit_Ok in H. now subst s'.
Qed.

Lemma training_phase_emits (P : event -> Prop) E L :
  (forall line also_print, P (LogLine line also_print)) ->
  (forall series y x, P (AddScalar series y x)) ->
  phase_emits P (training_phase E L).
Proof.
  intros Hlog Hs. unfold training_phase.
  apply phase_bind; [apply phase_gets | intros epoch].
  apply phase_bind; [apply phase_on_trace, emits_write_log_line, Hlog | intros _].
  apply phase_bind; [apply phase_on_trace, emits_write_log_line, Hlog | intros _].
  apply phase_bind; [| intros _; apply phase_ret].
  apply phase_on_trace, emits_train_single_epoch; auto.
Qed.

Lemma saves_app a b : saves (a ++ b) = saves a ++ saves b.
Proof. apply filter_app. Qed.

Lemma saves_none new :
  Forall (fun e => is_save e = false) new -> saves new = [].
Proof.
  induction 1 as [| e new He _ IH]; simpl; [reflexivity |]. now rewrite He.
Qed.

Lemma not_saved_not_in new e :
  Forall (fun e => is_save e = false) new -> is_save e = true -> ~ In e new.
Proof.
  intros HF He Hin. rewrite Forall_forall in HF. specialize (HF _ Hin). congruence.
Qed.

(** The steps of an iteration of the loop that completes. *)
Lemma epoch_body_Ok E L ev sv s u s' :
  epoch_body E L ev sv s = (Ok u, s') ->
  exists s1 saved s2 s3,
    training_phase E L s = (Ok tt, s1) /\
    ev <> 0 /\ sv <> 0 /\
    (if epoch_number s1 mod ev =? 0 then evaluating_phase E else ret false) s1
      = (Ok saved, s2) /\
    (if epoch_number s1 mod sv =? 0 then saving_phase E saved else ret tt) s2
      = (Ok tt, s3) /\
    advance E s3 = (Ok u, s').
Proof.
  unfold epoch_body, after_training. intros H.
  apply bind_Ok in H. destruct H as ([] & s1 & H1 & H).
  apply bind_Ok in H. destruct H as (epoch & s0 & H0 & H).
  inversion H0; subst epoch s0. clear H0.
  apply bind_Ok in H. destruct H as (r_eval & s0 & H0 & H).
  apply lift_inv in H0. destruct H0 as [Hmod ->].
  apply py_mod_inv in Hmod. destruct Hmod as [Hev ->].
  apply bind_Ok in H. destruct H as (saved & s2 & H2 & H).
  apply bind_Ok in H. destruct H as (r_save & s0 & H0 & H).
  apply lift_inv in H0. destruct H0 as [Hmod ->].
  apply py_mod_inv in Hmod. destruct Hmod as [Hsv ->].
  apply bind_Ok in H. destruct H as ([] & s3 & H3 & H).
  exists s1, saved, s2, s3. auto 10.
Qed.

(** C5.  For an epoch number that [eval_every] and [save_every] both
    divide: when the iteration of the loop completes and its evaluation wrote
    the weights under the best designation, that write is the only weight
    write of the epoch and the line that records the skipped plain save has
    been logged; and the iteration completes whenever no sink fails, the
    training epochs have at least [log_every] batches and the evaluations a
    batch. *)
Theorem no_double_save :
  forall (E : engine) (log_every eval_every save_every : Z) (s : run_state),
    epoch_number s mod eval_every = 0 ->
    epoch_number s mod save_every = 0 ->
    (forall s' new,
        epoch_body E log_every eval_every save_every s = (Ok tt, s') ->
        trace s' = trace s ++ new ->
        In (SaveModel (epoch_number s) true) new ->
        saves new = [SaveModel (epoch_number s) true] /\
        In (LogLine already_saved_line false) new) /\
    (reliable E ->
     0 < log_every ->
     (forall epoch, log_every <= Z.of_nat (length (batch_losses E epoch))) ->
     (forall epoch, 1 <= evaluation_batches E epoch)%nat ->
     eval_every <> 0 -> save_every <> 0 ->
     exists s', epoch_body E log_every eval_every save_every s = (Ok tt, s')).
Proof.
  intros E L ev sv s Hev Hsv. split.
  2:{ intros Hio HL Hn Hb Hev0 Hsv0.
      destruct (returns_epoch_body E L ev sv Hio HL Hn Hb Hev0 Hsv0 s)
        as ([] & s' & H). eauto. }
  intros s' new H Hnew Hin.
  apply epoch_body_Ok in H.
  destruct H as (s1 & saved & s2 & s3 & Ht & _ & _ & He & Hs & Ha).
  destruct (training_phase_emits (fun e => is_save e = false) E L
              ltac:(reflexivity) ltac:(reflexivity) _ _ _ Ht)
    as (E1 & n1 & T1 & F1).
  rewrite E1, Hev in He. rewrite E1, Hsv in Hs. simpl in He, Hs.
  unfold evaluating_phase in He.
  apply bind_Ok in He. destruct He as (rms & sm & Hr & Hb).
  destruct (phase_evaluation_report (fun e => is_save e = false)
              ltac:(reflexivity) ltac:(reflexivity) ltac:(reflexivity)
              E _ _ _ Hr) as (E2 & n2 & T2 & F2).
  apply record_best_Ok in Hb. destruct Hb as [_ Hs2].
  apply saving_phase_Ok in Hs. apply advance_Ok in Ha.
  assert (Hep : epoch_number sm = epoch_number s) by congruence.
  assert (Htr : trace s' = trace s ++
                  n1 ++ n2 ++ (if saved then best_lines (epoch_number s) else [])
                  ++ save_lines (epoch_number s) saved ++ [SchedulerStep]).
  { subst s' s3 s2. simpl. rewrite T2, T1, Hep. now rewrite <- !app_assoc. }
  rewrite Hnew in Htr. apply app_inv_head in Htr. subst new.
  destruct saved.
  - split.
    + rewrite !saves_app, (saves_none n1 F1), (saves_none n2 F2). reflexivity.
    + apply in_or_app. right. apply in_or_app. right.
      apply in_or_app. right. simpl. auto.
  - exfalso.
    apply in_app_or in Hin. destruct Hin as [Hin | Hin];
      [exact (not_saved_not_in n1 (SaveModel (epoch_number s) true) F1 eq_refl Hin) |].
    apply in_app_or in Hin. destruct Hin as [Hin | Hin];
      [exact (not_saved_not_in n2 (SaveModel (epoch_number s) true) F2 eq_refl Hin) |].
    simpl in Hin.
    destruct Hin as [Hin | [Hin | [Hin | [Hin | [Hin | []]]]]]; discriminate.
Qed.

Ltac in_list := simpl; repeat (first [left; reflexivity | right]).

Lemma no_double_save_witness :
  exists s',
    epoch_body example_engine 2 1 1 initial_state = (Ok tt, s') /\
    saves (trace s') = [SaveModel 1 true] /\
    In (LogLine already_saved_line false) (trace s').
Proof.
  destruct (no_double_save example_engine 2 1 1 initial_state eq_refl eq_refl)
    as [Honce Hret].
  destruct Hret as [s' Hrun]; try (intros; simpl; lia).
  - intros past e. reflexivity.
  - exists s'. split; [exact Hrun |].
    apply (Honce s' (trace s') Hrun eq_refl).
    assert (Hs' : s' = snd (epoch_body example_engine 2 1 1 initial_state))
      by now rewrite Hrun.
    rewrite Hs'. vm_compute. in_list.
Defined.

(** ** C9: the scheduler and the epoch counter *)

Lemma scheduler_steps_app a b :
  scheduler_steps (a ++ b) = (scheduler_steps a + scheduler_steps b)%nat.
Proof. unfold scheduler_steps. now rewrite filter_app, length_app. Qed.

Lemma scheduler_steps_quiet new :
  Forall quiet_scheduler new -> scheduler_steps new = 0%nat.
Proof.
  unfold scheduler_steps.
  induction 1 as [| e new He _ IH]; simpl; [reflexivity |].
  unfold quiet_scheduler in He. now rewrite He.
Qed.

Lemma advances_bind {A} (P : event -> Prop) (m : M run_state A)
    (k : A -> M run_state unit) :
  phase_emits P m -> (forall a, advances_once P (k a)) ->
  advances_once P (bind m k).
Proof.
  intros Hm Hk s r s' H.
  destruct (bind_inv _ _ _ _ _ H) as [(a & s1 & H1 & H2) | (e & H1 & ->)].
  - destruct (Hm _ _ _ H1) as (E1 & n1 & T1 & F1).
    specialize (Hk a _ _ _ H2). destruct r as [u | e].
    + destruct Hk as (E2 & n2 & T2 & F2). split; [lia |].
      exists (n1 ++ n2). rewrite T2, T1, <- !app_assoc. split; [reflexivity |].
      apply Forall_app. auto.
    + destruct Hk as ((n2 & T2 & F2) & E2). split.
      * exists (n1 ++ n2). rewrite T2, T1, <- app_assoc. split; [reflexivity |].
        apply Forall_app. auto.
      * intros He. rewrite (E2 He). exact E1.
  - destruct (Hm _ _ _ H1) as (E1 & n1 & T1 & F1). split; [eauto | auto].
Qed.

Lemma advances_advance (P : event -> Prop) E : advances_once P (advance E).
Proof.
  intros s r s' H. unfold advance in H.
  apply bind_inv in H. destruct H as [(u & s1 & H1 & H) | (e & H1 & _)];
    [| discriminate].
  inversion H1; subst u s1. clear H1.
  unfold on_trace, emit in H. simpl in H.
  destruct (io_fails E (trace s) SchedulerStep); inversion H; subst; simpl.
  - split.
    + exists []. rewrite app_nil_r. split; [reflexivity | constructor].
    + intros Hne. now contradiction Hne.
  - split; [reflexivity |]. exists []. split; [reflexivity | constructor].
Qed.

Lemma after_training_advances (P : event -> Prop) E ev sv :
  (forall line also_print, P (LogLine line also_print)) ->
  (forall series index, P (LogVisuals series index)) ->
  (forall name y x, P (AddScalar (String.append "Evaluation/" name) y x)) ->
  (forall epoch best, P (SaveModel epoch best)) ->
  advances_once P (after_training E ev sv).
Proof.
  intros Hlog Hvis Heval Hsave. unfold after_training.
  apply advances_bind; [apply phase_gets | intros epoch].
  apply advances_bind; [apply phase_lift | intros r_eval].
  apply advances_bind.
  { destruct (r_eval =? 0); [| apply phase_ret].
    apply phase_evaluating; assumption. }
  intros saved. apply advances_bind; [apply phase_lift | intros r_save].
  apply advances_bind.
  { destruct (r_save =? 0); [| apply phase_ret].
    apply phase_saving; assumption. }
  intros _. apply advances_advance.
Qed.

Lemma epoch_body_advances E L ev sv :
  advances_once quiet_scheduler (epoch_body E L ev sv).
Proof.
  unfold epoch_body. apply advances_bind.
  - apply training_phase_emits; reflexivity.
  - intros _. apply after_training_advances; reflexivity.
Qed.

Lemma phase_raise_keeps {A} (m : M run_state A) s r s' :
  phase_emits quiet_scheduler m -> m s = (r, s') ->
  epoch_number s' = epoch_number s /\
  scheduler_steps (trace s') = scheduler_steps (trace s).
Proof.
  intros Hm H. destruct (Hm _ _ _ H) as (E1 & n1 & T1 & F1).
  split; [exact E1 |].
  rewrite T1, scheduler_steps_app, (scheduler_steps_quiet _ F1). lia.
Qed.

(** C9.  An iteration of the loop that completes has advanced the epoch
    counter by one and stepped the scheduler exactly once, as its last effect
    (so after the save decision), whether or not it evaluated or saved.  An
    iteration that raises has not stepped the scheduler, and has not advanced
    the counter unless the step of the scheduler itself is what raised; this
    holds in particular for a failure of the evaluating phase and of the
    saving phase; and the loop stops there, with that state. *)
Theorem scheduler_once_per_epoch :
  forall (E : engine) (log_every eval_every save_every : Z)
         (s : run_state) (r : result unit) (s' : run_state),
    epoch_body E log_every eval_every save_every s = (r, s') ->
    match r with
    | Ok _ =>
        epoch_number s' = epoch_number s + 1 /\
        scheduler_steps (trace s') = S (scheduler_steps (trace s)) /\
        exists new, trace s' = trace s ++ new ++ [SchedulerStep] /\
                    Forall quiet_scheduler new
    | Raise e =>
        scheduler_steps (trace s') = scheduler_steps (trace s) /\
        (e <> OSError SchedulerStep -> epoch_number s' = epoch_number s) /\
        (forall n, epochs E log_every eval_every save_every (S n) s = (Raise e, s'))
    end /\
    (forall s1 e s2,
        evaluating_phase E s1 = (Raise e, s2) ->
        epoch_number s2 = epoch_number s1 /\
        scheduler_steps (trace s2) = scheduler_steps (trace s1)) /\
    (forall saved s1 e s2,
        saving_phase E saved s1 = (Raise e, s2) ->
        epoch_number s2 = epoch_number s1 /\
        scheduler_steps (trace s2) = scheduler_steps (trace s1)).
Proof.
  intros E L ev sv s r s' H.
  pose proof (epoch_body_advances E L ev sv s r s' H) as Hadv.
  split; [| split].
  - destruct r as [u | e].
    + destruct Hadv as (He & new & Ht & Hf). split; [exact He |].
      split; [| eauto].
      rewrite Ht, !scheduler_steps_app, (scheduler_steps_quiet _ Hf).
      change (scheduler_steps [SchedulerStep]) with 1%nat. lia.
    + destruct Hadv as ((new & Ht & Hf) & He). split; [| split].
      * rewrite Ht, scheduler_steps_app, (scheduler_steps_quiet _ Hf). lia.
      * exact He.
      * intros n. simpl. now apply bind_raise.
  - intros s1 e s2 Hr. eapply phase_raise_keeps; [| exact Hr].
    apply phase_evaluating; reflexivity.
  - intros saved s1 e s2 Hr. eapply phase_raise_keeps; [| exact Hr].
    apply phase_saving; reflexivity.
Qed.

Lemma scheduler_once_per_epoch_witness :
  (let s' := snd (epoch_body example_engine 2 1 1 initial_state) in
   epoch_number s' = 2 /\ scheduler_steps (trace s') = 1%nat) /\
  (let s' := snd (epoch_body read_only_engine 2 1 1 initial_state) in
   epoch_number s' = 1 /\ scheduler_steps (trace s') = 0%nat).
Proof.
  split.
  - destruct (scheduler_once_per_epoch example_engine 2 1 1 initial_state
                (Ok tt) (snd (epoch_body example_engine 2 1 1 initial_state)))
      as ((He & Hs & _) & _).
    + vm_compute. reflexivity.
    + split; [exact He | exact Hs].
  - destruct (scheduler_once_per_epoch read_only_engine 2 1 1 initial_state
                (Raise (OSError (SaveModel 1 true)))
                (snd (epoch_body read_only_engine 2 1 1 initial_state)))
      as ((Hs & He & _) & _).
    + vm_compute. reflexivity.
    + split; [apply He; discriminate | exact Hs].
Defined.

(** ** C8: the index of the training-loss telemetry *)

Lemma train_points_app E a b :
  train_points E (a ++ b) = train_points E a ++ train_points E b.
Proof. unfold train_points. apply flat_map_app. Qed.

Lemma train_point_train E y x :
  train_point E (AddScalar (train_series E) y x) = [x].
Proof. simpl. now rewrite String.eqb_refl. Qed.

Lemma train_point_evaluation E name y x :
  no_train_point E (AddScalar (String.append "Evaluation/" name) y x).
Proof. reflexivity. Qed.

Lemma train_points_none E new :
  Forall (no_train_point E) new -> train_points E new = [].
Proof.
  induction 1 as [| e new He _ IH]; [reflexivity |].
  unfold train_points in *. simpl. rewrite He, IH. reflexivity.
Qed.

(** One iteration gives the sink at most one point, the one of its own batch
    index, and only on a logging iteration. *)
Lemma train_iteration_points E epoch L n loc i loss past r past' :
  train_iteration E epoch L n loc i loss past = (r, past') ->
  exists js,
    train_points E past'
    = train_points E past ++ map (fun j => (epoch - 1) * n + j) js /\
    (js = [] \/ (js = [i] /\ i mod L = 0)).
Proof.
  unfold train_iteration. intros H.
  assert (Hnone : train_points E past = train_points E past ++ map (fun j => (epoch - 1) * n + j) [])
    by (simpl; now rewrite app_nil_r).
  apply bind_inv in H. destruct H as [(r0 & s0 & H0 & H) | (e & H0 & _)].
  2:{ apply lift_inv in H0. destruct H0 as [_ ->]. exists []. auto. }
  apply lift_inv in H0. destruct H0 as [Hmod ->].
  apply py_mod_inv in Hmod. destruct Hmod as [HL ->].
  destruct (i mod L =? 0) eqn:Hi.
  2:{ inversion H; subst. exists []. auto. }
  apply Z.eqb_eq in Hi.
  apply bind_inv in H. destruct H as [(lr & s0 & H0 & H) | (e & H0 & _)];
    [| discriminate].
  inversion H0; subst lr s0. clear H0.
  apply bind_inv in H. destruct H as [(u & past1 & H1 & H) | (e & H1 & _)].
  2:{ unfold write_log_line, emit in H1.
      destruct (io_fails E past _); inversion H1; subst. exists []. auto. }
  apply emit_Ok in H1. subst past1.
  apply bind_inv in H. destruct H as [(u2 & past2 & H2 & H) | (e & H2 & _)].
  - inversion H; subst. clear H. unfold log_scalar in H2.
    destruct (has_summary_writer E).
    + apply emit_Ok in H2. subst past'. exists [i]. split; [| auto].
      rewrite !train_points_app. unfold train_points at 2 3. simpl flat_map.
      rewrite String.eqb_refl. simpl. now rewrite !app_nil_r.
    + inversion H2; subst. exists []. split; [| auto].
      rewrite train_points_app. simpl. reflexivity.
  - unfold log_scalar in H2. destruct (has_summary_writer E); [| discriminate].
    unfold emit in H2. destruct (io_fails E _ _); inversion H2; subst.
    exists []. split; [| auto]. rewrite train_points_app. simpl. reflexivity.
Qed.

Lemma train_loop_points E epoch L n : forall losses loc i past r past',
  train_loop E epoch L n loc i losses past = (r, past') ->
  exists js,
    train_points E past'
    = train_points E past ++ map (fun j => (epoch - 1) * n + j) js /\
    StronglySorted Z.lt js /\
    Forall (fun j => i <= j < i + Z.of_nat (length losses) /\ j mod L = 0) js.
Proof.
  induction losses as [| loss losses IH]; intros loc i past r past' H;
    simpl in H.
  - inversion H; subst. exists []. simpl. rewrite app_nil_r.
    repeat split; constructor.
  - simpl length. rewrite Nat2Z.inj_succ.
    apply bind_inv in H. destruct H as [(loc1 & past1 & H1 & H) | (e & H1 & _)].
    + apply train_iteration_points in H1. destruct H1 as (js1 & T1 & Hjs1).
      apply IH in H. destruct H as (js2 & T2 & S2 & F2).
      exists (js1 ++ js2). rewrite T2, T1, map_app, app_assoc.
      split; [reflexivity |].
      destruct Hjs1 as [-> | [-> Hi]]; simpl.
      * split; [exact S2 |]. eapply Forall_impl; [| exact F2]. simpl. lia.
      * split.
        -- constructor; [exact S2 |]. eapply Forall_impl; [| exact F2]. simpl. lia.
        -- constructor; [lia |]. eapply Forall_impl; [| exact F2]. simpl. lia.
    + apply train_iteration_points in H1. destruct H1 as (js1 & T1 & Hjs1).
      exists js1. split; [exact T1 |].
      destruct Hjs1 as [-> | [-> Hi]].
      * split; constructor.
      * split; [repeat constructor |]. constructor; [lia | constructor].
Qed.

(** The points one training epoch gives the sink: the indices
    [(epoch-1)*n + i] of logging iterations [i] between 1 and [n], in
    increasing order. *)
Lemma train_single_epoch_points E epoch L losses past r past' :
  train_single_epoch E epoch L losses past = (r, past') ->
  exists js,
    train_points E past'
    = train_points E past
      ++ map (fun i => (epoch - 1) * Z.of_nat (length losses) + i) js /\
    StronglySorted Z.lt js /\
    Forall (fun i => 1 <= i <= Z.of_nat (length losses) /\ i mod L = 0) js.
Proof.
  unfold train_single_epoch. intros H.
  apply bind_inv in H. destruct H as [(loc & past1 & H1 & H) | (e & H1 & _)].
  - apply train_loop_points in H1. destruct H1 as (js & T & S & F).
    assert (past' = past1) by (destruct (mean_loss loc); inversion H; reflexivity).
    subst past1. exists js. split; [exact T | split; [exact S |]].
    eapply Forall_impl; [| exact F]. intros j Hj. cbv beta in Hj. lia.
  - apply train_loop_points in H1. destruct H1 as (js & T & S & F).
    exists js. split; [exact T | split; [exact S |]].
    eapply Forall_impl; [| exact F]. intros j Hj. cbv beta in Hj. lia.
Qed.

Lemma emits_points E {A} (m : M (list event) A) past r past' :
  emits_only (no_train_point E) m -> m past = (r, past') ->
  train_points E past' = train_points E past.
Proof.
  intros Hm H. destruct (Hm _ _ _ H) as (new & -> & F).
  rewrite train_points_app, (train_points_none E new F). apply app_nil_r.
Qed.

Lemma on_trace_inv {A} (m : M (list event) A) s r s' :
  on_trace m s = (r, s') ->
  exists past', m (trace s) = (r, past') /\ s' = with_trace s past'.
Proof.
  unfold on_trace. destruct (m (trace s)) as [r1 past1].
  intros H. inversion H; subst. eauto.
Qed.

Lemma sorted_app (l1 l2 : list Z) :
  StronglySorted Z.lt l1 -> StronglySorted Z.lt l2 ->
  (forall x y, In x l1 -> In y l2 -> x < y) ->
  StronglySorted Z.lt (l1 ++ l2).
Proof.
  induction 1 as [| a l1 S1 IH F1]; intros S2 Hlt; simpl; [exact S2 |].
  constructor.
  - apply IH; [exact S2 |]. intros x y Hx Hy. apply Hlt; [now right | exact Hy].
  - apply Forall_app. split; [exact F1 |].
    apply Forall_forall. intros y Hy. apply Hlt; [now left | exact Hy].
Qed.

Lemma sorted_map_shift (b : Z) (js : list Z) :
  StronglySorted Z.lt js -> StronglySorted Z.lt (map (fun j => b + j) js).
Proof.
  induction 1 as [| a js S IH F]; simpl; constructor; [exact IH |].
  rewrite Forall_map. eapply Forall_impl; [| exact F]. simpl. lia.
Qed.

(** The points of one more epoch of [n] batches keep the series increasing. *)
Lemma extend_increasing (e n : Z) (points js : list Z) :
  0 <= n ->
  increasing_below ((e - 1) * n) points ->
  StronglySorted Z.lt js ->
  Forall (fun i => 1 <= i <= n) js ->
  increasing_below (e * n) (points ++ map (fun i => (e - 1) * n + i) js).
Proof.
  intros Hn [S F] Sj Fj. rewrite Forall_forall in F, Fj. split.
  - apply sorted_app; [exact S | now apply sorted_map_shift |].
    intros x y Hx Hy. apply in_map_iff in Hy. destruct Hy as (j & <- & Hj).
    specialize (F _ Hx). specialize (Fj _ Hj). lia.
  - apply Forall_app. split; apply Forall_forall.
    + intros x Hx. specialize (F _ Hx). lia.
    + intros y Hy. apply in_map_iff in Hy. destruct Hy as (j & <- & Hj).
      specialize (Fj _ Hj). lia.
Qed.

Lemma training_phase_points E L s r s1 :
  training_phase E L s = (r, s1) ->
  epoch_number s1 = epoch_number s /\
  exists js,
    train_points E (trace s1)
    = train_points E (trace s)
      ++ map (fun i => (epoch_number s - 1)
                       * Z.of_nat (length (batch_losses E (epoch_number s))) + i) js /\
    StronglySorted Z.lt js /\
    Forall (fun i => 1 <= i <= Z.of_nat (length (batch_losses E (epoch_number s)))
                     /\ i mod L = 0) js.
Proof.
  intros H.
  assert (Hlog : forall line b, emits_only (no_train_point E) (write_log_line E line b))
    by (intros; apply emits_write_log_line; reflexivity).
  assert (Hnil : forall past : list event,
            train_points E past = train_points E (trace s) ->
            exists js : list Z,
              train_points E past
              = train_points E (trace s)
                ++ map (fun i => (epoch_number s - 1)
                          * Z.of_nat (length (batch_losses E (epoch_number s))) + i) js /\
              StronglySorted Z.lt js /\
              Forall (fun i => 1 <= i <= Z.of_nat (length (batch_losses E (epoch_number s)))
                               /\ i mod L = 0) js).
  { intros t Ht. exists []. simpl. rewrite app_nil_r.
    split; [exact Ht | split; constructor]. }
  unfold training_phase in H.
  apply bind_inv in H. destruct H as [(epoch & s0 & H0 & H) | (e & H0 & _)];
    [| discriminate].
  inversion H0; subst epoch s0. clear H0.
  apply bind_inv in H. destruct H as [(u1 & t1 & H1 & H) | (e & H1 & _)];
    apply on_trace_inv in H1; destruct H1 as (p1 & H1 & ->);
    pose proof (emits_points E _ _ _ _ (Hlog _ _) H1) as P1.
  2:{ split; [reflexivity |]. apply (Hnil p1). exact P1. }
  apply bind_inv in H. destruct H as [(u2 & t2 & H2 & H) | (e & H2 & _)];
    apply on_trace_inv in H2; destruct H2 as (p2 & H2 & ->);
    pose proof (emits_points E _ _ _ _ (Hlog _ _) H2) as P2; simpl in P2.
  2:{ split; [reflexivity |]. apply (Hnil p2). congruence. }
  apply bind_inv in H. destruct H as [(m & t3 & H3 & H) | (e & H3 & _)];
    apply on_trace_inv in H3; destruct H3 as (p3 & H3 & ->);
    apply train_single_epoch_points in H3; destruct H3 as (js & T & S & F);
    simpl in T.
  - inversion H; subst. split; [reflexivity |].
    exists js. simpl trace. rewrite T, P2, P1. auto.
  - split; [reflexivity |]. exists js. simpl trace. rewrite T, P2, P1. auto.
Qed.

Lemma epoch_body_points E L ev sv n s r s' :
  Z.of_nat (length (batch_losses E (epoch_number s))) = n ->
  increasing_below ((epoch_number s - 1) * n) (train_points E (trace s)) ->
  epoch_body E L ev sv s = (r, s') ->
  StronglySorted Z.lt (train_points E (trace s')) /\
  (forall u, r = Ok u ->
     increasing_below ((epoch_number s' - 1) * n) (train_points E (trace s'))).
Proof.
  intros Hn Hinv H. unfold epoch_body in H.
  assert (Hmid : forall s1 r1, training_phase E L s = (r1, s1) ->
            epoch_number s1 = epoch_number s /\
            increasing_below (epoch_number s * n) (train_points E (trace s1))).
  { intros s1 r1 H1. apply training_phase_points in H1.
    destruct H1 as (E1 & js & T & S & F). split; [exact E1 |].
    rewrite T, Hn. apply extend_increasing; try assumption; [lia |].
    eapply Forall_impl; [| exact F]. intros j Hj. cbv beta in Hj. lia. }
  apply bind_inv in H. destruct H as [(u1 & s1 & H1 & H) | (e & H1 & ->)].
  - destruct (Hmid _ _ H1) as [E1 [S1 F1]].
    pose proof (after_training_advances (no_train_point E) E ev sv
                  ltac:(reflexivity) ltac:(reflexivity)
                  ltac:(reflexivity) ltac:(reflexivity) _ _ _ H) as Hadv.
    destruct r as [u | e].
    + destruct Hadv as (E2 & new & T2 & F2).
      assert (Hp : train_points E (trace s') = train_points E (trace s1)).
      { rewrite T2, !train_points_app, (train_points_none E new F2).
        simpl. now rewrite !app_nil_r. }
      rewrite Hp. split; [exact S1 |]. intros _ _. split; [exact S1 |].
      replace (epoch_number s' - 1) with (epoch_number s) by lia. exact F1.
    + destruct Hadv as ((new & T2 & F2) & _).
      assert (Hp : train_points E (trace s') = train_points E (trace s1)).
      { rewrite T2, train_points_app, (train_points_none E new F2).
        now rewrite app_nil_r. }
      rewrite Hp. split; [exact S1 | discriminate].
  - destruct (Hmid _ _ H1) as [_ [S1 _]]. split; [exact S1 | discriminate].
Qed.

Lemma epochs_points E L ev sv n : forall fuel s r s',
  (forall e, Z.of_nat (length (batch_losses E e)) = n) ->
  increasing_below ((epoch_number s - 1) * n) (train_points E (trace s)) ->
  epochs E L ev sv fuel s = (r, s') ->
  StronglySorted Z.lt (train_points E (trace s')).
Proof.
  induction fuel as [| fuel IH]; intros s r s' Hn Hinv H; simpl in H.
  - inversion H; subst. exact (proj1 Hinv).
  - apply bind_inv in H. destruct H as [(u & s1 & H1 & H) | (e & H1 & _)].
    + destruct (epoch_body_points E L ev sv n s _ _ (Hn _) Hinv H1) as [_ Hok].
      eapply IH; [exact Hn | | exact H]. exact (Hok u eq_refl).
    + exact (proj1 (epoch_body_points E L ev sv n s _ _ (Hn _) Hinv H1)).
Qed.

(** C8.  When every training epoch has [n] batches, each point given to the
    telemetry sink on the training-loss series during epoch [e] has the index
    [(e-1)*n + i] of a logging iteration [i] between 1 and [n], and over the
    whole run, however far it gets, these indices are strictly increasing. *)
Theorem telemetry_index_increases :
  forall (E : engine) (log_every eval_every save_every : Z) (n fuel : nat)
         (r : result unit) (s' : run_state),
    (forall e, length (batch_losses E e) = n) ->
    main_training_loop E log_every eval_every save_every fuel = (r, s') ->
    StronglySorted Z.lt (train_points E (trace s')) /\
    (forall epoch past r1 past1,
        train_single_epoch E epoch log_every (batch_losses E epoch) past = (r1, past1) ->
        exists js,
          train_points E past1
          = train_points E past ++ map (fun i => (epoch - 1) * Z.of_nat n + i) js /\
          StronglySorted Z.lt js /\
          Forall (fun i => 1 <= i <= Z.of_nat n /\ i mod log_every = 0) js).
Proof.
  intros E L ev sv n fuel r s' Hn H. split.
  - unfold main_training_loop in H.
    eapply (epochs_points E L ev sv (Z.of_nat n)); [| | exact H].
    + intros e. now rewrite Hn.
    + simpl. split; constructor.
  - intros epoch past r1 past1 H1. apply train_single_epoch_points in H1.
    rewrite Hn in H1. exact H1.
Qed.

Lemma telemetry_index_increases_witness :
  train_points example_engine
    (trace (snd (main_training_loop example_engine 2 1 1 2))) = [2; 5] /\
  StronglySorted Z.lt
    (train_points example_engine
       (trace (snd (main_training_loop example_engine 2 1 1 2)))).
Proof.
  split; [vm_compute; reflexivity |].
  apply (telemetry_index_increases example_engine 2 1 1 3 2 (Ok tt)
           (snd (main_training_loop example_engine 2 1 1 2))).
  - reflexivity.
  - vm_compute. reflexivity.
Defined.

(* ================================================================== *)
(** * Further properties of the drivers *)

(** ** Degenerate periods and loaders *)

(** X1.  A period of zero raises [ZeroDivisionError] where it is first used
    as a divisor: [log_every = 0] at the first batch of the epoch, before any
    log line or telemetry point (line 83); [eval_every = 0] right after the
    training of the first iteration (line 216); [save_every = 0] after the
    evaluation of that iteration, whatever it has saved (line 235).  In the
    last two cases the scheduler has not stepped and the epoch counter has not
    moved. *)
Theorem zero_period_raises :
  forall (E : engine) (log_every eval_every save_every : Z)
         (s s1 : run_state),
    training_phase E log_every s = (Ok tt, s1) ->
    (forall epoch loss losses past,
        train_single_epoch E epoch 0 (loss :: losses) past
        = (Raise ZeroDivisionError, past)) /\
    epoch_body E log_every 0 save_every s = (Raise ZeroDivisionError, s1) /\
    (eval_every <> 0 ->
     forall saved s2,
       (if epoch_number s1 mod eval_every =? 0
        then evaluating_phase E else ret false) s1 = (Ok saved, s2) ->
       epoch_body E log_every eval_every 0 s = (Raise ZeroDivisionError, s2) /\
       epoch_number s2 = epoch_number s /\
       scheduler_steps (trace s2) = scheduler_steps (trace s)).
Proof.
  intros E L ev sv s s1 Ht. split; [reflexivity | split].
  - unfold epoch_body. rewrite (bind_step _ _ _ _ _ Ht). reflexivity.
  - intros Hev saved s2 He.
    assert (Hbody : epoch_body E L ev 0 s = (Raise ZeroDivisionError, s2)).
    { unfold epoch_body. rewrite (bind_step _ _ _ _ _ Ht).
      unfold after_training. erewrite bind_step by reflexivity.
      rewrite (py_mod_Ok _ ev Hev). erewrite bind_step by reflexivity.
      rewrite (bind_step _ _ _ _ _ He). reflexivity. }
    split; [exact Hbody |].
    pose proof (epoch_body_advances E L ev 0 s _ _ Hbody) as Hadv.
    destruct Hadv as ((new & Hnew & Hq) & Hep). split.
    + apply Hep. discriminate.
    + rewrite Hnew, scheduler_steps_app, (scheduler_steps_quiet _ Hq). lia.
Qed.

Lemma zero_period_raises_witness :
  exists s1,
    epoch_body example_engine 2 0 1 initial_state = (Raise ZeroDivisionError, s1) /\
    saves (trace s1) = [].
Proof.
  exists (snd (training_phase example_engine 2 initial_state)). split.
  - apply (zero_period_raises example_engine 2 1 1 initial_state).
    vm_compute. reflexivity.
  - reflexivity.
Defined.

(** X2.  With an evaluation loader that yields no batch,
    [evaluate_single_epoch] raises at line 142, where [metric_results] is
    read though no iteration of the loop has bound it, and performs no
    effect; the evaluating phase of the control loop therefore never returns,
    and writes no weights. *)
Theorem empty_evaluation_raises :
  forall (E : engine) (epoch : Z) (past : list event),
    evaluation_batches E epoch = 0%nat ->
    evaluate_single_epoch E epoch past
    = (Raise (UnboundLocalError "metric_results"), past) /\
    (forall s r s',
        epoch_number s = epoch ->
        evaluating_phase E s = (r, s') ->
        (exists e, r = Raise e) /\ saves (trace s') = saves (trace s)).
Proof.
  intros E epoch past Hb.
  assert (Hraise : forall past0,
            evaluate_single_epoch E epoch past0
            = (Raise (UnboundLocalError "metric_results"), past0)).
  { intros past0. unfold evaluate_single_epoch. rewrite Hb. reflexivity. }
  split; [apply Hraise |].
  intros s r s' Hs H. unfold evaluating_phase in H.
  apply bind_inv in H. destruct H as [(rms & s1 & H1 & _) | (e & H1 & ->)].
  - exfalso. unfold evaluation_report in H1.
    apply bind_Ok in H1. destruct H1 as (ep & s0 & H0 & H1).
    inversion H0; subst ep s0. clear H0.
    bind_ok H1. bind_ok H1.
    apply on_trace_inv in Hstep0. destruct Hstep0 as (p & Hev & _).
    rewrite Hs, Hraise in Hev. discriminate.
  - split; [eauto |].
    destruct (phase_evaluation_report (fun e => is_save e = false)
                ltac:(reflexivity) ltac:(reflexivity) ltac:(reflexivity)
                E _ _ _ H1) as (_ & new & T & F).
    rewrite T, saves_app, (saves_none _ F). apply app_nil_r.
Qed.

Lemma empty_evaluation_raises_witness :
  evaluate_single_epoch unevaluated_engine 1 []
  = (Raise (UnboundLocalError "metric_results"), []).
Proof.
  exact (proj1 (empty_evaluation_raises unevaluated_engine 1 [] eq_refl)).
Defined.

(** ** The counters of a run *)

(** X3.  However a run of the loop ends, the scheduler has stepped once for
    each iteration that completed and not at all for the one that raised;
    after [n] completed iterations the epoch counter has advanced by [n]. *)
Theorem run_counters :
  forall (E : engine) (log_every eval_every save_every : Z) (n : nat)
         (s : run_state) (r : result unit) (s' : run_state),
    epochs E log_every eval_every save_every n s = (r, s') ->
    exists k,
      scheduler_steps (trace s') = (scheduler_steps (trace s) + k)%nat /\
      match r with
      | Ok _ => k = n /\ epoch_number s' = epoch_number s + Z.of_nat n
      | Raise e =>
          (k < n)%nat /\
          (e <> OSError SchedulerStep ->
           epoch_number s' = epoch_number s + Z.of_nat k)
      end.
Proof.
  intros E L ev sv. induction n as [| n IH]; intros s r s' H; simpl in H.
  - inversion H; subst. exists 0%nat. split; [lia | split; [reflexivity | lia]].
  - apply bind_inv in H. destruct H as [(u & s1 & H1 & H) | (e & H1 & ->)].
    + pose proof (epoch_body_advances E L ev sv s _ _ H1) as (He & new & Ht & Hq).
      assert (Hs1 : scheduler_steps (trace s1) = S (scheduler_steps (trace s))).
      { rewrite Ht, !scheduler_steps_app, (scheduler_steps_quiet _ Hq).
        change (scheduler_steps [SchedulerStep]) with 1%nat. lia. }
      destruct (IH _ _ _ H) as (k & Hk & Hr).
      exists (S k). split; [lia |].
      destruct r as [u' | e].
      * destruct Hr as [-> Hep]. split; [reflexivity | lia].
      * destruct Hr as [Hlt Hep]. split; [lia |].
        intros Hne. rewrite (Hep Hne). lia.
    + pose proof (epoch_body_advances E L ev sv s _ _ H1) as ((new & Ht & Hq) & He).
      exists 0%nat. split.
      * rewrite Ht, scheduler_steps_app, (scheduler_steps_quiet _ Hq). lia.
      * split; [lia |]. intros Hne. rewrite (He Hne). lia.
Qed.

Lemma run_counters_witness :
  exists k,
    scheduler_steps (trace (snd (main_training_loop example_engine 2 1 1 2)))
    = (0 + k)%nat /\
    k = 2%nat /\
    epoch_number (snd (main_training_loop example_engine 2 1 1 2)) = 1 + 2.
Proof.
  exact (run_counters example_engine 2 1 1 2 initial_state (Ok tt)
           (snd (main_training_loop example_engine 2 1 1 2))
           ltac:(vm_compute; reflexivity)).
Defined.

(** ** The weight writes of an iteration *)

(** The weight writes of an iteration of the loop that completes, by the flag
    [saved] its evaluation has set. *)
Lemma epoch_body_saves E L ev sv s s' new :
  epoch_body E L ev sv s = (Ok tt, s') ->
  trace s' = trace s ++ new ->
  exists saved : bool,
    (epoch_number s mod ev <> 0 -> saved = false) /\
    saves new
    = (if saved then [SaveModel (epoch_number s) true] else [])
      ++ (if epoch_number s mod sv =? 0
          then (if saved then [] else [SaveModel (epoch_number s) false])
          else []).
Proof.
  intros H Hnew. apply epoch_body_Ok in H.
  destruct H as (s1 & saved & s2 & s3 & Ht & _ & _ & He & Hs & Ha).
  destruct (training_phase_emits (fun e => is_save e = false) E L
              ltac:(reflexivity) ltac:(reflexivity) _ _ _ Ht)
    as (E1 & n1 & T1 & F1).
  rewrite E1 in He, Hs.
  assert (Heval : exists n2,
            epoch_number s2 = epoch_number s /\
            trace s2 = trace s1 ++ n2 /\
            saves n2 = (if saved then [SaveModel (epoch_number s) true] else []) /\
            (epoch_number s mod ev <> 0 -> saved = false)).
  { destruct (epoch_number s mod ev =? 0) eqn:Hev.
    - unfold evaluating_phase in He.
      apply bind_Ok in He. destruct He as (rms & sm & Hr & Hb).
      destruct (phase_evaluation_report (fun e => is_save e = false)
                  ltac:(reflexivity) ltac:(reflexivity) ltac:(reflexivity)
                  E _ _ _ Hr) as (E2 & n2 & T2 & F2).
      apply record_best_Ok in Hb. destruct Hb as [_ Hs2]. subst s2. simpl.
      exists (n2 ++ (if saved then best_lines (epoch_number sm) else [])).
      split; [congruence | split; [now rewrite T2, app_assoc | split]].
      + rewrite saves_app, (saves_none _ F2). simpl.
        destruct saved; [| reflexivity]. simpl. now rewrite E2, E1.
      + apply Z.eqb_eq in Hev. intros Hne. now contradiction Hne.
    - inversion He; subst. exists []. rewrite app_nil_r. auto. }
  destruct Heval as (n2 & E2 & T2 & S2 & Hsaved).
  assert (Hsave : exists n3,
            trace s3 = trace s2 ++ n3 /\
            saves n3 = (if epoch_number s mod sv =? 0
                        then (if saved then [] else [SaveModel (epoch_number s) false])
                        else [])).
  { destruct (epoch_number s mod sv =? 0).
    - apply saving_phase_Ok in Hs. subst s3. simpl. eexists. split; [reflexivity |].
      rewrite E2. destruct saved; reflexivity.
    - inversion Hs; subst. exists []. now rewrite app_nil_r. }
  destruct Hsave as (n3 & T3 & S3).
  apply advance_Ok in Ha.
  assert (Htr : trace s' = trace s ++ n1 ++ n2 ++ n3 ++ [SchedulerStep]).
  { subst s'. simpl. rewrite T3, T2, T1. now rewrite <- !app_assoc. }
  rewrite Hnew in Htr. apply app_inv_head in Htr. subst new.
  exists saved. split; [exact Hsaved |].
  rewrite !saves_app, (saves_none _ F1), S2, S3. simpl. now rewrite app_nil_r.
Qed.

(** X4.  An iteration of the loop that completes writes the weights at most
    once, and always under its own epoch number: exactly once when
    [save_every] divides the epoch number (under the best designation when
    the evaluation has saved, under the plain one otherwise), and otherwise
    only under the best designation, which requires that [eval_every] divides
    the epoch number. *)
Theorem weight_writes_per_epoch :
  forall (E : engine) (log_every eval_every save_every : Z)
         (s s' : run_state) (new : list event),
    epoch_body E log_every eval_every save_every s = (Ok tt, s') ->
    trace s' = trace s ++ new ->
    (epoch_number s mod save_every = 0 ->
     saves new = [SaveModel (epoch_number s) true] \/
     saves new = [SaveModel (epoch_number s) false]) /\
    (epoch_number s mod save_every <> 0 ->
     saves new = [] \/ saves new = [SaveModel (epoch_number s) true]) /\
    (epoch_number s mod eval_every <> 0 ->
     saves new = (if epoch_number s mod save_every =? 0
                  then [SaveModel (epoch_number s) false] else [])).
Proof.
  intros E L ev sv s s' new H Hnew.
  destruct (epoch_body_saves E L ev sv s s' new H Hnew) as (saved & Hsaved & Hs).
  repeat split.
  - intros Hsv. apply Z.eqb_eq in Hsv. rewrite Hsv in Hs.
    destruct saved; rewrite Hs; auto.
  - intros Hsv. apply Z.eqb_neq in Hsv. rewrite Hsv in Hs.
    destruct saved; rewrite Hs; auto.
  - intros Hev. rewrite (Hsaved Hev) in Hs. exact Hs.
Qed.

Lemma weight_writes_per_epoch_witness :
  saves (trace (snd (epoch_body example_engine 2 2 1 initial_state)))
  = [SaveModel 1 false].
Proof.
  refine (proj2 (proj2 (weight_writes_per_epoch example_engine 2 2 1
                          initial_state
                          (snd (epoch_body example_engine 2 2 1 initial_state))
                          _ _ _)) _).
  - vm_compute. reflexivity.
  - reflexivity.
  - vm_compute. discriminate.
Defined.

(** ** The best value *)

Lemma fadd_nan_r a : fadd a nan = nan.
Proof. now destruct a. Qed.

Lemma fleb_nan_l y : fleb nan y = false.
Proof. reflexivity. Qed.

Lemma fleb_nan_r x : fleb x nan = false.
Proof. now destruct x. Qed.

Lemma reference_state E rms s r s' :
  fleb rms (reference rms s) = false ->
  record_best E rms s = (r, s') ->
  r = Ok false /\
  s' = {| epoch_number := epoch_number s;
          best_rms_metrics := Some (reference rms s);
          trace := trace s |}.
Proof.
  intros Hle H. unfold record_best in H. unfold reference in Hle.
  apply bind_inv in H. destruct H as [(epoch & s0 & H0 & H) | (e & H0 & _)];
    [| discriminate].
  inversion H0; subst epoch s0. clear H0.
  apply bind_inv in H. destruct H as [(before & s0 & H0 & H) | (e & H0 & _)];
    [| discriminate].
  inversion H0; subst before s0. clear H0.
  apply bind_inv in H. destruct H as [(u & s1 & H1 & H) | (e & H1 & _)].
  2:{ destruct (best_rms_metrics s); discriminate. }
  rewrite Hle in H. unfold reference.
  destruct s as [en [b |] tr]; simpl in *; inversion H1; subst;
    inversion H; subst; auto.
Qed.

(** X5.  A NaN switches the best-model selection off.  The RMS of mean
    metrics of which one is NaN, or of no metric at all, is NaN; an RMS that
    is NaN is never saved as the best; and once the best value is NaN (which
    the first evaluation makes it when its RMS is NaN) no later value passes
    the comparison: the call returns [saved = False] without any effect. *)
Theorem nan_disables_best :
  (forall means key, In (key, nan) means -> rms_of means = nan) /\
  rms_of [] = nan /\
  (forall (E : engine) (rms : float) (s : run_state) r s',
      is_nan rms = true \/ best_rms_metrics s = Some nan ->
      record_best E rms s = (r, s') ->
      r = Ok false /\
      trace s' = trace s /\
      best_rms_metrics s' = Some (reference rms s) /\
      (best_rms_metrics s = None -> best_rms_metrics s' = Some nan)).
Proof.
  split; [| split; [reflexivity |]].
  - intros means key Hin. unfold rms_of, mean.
    rewrite np_sum_nan, np_divide_nan; [reflexivity |].
    apply in_map_iff. exists (key, nan). split; [reflexivity | exact Hin].
  - intros E rms s r s' Hnan H.
    assert (Hle : fleb rms (reference rms s) = false).
    { destruct Hnan as [Hn | Hb].
      - destruct rms; try discriminate. apply fleb_nan_l.
      - unfold reference. rewrite Hb. apply fleb_nan_r. }
    destruct (reference_state E rms s r s' Hle H) as [-> ->]. simpl.
    repeat split. intros Hnone. unfold reference. rewrite Hnone.
    destruct Hnan as [Hn | Hb]; [| congruence].
    destruct rms; try discriminate. reflexivity.
Qed.

Lemma nan_disables_best_witness :
  fst (record_best example_engine half
         {| epoch_number := 3; best_rms_metrics := Some nan; trace := [] |})
  = Ok false.
Proof.
  pose proof nan_disables_best as Hthm.
  destruct Hthm as [_ [_ Hrec]].
  destruct (record_best example_engine half
              {| epoch_number := 3; best_rms_metrics := Some nan; trace := [] |})
    as [r s'] eqn:Hrun.
  exact (proj1 (Hrec example_engine half
                  {| epoch_number := 3; best_rms_metrics := Some nan; trace := [] |}
                  r s' (or_intror eq_refl) Hrun)).
Defined.

Lemma fleb_trans x y z : fleb x y = true -> fleb y z = true -> fleb x z = true.
Proof.
  unfold fleb, SFleb, SFcompare.
  destruct x as [[] | [] | | [] mx ex], y as [[] | [] | | [] my ey],
           z as [[] | [] | | [] mz ez];
    try reflexivity; try discriminate; intros H1 H2;
    change (Pos.compare_cont Eq) with Pos.compare in *;
    destruct (Z.compare_spec ex ey), (Z.compare_spec ey ez), (Z.compare_spec ex ez);
    try lia; try reflexivity; try discriminate; subst;
    destruct (Pos.compare_spec mx my), (Pos.compare_spec my mz),
             (Pos.compare_spec mx mz);
    try lia; try reflexivity; try discriminate.
Qed.

Lemma best_kept_or_lowered_refl b : best_kept_or_lowered b b.
Proof. destruct b as [b |]; simpl; eauto. Qed.

Lemma best_kept_or_lowered_trans a b c :
  (a <> None -> b <> None) ->
  best_kept_or_lowered a b -> best_kept_or_lowered b c -> best_kept_or_lowered a c.
Proof.
  destruct a as [x |]; simpl; [| trivial].
  intros _ (y & -> & Hxy) (z & -> & Hyz). exists z. split; [reflexivity |].
  destruct Hxy as [-> | Hxy]; [exact Hyz |].
  destruct Hyz as [-> | Hyz]; [now right |].
  right. eapply fleb_trans; eauto.
Qed.

Lemma keeps_ret {A} (a : A) : keeps_best (ret a).
Proof. intros s r s' H. now inversion H. Qed.

Lemma keeps_lift {A} (r0 : result A) : keeps_best (lift r0).
Proof. intros s r s' H. now inversion H. Qed.

Lemma keeps_gets {A} (f : run_state -> A) : keeps_best (gets f).
Proof. intros s r s' H. now inversion H. Qed.

Lemma keeps_on_trace {A} (m : M (list event) A) : keeps_best (on_trace m).
Proof. intros s r s' H. now apply on_trace_best in H. Qed.

Lemma keeps_bind {A B} (m : M run_state A) (k : A -> M run_state B) :
  keeps_best m -> (forall a, keeps_best (k a)) -> keeps_best (bind m k).
Proof.
  intros Hm Hk s r s' H.
  destruct (bind_inv _ _ _ _ _ H) as [(a & s1 & H1 & H2) | (e & H1 & _)].
  - rewrite (Hk a _ _ _ H2). exact (Hm _ _ _ H1).
  - exact (Hm _ _ _ H1).
Qed.

Ltac keeps_steps :=
  repeat first
    [ apply keeps_ret | apply keeps_lift | apply keeps_gets
    | apply keeps_on_trace
    | apply keeps_bind; [| intros ?] ].

Lemma keeps_training_phase E L : keeps_best (training_phase E L).
Proof. unfold training_phase. keeps_steps. Qed.

Lemma keeps_evaluation_report E : keeps_best (evaluation_report E).
Proof. unfold evaluation_report. keeps_steps. Qed.

Lemma keeps_saving_phase E saved : keeps_best (saving_phase E saved).
Proof. unfold saving_phase. keeps_steps. destruct saved; keeps_steps. Qed.

Lemma keeps_advance E : keeps_best (advance E).
Proof.
  unfold advance. apply keeps_bind; [| intros _; apply keeps_on_trace].
  intros s r s' H. now inversion H.
Qed.

Lemma lowers_of_keeps {A} (m : M run_state A) : keeps_best m -> lowers_best m.
Proof.
  intros Hm s r s' H. rewrite (Hm _ _ _ H). apply best_kept_or_lowered_refl.
Qed.

Lemma lowers_after {A B} (m : M run_state A) (k : A -> M run_state B) :
  keeps_best m -> (forall a, lowers_best (k a)) -> lowers_best (bind m k).
Proof.
  intros Hm Hk s r s' H.
  destruct (bind_inv _ _ _ _ _ H) as [(a & s1 & H1 & H2) | (e & H1 & _)].
  - rewrite <- (Hm _ _ _ H1). exact (Hk a _ _ _ H2).
  - rewrite (Hm _ _ _ H1). apply best_kept_or_lowered_refl.
Qed.

Lemma lowers_before {A B} (m : M run_state A) (k : A -> M run_state B) :
  lowers_best m -> (forall a, keeps_best (k a)) -> lowers_best (bind m k).
Proof.
  intros Hm Hk s r s' H.
  destruct (bind_inv _ _ _ _ _ H) as [(a & s1 & H1 & H2) | (e & H1 & _)].
  - rewrite (Hk a _ _ _ H2). exact (Hm _ _ _ H1).
  - exact (Hm _ _ _ H1).
Qed.

Lemma lowers_record_best E rms : lowers_best (record_best E rms).
Proof.
  intros s r s' H. destruct (best_rms_metrics s) as [b |] eqn:Hb; simpl; [| trivial].
  destruct (fleb rms (reference rms s)) eqn:Hle.
  2:{ destruct (reference_state E rms s r s' Hle H) as [_ ->]. simpl.
      unfold reference. rewrite Hb. eauto. }
  assert (Hrb : fleb rms b = true) by (unfold reference in Hle; now rewrite Hb in Hle).
  assert (Hcases : best_rms_metrics s' = Some b \/ best_rms_metrics s' = Some rms).
  { unfold record_best in H.
    apply bind_inv in H. destruct H as [(epoch & s0 & H0 & H) | (e & H0 & _)];
      [| discriminate].
    inversion H0; subst epoch s0. clear H0.
    apply bind_inv in H. destruct H as [(before & s0 & H0 & H) | (e & H0 & _)];
      [| discriminate].
    inversion H0; subst before s0. clear H0.
    rewrite Hb in H.
    apply bind_inv in H. destruct H as [(u & s1 & H1 & H) | (e & H1 & _)];
      [| discriminate].
    inversion H1; subst u s1. clear H1. rewrite Hrb in H.
    apply bind_inv in H. destruct H as [(u & s1 & H1 & H) | (e & H1 & _)];
      apply on_trace_best in H1; destruct H1 as [B1 _];
      [| left; congruence].
    apply bind_inv in H. destruct H as [(u2 & s2 & H2 & H) | (e & H2 & _)];
      [| discriminate].
    inversion H2; subst u2 s2. clear H2.
    apply bind_inv in H. destruct H as [(u3 & s3 & H3 & H) | (e & H3 & _)];
      apply on_trace_best in H3; destruct H3 as [B3 _];
      [| right; now rewrite B3].
    apply bind_inv in H. destruct H as [(u4 & s4 & H4 & H) | (e & H4 & _)];
      apply on_trace_best in H4; destruct H4 as [B4 _];
      [| right; now rewrite B4, B3].
    inversion H; subst. right. now rewrite B4, B3. }
  destruct Hcases as [-> | ->]; eauto.
Qed.

Lemma lowers_epoch_body E L ev sv : lowers_best (epoch_body E L ev sv).
Proof.
  unfold epoch_body, after_training.
  apply lowers_after; [apply keeps_training_phase | intros _].
  apply lowers_after; [apply keeps_gets | intros epoch].
  apply lowers_after; [apply keeps_lift | intros r_eval].
  apply lowers_before.
  - destruct (r_eval =? 0); [| apply lowers_of_keeps, keeps_ret].
    unfold evaluating_phase.
    apply lowers_after; [apply keeps_evaluation_report | intros rms].
    apply lowers_record_best.
  - intros saved. apply keeps_bind; [apply keeps_lift | intros r_save].
    apply keeps_bind; [| intros _; apply keeps_advance].
    destruct (r_save =? 0); [apply keeps_saving_phase | apply keeps_ret].
Qed.

(** Once set, the best value stays set. *)
Lemma best_stays_set {A} (m : M run_state A) s r s' :
  lowers_best m -> m s = (r, s') ->
  best_rms_metrics s <> None -> best_rms_metrics s' <> None.
Proof.
  intros Hm H Hs. specialize (Hm _ _ _ H).
  destruct (best_rms_metrics s) as [b |]; [| congruence].
  destruct Hm as (b' & -> & _). discriminate.
Qed.

(** X6.  Over a run of the loop, however it ends, the best RMS is never
    replaced by a value that does not compare [<=] with it: once set it
    stays set, and its final value is its initial value or compares [<=]
    with it; an iteration that does not evaluate leaves it alone. *)
Theorem best_never_increases :
  forall (E : engine) (log_every eval_every save_every : Z) (n : nat)
         (s : run_state) (r : result unit) (s' : run_state),
    epochs E log_every eval_every save_every n s = (r, s') ->
    best_kept_or_lowered (best_rms_metrics s) (best_rms_metrics s') /\
    (forall s0 r0 s1,
        eval_every <> 0 ->
        epoch_number s0 mod eval_every <> 0 ->
        epoch_body E log_every eval_every save_every s0 = (r0, s1) ->
        best_rms_metrics s1 = best_rms_metrics s0).
Proof.
  intros E L ev sv n. split.
  - revert s r s' H. induction n as [| n IH]; intros s r s' H; simpl in H.
    + inversion H; subst. apply best_kept_or_lowered_refl.
    + apply bind_inv in H. destruct H as [(u & s1 & H1 & H) | (e & H1 & _)].
      * eapply best_kept_or_lowered_trans;
          [| exact (lowers_epoch_body E L ev sv _ _ _ H1) | exact (IH _ _ _ H)].
        exact (best_stays_set _ _ _ _ (lowers_epoch_body E L ev sv) H1).
      * exact (lowers_epoch_body E L ev sv _ _ _ H1).
  - intros s0 r0 s1 Hev Hmod Hb. revert s0 r0 s1 Hmod Hb.
    assert (Hk : forall s0 r0 s1,
               epoch_number s0 mod ev <> 0 ->
               epoch_body E L ev sv s0 = (r0, s1) ->
               best_rms_metrics s1 = best_rms_metrics s0); [| exact Hk].
    intros s0 r0 s1 Hmod Hb. unfold epoch_body in Hb.
    apply bind_inv in Hb. destruct Hb as [(u & t1 & H1 & Hb) | (e & H1 & _)].
    2:{ exact (keeps_training_phase E L _ _ _ H1). }
    pose proof (keeps_training_phase E L _ _ _ H1) as K1.
    destruct (training_phase_emits (fun _ => True) E L
                ltac:(intros; exact I) ltac:(intros; exact I) _ _ _ H1)
      as (E1 & _).
    rewrite <- K1. revert Hb. unfold after_training.
    rewrite (bind_step _ _ t1 (epoch_number t1) t1) by reflexivity.
    rewrite (py_mod_Ok _ ev Hev).
    rewrite (bind_step _ _ t1 (epoch_number t1 mod ev) t1) by reflexivity.
    rewrite E1. apply Z.eqb_neq in Hmod. rewrite Hmod.
    rewrite (bind_step _ _ t1 false t1) by reflexivity.
    intros Hb.
    assert (Hkeep : keeps_best
              (bind (lift (py_mod (epoch_number s0) sv))
                 (fun r_save =>
                    bind (if r_save =? 0 then saving_phase E false else ret tt)
                         (fun _ => advance E)))).
    { apply keeps_bind; [apply keeps_lift | intros r_save].
      apply keeps_bind; [| intros _; apply keeps_advance].
      destruct (r_save =? 0); [apply keeps_saving_phase | apply keeps_ret]. }
    exact (Hkeep _ _ _ Hb).
Qed.

Lemma best_never_increases_witness :
  best_kept_or_lowered (Some three)
    (best_rms_metrics
       (snd (epochs example_engine 2 1 1 2
               {| epoch_number := 1; best_rms_metrics := Some three; trace := [] |}))).
Proof.
  exact (proj1 (best_never_increases example_engine 2 1 1 2
                  {| epoch_number := 1; best_rms_metrics := Some three; trace := [] |}
                  (Ok tt)
                  (snd (epochs example_engine 2 1 1 2
                          {| epoch_number := 1; best_rms_metrics := Some three;
                             trace := [] |}))
                  ltac:(vm_compute; reflexivity))).
Defined.

(** ** The log of a training epoch *)

Lemma train_loop_app E epoch L n : forall a b loc i past loc1 past1,
  train_loop E epoch L n loc i a past = (Ok loc1, past1) ->
  train_loop E epoch L n loc i (a ++ b) past
  = train_loop E epoch L n loc1 (i + Z.of_nat (length a)) b past1.
Proof.
  induction a as [| x a IH]; intros b loc i past loc1 past1 H.
  - simpl in H. inversion H; subst. simpl. now rewrite Z.add_0_r.
  - simpl in H. bind_ok H. simpl app. simpl train_loop.
    rewrite (bind_step _ _ _ _ _ Hstep). rewrite (IH b _ _ _ _ _ H).
    f_equal. simpl length. lia.
Qed.

Lemma train_loop_inside E epoch L n : 0 < L -> forall c loc i past,
  c = [] \/ (0 < i mod L /\ i mod L + Z.of_nat (length c) <= L) ->
  train_loop E epoch L n loc i c past = (Ok (locals_after L loc i c), past).
Proof.
  intros HL. induction c as [| x c IH]; intros loc i past Hc; [reflexivity |].
  destruct Hc as [Hc | [Hi Hlen]]; [discriminate |].
  simpl length in Hlen. rewrite Nat2Z.inj_succ in Hlen.
  simpl train_loop.
  rewrite (bind_step _ _ past _ past
             (train_iteration_silent E epoch L n loc i x past
                ltac:(lia) ltac:(lia))).
  assert (Hnext : next_locals L loc i x
                  = {| running_loss := fadd (running_loss loc) x;
                       current_loss := x; mean_loss := mean_loss loc |}).
  { unfold next_locals.
    assert (Hne : (i mod L =? 0) = false) by (apply Z.eqb_neq; lia).
    now rewrite Hne. }
  simpl locals_after. rewrite Hnext. apply IH.
  destruct c as [| y c]; [now left | right].
  simpl length in *. rewrite Nat2Z.inj_succ in *.
  rewrite <- Zplus_mod_idemp_l, Z.mod_small by lia. lia.
Qed.

Lemma train_iteration_logs E epoch L n loc i x past :
  reliable E -> L <> 0 -> i mod L = 0 ->
  train_iteration E epoch L n loc i x past
  = (Ok (next_locals L loc i x),
     past ++ logging_events E epoch n (learning_rate E (scheduler_steps past)) i
               (fdiv (fadd (running_loss loc) x) (of_Z L))).
Proof.
  intros Hio HL Hi. unfold train_iteration, next_locals, logging_events.
  rewrite (bind_step _ _ past (i mod L) past)
    by (unfold lift; now rewrite py_mod_Ok).
  rewrite Hi. change (0 =? 0) with true. cbv iota.
  erewrite bind_step by reflexivity.
  erewrite bind_step by (unfold write_log_line; now apply emit_reliable).
  unfold log_scalar. destruct (has_summary_writer E).
  - erewrite bind_step by (now apply emit_reliable).
    unfold ret. now rewrite <- app_assoc.
  - erewrite bind_step by reflexivity. reflexivity.
Qed.

Lemma scheduler_steps_logging E epoch n lr i m past :
  scheduler_steps (past ++ logging_events E epoch n lr i m) = scheduler_steps past.
Proof.
  rewrite scheduler_steps_app. unfold logging_events, scheduler_steps.
  destruct (has_summary_writer E); simpl; apply Nat.add_0_r.
Qed.

Lemma train_loop_complete_interval E epoch L n c0 x loc i past :
  reliable E -> 0 < L ->
  (i - 1) mod L = 0 -> Z.of_nat (length c0) + 1 = L ->
  train_loop E epoch L n loc i (c0 ++ [x]) past
  = (Ok (locals_after L loc i (c0 ++ [x])),
     past ++ logging_events E epoch n (learning_rate E (scheduler_steps past))
               (i - 1 + L)
               (fdiv (fold_left fadd (c0 ++ [x]) (running_loss loc)) (of_Z L))).
Proof.
  intros Hio HL Hi Hlen.
  assert (Hin : c0 = [] \/ (0 < i mod L /\ i mod L + Z.of_nat (length c0) <= L)).
  { destruct c0 as [| y c0]; [now left | right].
    simpl length in *. rewrite Nat2Z.inj_succ in *.
    rewrite (boundary_next L i) by (lia || assumption). lia. }
  rewrite (train_loop_app E epoch L n c0 [x] loc i past _ _
             (train_loop_inside E epoch L n HL c0 loc i past Hin)).
  simpl train_loop.
  assert (Hb : (i + Z.of_nat (length c0)) mod L = 0).
  { replace (i + Z.of_nat (length c0)) with ((i - 1) + 1 * L) by lia.
    now rewrite Z.mod_add by lia. }
  rewrite (bind_step _ _ _ _ _
             (train_iteration_logs E epoch L n _ _ x past Hio ltac:(lia) Hb)).
  unfold ret. rewrite locals_after_app. simpl locals_after.
  destruct (locals_inside_interval L HL c0 loc i Hin) as [Hr _].
  rewrite Hr, fold_left_app. simpl fold_left.
  replace (i + Z.of_nat (length c0)) with (i - 1 + L) by lia. reflexivity.
Qed.

Lemma flat_map_shift {A} (f : nat -> list A) (a k : nat) :
  flat_map f (seq (S a) k) = flat_map (fun j => f (S j)) (seq a k).
Proof. rewrite <- seq_shift, !flat_map_concat_map, map_map. reflexivity. Qed.

Lemma flat_map_ext_in {A B} (f g : A -> list B) (l : list A) :
  (forall a, In a l -> f a = g a) -> flat_map f l = flat_map g l.
Proof.
  induction l as [| a l IH]; intros H; simpl; [reflexivity |].
  rewrite (H a) by now left. rewrite IH; [reflexivity |].
  intros b Hb. apply H. now right.
Qed.

(** [k] complete groups from a boundary. *)
Lemma train_loop_complete_intervals E epoch L n :
  reliable E -> 0 < L ->
  forall k l loc i past,
    (i - 1) mod L = 0 -> running_loss loc = zero ->
    length l = (k * Z.to_nat L)%nat ->
    train_loop E epoch L n loc i l past
    = (Ok (locals_after L loc i l),
       past ++ flat_map
                 (fun j => logging_events E epoch n
                             (learning_rate E (scheduler_steps past))
                             (i - 1 + Z.of_nat j * L) (interval_mean L l j))
                 (seq 1 k)).
Proof.
  intros Hio HL. induction k as [| k IH]; intros l loc i past Hi Hrun Hlen.
  - simpl in Hlen. apply length_zero_iff_nil in Hlen. subst l.
    simpl. unfold ret. now rewrite app_nil_r.
  - set (Ln := Z.to_nat L) in *.
    assert (HLn : (1 <= Ln)%nat) by (unfold Ln; lia).
    assert (Hf : length (firstn Ln l) = Ln)
      by (rewrite length_firstn; simpl in Hlen; lia).
    assert (Hs : length (skipn Ln l) = (k * Ln)%nat)
      by (rewrite length_skipn; simpl in Hlen; lia).
    destruct (split_last (firstn Ln l) (Ln - 1)) as (c0 & x & Hc & Hc0); [lia |].
    assert (Hchunk := train_loop_complete_interval E epoch L n c0 x loc i past
                        Hio HL Hi ltac:(unfold Ln in Hc0; lia)).
    rewrite <- Hc in Hchunk.
    rewrite <- (firstn_skipn Ln l) at 1 2.
    rewrite (train_loop_app E epoch L n _ (skipn Ln l) loc i past _ _ Hchunk).
    rewrite Hf.
    rewrite (IH (skipn Ln l) _ (i + Z.of_nat Ln) _).
    + rewrite scheduler_steps_logging, locals_after_app, Hf, <- app_assoc.
      do 2 f_equal.
      change (seq 1 (S k)) with (1%nat :: seq 2 k).
      cbn [flat_map]. f_equal.
      * unfold interval_mean. fold Ln. rewrite Hrun.
        change ((1 - 1) * Ln)%nat with 0%nat. simpl skipn.
        unfold fsum. f_equal. lia.
      * rewrite (flat_map_shift _ 1 k). apply flat_map_ext_in.
        intros j Hj. apply in_seq in Hj. f_equal.
        -- rewrite Nat2Z.inj_succ. unfold Ln. lia.
        -- unfold interval_mean. fold Ln. rewrite skipn_skipn.
           do 4 f_equal. destruct j as [| j]; [lia |].
           replace (S j - 1)%nat with j by lia.
           replace (S (S j) - 1)%nat with (S j) by lia.
           rewrite Nat.mul_succ_l. reflexivity.
    + replace (i + Z.of_nat Ln - 1) with ((i - 1) + 1 * L) by (unfold Ln; lia).
      now rewrite Z.mod_add by lia.
    + rewrite Hc, (locals_complete_interval L HL c0 x loc i Hi)
        by (unfold Ln in Hc0; lia).
      reflexivity.
    + exact Hs.
Qed.

Lemma interval_mean_firstn L losses k j :
  (1 <= j <= k)%nat ->
  interval_mean L (firstn (k * Z.to_nat L) losses) j = interval_mean L losses j.
Proof.
  intros Hj. unfold interval_mean. do 2 f_equal.
  rewrite !firstn_skipn_comm, firstn_firstn. do 2 f_equal.
  apply Nat.min_l.
  replace ((j - 1) * Z.to_nat L + Z.to_nat L)%nat with (j * Z.to_nat L)%nat.
  - apply Nat.mul_le_mono_r. lia.
  - destruct j as [| j]; [lia |].
    replace (S j - 1)%nat with j by lia. now rewrite Nat.mul_succ_l.
Qed.

(** X7.  With sinks that do not fail and a positive [log_every],
    [train_single_epoch] appends exactly the log of its complete groups of
    [log_every] batches: for the [j]-th group one progress line at batch
    [j * log_every], followed by one scalar of the series
    ["train/" + loss name] at index [(epoch-1)*n + j*log_every] when a summary
    writer is present, both carrying the mean of that group's losses and the
    learning rate at entry.  The batches after the last complete group leave
    no trace.  The call returns the mean of the last complete group when
    there is one, and raises [UnboundLocalError] otherwise. *)
Theorem training_epoch_log :
  forall (E : engine) (epoch_number log_every : Z) (losses : list float)
         (past : list event),
    reliable E -> 0 < log_every ->
    train_single_epoch E epoch_number log_every losses past
    = (if log_every <=? Z.of_nat (length losses)
       then Ok (interval_mean log_every losses
                  (length losses / Z.to_nat log_every))
       else Raise (UnboundLocalError "mean_loss"),
       past ++ epoch_log E epoch_number log_every
                 (learning_rate E (scheduler_steps past)) losses).
Proof.
  intros E epoch L losses past Hio HL.
  unfold train_single_epoch, epoch_log.
  set (start := {| running_loss := zero; current_loss := zero;
                   mean_loss := None |}).
  set (n := length losses).
  set (Ln := Z.to_nat L).
  assert (HLn : (1 <= Ln)%nat) by (unfold Ln; lia).
  assert (HLz : Z.of_nat Ln = L) by (unfold Ln; lia).
  set (k := (n / Ln)%nat).
  assert (Hle : (k * Ln <= n)%nat).
  { unfold k. rewrite Nat.mul_comm. apply Nat.Div0.mul_div_le. }
  assert (Hrem : (n - k * Ln < Ln)%nat).
  { unfold k. pose proof (Nat.div_mod_eq n Ln) as Hd.
    pose proof (Nat.mod_upper_bound n Ln ltac:(lia)) as Hm.
    rewrite (Nat.mul_comm (n / Ln) Ln). lia. }
  assert (Hfl : length (firstn (k * Ln) losses) = (k * Ln)%nat)
    by (rewrite length_firstn; fold n; lia).
  assert (Hsl : length (skipn (k * Ln) losses) = (n - k * Ln)%nat)
    by (rewrite length_skipn; reflexivity).
  pose proof (train_loop_complete_intervals E epoch L (Z.of_nat n) Hio HL k
                (firstn (k * Ln) losses) start 1 past
                ltac:(now rewrite Z.sub_diag, Z.mod_0_l by lia) eq_refl Hfl)
    as Hgroups.
  assert (Hkz : Z.of_nat (k * Ln) = Z.of_nat k * L)
    by (rewrite Nat2Z.inj_mul, HLz; reflexivity).
  assert (Hrun : train_loop E epoch L (Z.of_nat n) start 1 losses past
                 = (Ok (locals_after L start 1 losses),
                    past ++ flat_map
                      (fun j => logging_events E epoch (Z.of_nat n)
                                  (learning_rate E (scheduler_steps past))
                                  (Z.of_nat j * L) (interval_mean L losses j))
                      (seq 1 k))).
  { rewrite <- (firstn_skipn (k * Ln) losses) at 1 2.
    rewrite (train_loop_app _ _ _ _ _ (skipn (k * Ln) losses) _ _ _ _ _ Hgroups).
    rewrite train_loop_inside; [| exact HL |].
    - rewrite <- locals_after_app. do 2 f_equal.
      apply flat_map_ext_in. intros j Hj. apply in_seq in Hj.
      fold Ln. rewrite interval_mean_firstn by lia.
      f_equal; lia.
    - rewrite Hfl, Hsl, Hkz.
      destruct (Z.eq_dec L 1) as [HL1 | HL1].
      + left. apply length_zero_iff_nil. rewrite Hsl. lia.
      + right.
        rewrite Z.mod_add by lia. rewrite Z.mod_small by lia. lia. }
  rewrite (bind_step _ _ _ _ _ Hrun). subst start. cbv beta.
  destruct (L <=? Z.of_nat n) eqn:Hcmp.
  - apply Z.leb_le in Hcmp.
    rewrite (locals_after_epoch L losses HL Hcmp). reflexivity.
  - apply Z.leb_gt in Hcmp.
    assert (Hk0 : k = 0%nat).
    { unfold k. apply Nat.div_small. lia. }
    destruct (locals_inside_interval L HL losses
                {| running_loss := zero; current_loss := zero;
                   mean_loss := None |} 1) as [_ Hmean].
    { destruct (Z.eq_dec L 1) as [HL1 | HL1].
      - left. apply length_zero_iff_nil. fold n. lia.
      - right. rewrite Z.mod_small by lia. fold n. lia. }
    rewrite Hmean. reflexivity.
Qed.

Lemma training_epoch_log_witness :
  train_single_epoch example_engine 2 2 [one; two; three; one; three] []
  = (Ok two,
     [LogLine (TrainProgress 2 2 half (fdiv three two)) false;
      AddScalar "train/MSELoss" (fdiv three two) 7;
      LogLine (TrainProgress 2 4 half two) false;
      AddScalar "train/MSELoss" two 9]).
Proof.
  rewrite (training_epoch_log example_engine 2 2 [one; two; three; one; three] []
             (fun _ _ => eq_refl) ltac:(lia)).
  vm_compute. reflexivity.
Defined.

(** ** The means of an evaluation epoch *)

Lemma od_set_named {V} (f : metric -> V) d m :
  od_set (named f d) (metric_name m) (f m) = named f (rep_set d m).
Proof.
  induction d as [| m0 d IH]; cbn [named map od_set rep_set]; [reflexivity |].
  destruct (String.eqb (metric_name m0) (metric_name m)) eqn:He.
  - apply String.eqb_eq in He. cbn [map]. now rewrite He.
  - cbn [map]. f_equal. exact IH.
Qed.

Lemma od_of_pairs_named {V} (f : metric -> V) ms :
  od_of_pairs (named f ms) = named f (representatives ms).
Proof.
  unfold od_of_pairs, representatives.
  change (@nil (string * V)) with (named f []).
  generalize (@nil metric).
  induction ms as [| m ms IH]; intros d; [reflexivity |].
  cbn [named map fold_left fst snd].
  rewrite od_set_named. apply IH.
Qed.

Lemma rep_set_names d m k :
  In k (map metric_name (rep_set d m))
  <-> In k (map metric_name d) \/ k = metric_name m.
Proof.
  induction d as [| m0 d IH]; cbn [rep_set map].
  - simpl. intuition congruence.
  - destruct (String.eqb (metric_name m0) (metric_name m)) eqn:He.
    + apply String.eqb_eq in He. cbn [map In]. rewrite He. intuition congruence.
    + cbn [map In]. rewrite IH. intuition congruence.
Qed.

Lemma rep_set_NoDup d m :
  NoDup (map metric_name d) -> NoDup (map metric_name (rep_set d m)).
Proof.
  induction d as [| m0 d IH]; cbn [rep_set map]; intros Hnd.
  - constructor; [intros [] | constructor].
  - inversion Hnd as [| ? ? Hnot Hnd']; subst.
    destruct (String.eqb (metric_name m0) (metric_name m)) eqn:He.
    + apply String.eqb_eq in He. cbn [map]. rewrite <- He. now constructor.
    + apply String.eqb_neq in He. cbn [map]. constructor; [| now apply IH].
      rewrite rep_set_names. intros [Hin | Heq]; [now apply Hnot | now apply He].
Qed.

Lemma representatives_NoDup ms : NoDup (map metric_name (representatives ms)).
Proof.
  unfold representatives.
  assert (H : forall d, NoDup (map metric_name d) ->
                        NoDup (map metric_name (fold_left rep_set ms d))).
  { induction ms as [| m ms IH]; intros d Hd; [exact Hd |].
    cbn [fold_left]. apply IH. now apply rep_set_NoDup. }
  apply H. constructor.
Qed.

Lemma rep_set_fresh d m :
  ~ In (metric_name m) (map metric_name d) -> rep_set d m = d ++ [m].
Proof.
  induction d as [| m0 d IH]; cbn [rep_set map In app]; intros Hnot;
    [reflexivity |].
  destruct (String.eqb (metric_name m0) (metric_name m)) eqn:He.
  - apply String.eqb_eq in He. exfalso. apply Hnot. now left.
  - f_equal. apply IH. intros Hin. apply Hnot. now right.
Qed.

(** Metrics of distinct names are their own representatives. *)
Lemma representatives_distinct ms :
  NoDup (map metric_name ms) -> representatives ms = ms.
Proof.
  unfold representatives.
  assert (H : forall d, NoDup (map metric_name (d ++ ms)) ->
                        fold_left rep_set ms d = d ++ ms).
  { induction ms as [| m ms IH]; intros d Hd.
    - simpl. now rewrite app_nil_r.
    - cbn [fold_left]. rewrite rep_set_fresh.
      + rewrite IH; rewrite <- app_assoc; [reflexivity | exact Hd].
      + rewrite map_app in Hd. cbn [map] in Hd.
        apply NoDup_remove_2 in Hd. intros Hin. apply Hd.
        apply in_or_app. now left. }
  intros Hnd. now apply (H []).
Qed.

Lemma same_name_same_metric rs a b :
  NoDup (map metric_name rs) -> In a rs -> In b rs ->
  metric_name a = metric_name b -> a = b.
Proof.
  induction rs as [| m rs IH]; intros Hnd Ha Hb Heq; [destruct Ha |].
  inversion Hnd as [| ? ? Hnot Hnd']; subst.
  destruct Ha as [-> | Ha], Hb as [-> | Hb].
  - reflexivity.
  - exfalso. apply Hnot. rewrite Heq. now apply in_map.
  - exfalso. apply Hnot. rewrite <- Heq. now apply in_map.
  - now apply IH.
Qed.

Lemma od_get_named {V} (f : metric -> V) rs m :
  NoDup (map metric_name rs) -> In m rs ->
  od_get (named f rs) (metric_name m) = Some (f m).
Proof.
  induction rs as [| m0 rs IH]; intros Hnd Hin; [destruct Hin |].
  inversion Hnd as [| ? ? Hnot Hnd']; subst.
  cbn [named map od_get].
  destruct (String.eqb (metric_name m0) (metric_name m)) eqn:He.
  - apply String.eqb_eq in He.
    destruct Hin as [-> | Hin]; [reflexivity |].
    exfalso. apply Hnot. rewrite He. now apply in_map.
  - destruct Hin as [-> | Hin].
    + rewrite String.eqb_refl in He. discriminate.
    + now apply IH.
Qed.

Lemma od_set_member {V} (f : metric -> V) rs m v :
  NoDup (map metric_name rs) -> In m rs ->
  od_set (named f rs) (metric_name m) v
  = named (fun m' => if String.eqb (metric_name m') (metric_name m)
                     then v else f m') rs.
Proof.
  induction rs as [| m0 rs IH]; intros Hnd Hin; [destruct Hin |].
  inversion Hnd as [| ? ? Hnot Hnd']; subst.
  cbn [named map od_set].
  destruct (String.eqb (metric_name m0) (metric_name m)) eqn:He.
  - f_equal. apply map_ext_in. intros m' Hm'.
    destruct (String.eqb (metric_name m') (metric_name m)) eqn:He';
      [| reflexivity].
    apply String.eqb_eq in He, He'. exfalso. apply Hnot.
    rewrite He, <- He'. now apply in_map.
  - f_equal. apply IH; [exact Hnd' |].
    destruct Hin as [-> | Hin]; [| exact Hin].
    rewrite String.eqb_refl in He. discriminate.
Qed.

Lemma named_ext_in {V} (f g : metric -> V) rs :
  (forall m, In m rs -> f m = g m) -> named f rs = named g rs.
Proof.
  intros H. apply map_ext_in. intros m Hm. now rewrite (H m Hm).
Qed.

Lemma name_listed rs m :
  existsb (fun m' => String.eqb (metric_name m') (metric_name m)) rs = true ->
  In (metric_name m) (map metric_name rs).
Proof.
  intros H. apply existsb_exists in H. destruct H as (m' & Hin & He).
  apply String.eqb_eq in He. rewrite <- He. now apply in_map.
Qed.

(** Lines 137-138 on dictionaries over the same metrics. *)
Lemma extend_all_named rs (v : metric -> list float) :
  NoDup (map metric_name rs) ->
  forall rs' acc,
    NoDup (map metric_name rs') -> incl rs' rs ->
    extend_all (named acc rs) (named v rs')
    = Ok (named (fun m =>
                   if existsb (fun m' => String.eqb (metric_name m')
                                           (metric_name m)) rs'
                   then acc m ++ v m else acc m) rs).
Proof.
  intros Hnd. induction rs' as [| m0 rs' IH]; intros acc Hnd' Hincl.
  - reflexivity.
  - inversion Hnd' as [| ? ? Hnot Hnd'']; subst.
    assert (Hm0 : In m0 rs) by (apply Hincl; now left).
    cbn [named map extend_all]. unfold od_extend.
    rewrite (od_get_named acc rs m0 Hnd Hm0).
    rewrite (od_set_member acc rs m0 _ Hnd Hm0).
    cbn [bind_result].
    change (map (fun m => (metric_name m, v m)) rs') with (named v rs').
    rewrite IH; [| exact Hnd'' | intros m Hm; apply Hincl; now right].
    f_equal. apply named_ext_in. intros m Hm. cbn [existsb].
    destruct (String.eqb (metric_name m) (metric_name m0)) eqn:He.
    + apply String.eqb_eq in He.
      assert (m = m0) by (now apply (same_name_same_metric rs)). subst m.
      rewrite String.eqb_refl. cbn [orb].
      destruct (existsb _ rs') eqn:Hex; [| reflexivity].
      exfalso. apply Hnot. now apply name_listed.
    + rewrite String.eqb_sym, He. reflexivity.
Qed.

Lemma extend_all_same rs (acc v : metric -> list float) :
  NoDup (map metric_name rs) ->
  extend_all (named acc rs) (named v rs)
  = Ok (named (fun m => acc m ++ v m) rs).
Proof.
  intros Hnd.
  rewrite (extend_all_named rs v Hnd rs acc Hnd (incl_refl rs)).
  f_equal. apply named_ext_in. intros m Hm.
  assert (Hex : existsb (fun m' => String.eqb (metric_name m') (metric_name m)) rs
                = true).
  { apply existsb_exists. exists m. split; [exact Hm | apply String.eqb_refl]. }
  now rewrite Hex.
Qed.

Lemma evaluate_one_batch_named E epoch b :
  evaluate_one_batch E epoch b
  = named (fun m => scores m epoch b) (representatives (evaluation_metrics E)).
Proof.
  unfold evaluate_one_batch.
  exact (od_of_pairs_named (fun m => scores m epoch b) (evaluation_metrics E)).
Qed.

(** Lines 132-138: every batch extends every list, and [metric_results] is
    the dictionary of the last batch. *)
Lemma evaluation_loop_named E epoch :
  forall bs acc last,
    evaluation_loop E epoch
      (named acc (representatives (evaluation_metrics E))) last bs
    = Ok (named (fun m => acc m ++ concat (map (scores m epoch) bs))
            (representatives (evaluation_metrics E)),
          fold_left (fun _ b => Some (evaluate_one_batch E epoch b)) bs last).
Proof.
  induction bs as [| b bs IH]; intros acc last.
  - cbn [evaluation_loop fold_left map concat]. do 2 f_equal.
    apply named_ext_in. intros m _. now rewrite app_nil_r.
  - cbn [evaluation_loop fold_left]. cbv zeta.
    rewrite (evaluate_one_batch_named E epoch b) at 1.
    rewrite extend_all_same by apply representatives_NoDup.
    cbn [bind_result]. rewrite IH. do 2 f_equal.
    apply named_ext_in. intros m _. cbn [map concat].
    now rewrite app_assoc.
Qed.

(** Lines 140-143. *)
Lemma reduce_metrics_named rs (f : metric -> list float) :
  NoDup (map metric_name rs) ->
  forall rs', incl rs' rs ->
    reduce_metrics (named f rs) (map metric_name rs')
    = Ok (named (fun m => nanmean (f m)) rs').
Proof.
  intros Hnd. induction rs' as [| m rs' IH]; intros Hincl; [reflexivity |].
  cbn [map reduce_metrics].
  rewrite (od_get_named f rs m Hnd) by (apply Hincl; now left).
  rewrite IH by (intros m' Hm'; apply Hincl; now right).
  reflexivity.
Qed.

Lemma named_keys {V} (f : metric -> V) rs :
  map fst (named f rs) = map metric_name rs.
Proof. unfold named. rewrite map_map. reflexivity. Qed.

Lemma evaluation_loop_epoch E epoch n :
  evaluation_loop E epoch
    (od_of_pairs (map (fun m => (metric_name m, @nil float))
                    (evaluation_metrics E)))
    None (seq 0 (S n))
  = Ok (named (epoch_scores_upto E epoch (S n))
          (representatives (evaluation_metrics E)),
        Some (evaluate_one_batch E epoch n)).
Proof.
  change (map (fun m => (metric_name m, @nil float)) (evaluation_metrics E))
    with (named (fun _ : metric => @nil float) (evaluation_metrics E)).
  rewrite od_of_pairs_named, evaluation_loop_named.
  f_equal. f_equal. rewrite seq_S, fold_left_app. reflexivity.
Qed.

(** X8.  An [evaluate_single_epoch] that returns has seen at least one
    batch, returns the dictionary built from the pairs (metric name,
    [nanmean] of all the scalars that metric yielded, batch after batch), and
    has performed one effect, the visual of the epoch.  The accesses
    [all_metric_results[key]] of lines 138 and 142 find their keys, whatever
    the names of the metrics.  For metrics of distinct names the result
    lists one mean per metric, in the order of the metrics; of metrics that
    share a name the last one supplies the scalars. *)
Theorem evaluation_means :
  forall (E : engine) (epoch : Z) (past : list event),
    (forall means past',
        evaluate_single_epoch E epoch past = (Ok means, past') ->
        (1 <= evaluation_batches E epoch)%nat /\
        means = epoch_means E epoch /\
        past' = past ++ [LogVisuals "Evaluation" epoch]) /\
    (forall n, exists all pairs,
        evaluation_loop E epoch
          (od_of_pairs (map (fun m => (metric_name m, @nil float))
                          (evaluation_metrics E)))
          None (seq 0 (S n))
        = Ok (all, Some (evaluate_one_batch E epoch n)) /\
        reduce_metrics all (map fst (evaluate_one_batch E epoch n))
        = Ok pairs) /\
    (NoDup (map metric_name (evaluation_metrics E)) ->
     epoch_means E epoch
     = map (fun m => (metric_name m, nanmean (epoch_scores E epoch m)))
         (evaluation_metrics E)).
Proof.
  intros E epoch past. split; [| split].
  - intros means past' H.
    unfold evaluate_single_epoch in H. cbv zeta in H.
    assert (Hs : epoch_scores E epoch
                 = epoch_scores_upto E epoch (evaluation_batches E epoch))
      by reflexivity.
    destruct (evaluation_batches E epoch) as [| n] eqn:Hb;
      [simpl in H; discriminate H |].
    erewrite bind_step in H
      by (unfold lift; rewrite evaluation_loop_epoch; reflexivity).
    cbn [fst snd] in H.
    rewrite evaluate_one_batch_named, named_keys in H.
    erewrite bind_step in H
      by (unfold lift;
          rewrite (reduce_metrics_named _ _ (representatives_NoDup _) _
                     (incl_refl _));
          reflexivity).
    rewrite od_of_pairs_named,
      (representatives_distinct _ (representatives_NoDup _)),
      <- od_of_pairs_named in H.
    unfold log_visuals, emit, bind, ret in H.
    destruct (io_fails E past (LogVisuals "Evaluation" epoch));
      inversion H; subst.
    split; [lia |]. split; [| reflexivity].
    unfold epoch_means. now rewrite Hs.
  - intros n. rewrite evaluation_loop_epoch. eexists _, _.
    split; [reflexivity |].
    rewrite evaluate_one_batch_named, named_keys.
    apply (reduce_metrics_named _ _ (representatives_NoDup _) _ (incl_refl _)).
  - intros Hnd. unfold epoch_means.
    rewrite od_of_pairs_named, (representatives_distinct _ Hnd). reflexivity.
Qed.

Lemma evaluation_means_witness :
  [("mse", two)] = epoch_means shadowed_engine 1 /\
  [LogVisuals "Evaluation" 1] = [] ++ [LogVisuals "Evaluation" 1].
Proof.
  destruct (proj1 (evaluation_means shadowed_engine 1 [])
              [("mse", two)] [LogVisuals "Evaluation" 1] eq_refl)
    as (_ & Hm & Hp).
  split; [exact Hm | exact Hp].
Defined.

(** ** The unknown region and unfit conditioning pixels *)

Lemma blend_unknown x c mask r p xv cv :
  blend x c mask = Ok r ->
  nth_error mask p = Some true ->
  nth_error c p = Some cv -> is_finite cv = true ->
  nth_error x p = Some xv -> valid xv = true ->
  exists v, nth_error r p = Some v /\ kept xv v.
Proof.
  intros H Hm Hc Hf Hx Hv.
  rewrite (blend_nth _ _ _ _ _ _ _ _ H Hm Hc Hx).
  eexists. split; [reflexivity |].
  change (fsub one (mask_value true)) with (S754_zero false).
  change (mask_value true) with one.
  rewrite (fmul_one_r xv Hv).
  destruct (fmul_zero_r cv false Hf) as [s' Hz]. rewrite Hz.
  apply fadd_zero_r.
Qed.

(** The conditioning pixels the arithmetic of the blend cannot carry: a NaN
    anywhere, an infinity where the mask is true. *)
Lemma blend_poisoned x c mask r p cv m :
  blend x c mask = Ok r ->
  nth_error mask p = Some m ->
  nth_error c p = Some cv ->
  is_nan cv = true \/ (m = true /\ is_finite cv = false) ->
  nth_error r p = Some nan.
Proof.
  intros H Hm Hc Hbad.
  assert (Hp : (p < length mask)%nat) by (apply nth_error_Some; congruence).
  destruct (blend_defined _ _ _ _ p H Hp) as [xv Hx].
  rewrite (blend_nth _ _ _ _ _ _ _ _ H Hm Hc Hx). f_equal.
  assert (Hn : fmul cv (fsub one (mask_value m)) = nan).
  { destruct Hbad as [Hn | [-> Hn]].
    - destruct cv; try discriminate. reflexivity.
    - destruct cv; try discriminate; reflexivity. }
  rewrite Hn. apply fadd_nan_r.
Qed.

(** What holds of every blend holds of the working image from the first
    boundary on. *)
Lemma loop_blended {MS} (refinement_step : refine_fn MS) sched cond_image mask
    (P : tensor -> Prop) :
  (forall x r, blend x cond_image mask = Ok r -> P r) ->
  forall range img s out s',
    refinement_loop refinement_step sched cond_image mask img range s
    = (Ok out, s') ->
    P img -> P out.
Proof.
  intros HP. induction range as [| i range IH]; intros img s out s' H Himg;
    simpl in H.
  - inversion H; subst. exact Himg.
  - bind_ok H. eapply IH; [exact H |].
    unfold refinement_iteration in Hstep. bind_ok Hstep. bind_ok Hstep.
    apply lift_inv in Hstep. destruct Hstep as [Hb _]. eapply HP; eauto.
Qed.

(** X9.  Where the mask is true and the conditioning pixel is finite, the
    expression of lines 160 and 171 yields the pixel of its first operand
    (a [-0.0] may come out as [+0.0]); and the image an iteration of the
    sweep returns is that expression on what the refinement step returned
    for the coefficients of its index, so that its pixel there is the
    model's. *)
Theorem unknown_region_from_model :
  forall (MS : Type) (refinement_step : refine_fn MS) (sched : NoiseSchedule)
         (cond_image : tensor) (mask : list bool) (p : nat) (c : float),
    nth_error mask p = Some true ->
    nth_error cond_image p = Some c ->
    is_finite c = true ->
    (forall x r xv,
        blend x cond_image mask = Ok r ->
        nth_error x p = Some xv -> valid xv = true ->
        exists v, nth_error r p = Some v /\ kept xv v) /\
    (forall img i s next s',
        refinement_iteration refinement_step sched cond_image mask img i s
        = (Ok next, s') ->
        exists ag candidate,
          schedule_at sched (length sched - (i + 1)) = Ok ag /\
          refinement_step img cond_image (fst ag) (snd ag) (model_state s)
          = (Ok candidate, model_state s') /\
          blend candidate cond_image mask = Ok next /\
          forall xv, nth_error candidate p = Some xv -> valid xv = true ->
                     exists v, nth_error next p = Some v /\ kept xv v).
Proof.
  intros MS refinement_step sched cond_image mask p c Hm Hc Hf.
  assert (Hblend : forall x r xv,
             blend x cond_image mask = Ok r ->
             nth_error x p = Some xv -> valid xv = true ->
             exists v, nth_error r p = Some v /\ kept xv v).
  { intros x r xv H Hx Hv. eapply blend_unknown; eauto. }
  split; [exact Hblend |].
  intros img i s next s' H. unfold refinement_iteration in H.
  bind_ok H. bind_ok H.
  apply lift_inv in Hstep. destruct Hstep as [Hag Hs]. subst s0.
  apply call_Ok in Hstep0. destruct Hstep0 as (ms' & Hcall & Hs1).
  apply lift_inv in H. destruct H as [Hb Hs']. subst s' s1.
  exists a, a0. repeat split; try assumption.
  intros xv Hx Hv. eapply Hblend; eauto.
Qed.

Lemma unknown_region_from_model_witness :
  blend [three; three] [one; two] [false; true] = Ok [one; three] /\
  exists v, nth_error [one; three] 1 = Some v /\ kept three v.
Proof.
  split; [reflexivity |].
  exact (proj1 (unknown_region_from_model unit conditioning_refinement
                  [(half, half)] [one; two] [false; true] 1 two
                  eq_refl eq_refl eq_refl)
               [three; three] [one; three] three eq_refl eq_refl eq_refl).
Defined.

(** X10.  A conditioning pixel that is NaN, or that is infinite at a
    position where the mask is true, makes the pixel of the working image
    NaN at every boundary of the sweep and in the result of
    [infer_one_batch], whatever the model returns there. *)
Theorem unfit_conditioning_poisons :
  forall (MS : Type) (refinement_step : refine_fn MS) (sched : NoiseSchedule)
         (noise cond_image : tensor) (mask : list bool) (p : nat) (c : float)
         (m : bool),
    nth_error mask p = Some m ->
    nth_error cond_image p = Some c ->
    is_nan c = true \/ (m = true /\ is_finite c = false) ->
    (forall k s img s',
        infer_iterations refinement_step sched noise cond_image mask k s
        = (Ok img, s') ->
        nth_error img p = Some nan) /\
    (forall s img s',
        infer_one_batch refinement_step sched noise cond_image mask s
        = (Ok img, s') ->
        nth_error img p = Some nan).
Proof.
  intros MS refinement_step sched noise cond_image mask p c m Hm Hc Hbad.
  assert (Hk : forall k s img s',
             infer_iterations refinement_step sched noise cond_image mask k s
             = (Ok img, s') ->
             nth_error img p = Some nan).
  { intros k s img s' H. unfold infer_iterations in H. bind_ok H.
    apply lift_inv in Hstep. destruct Hstep as [Hb _].
    eapply (loop_blended refinement_step sched cond_image mask
              (fun img => nth_error img p = Some nan)); [| exact H |].
    - intros x r Hr. eapply blend_poisoned; eauto.
    - eapply blend_poisoned; eauto. }
  split; [exact Hk |].
  intros s img s' H. exact (Hk _ _ _ _ H).
Qed.

Lemma unfit_conditioning_poisons_witness :
  infer_one_batch (constant_refinement one) [(half, half); (one, two)]
    [half; half] [one; pinf] [false; true] (fresh tt)
  = (Ok [one; nan],
     {| model_state := tt;
        calls := [ {| rc_index := 1; rc_alpha := one; rc_gamma := two |};
                   {| rc_index := 0; rc_alpha := half; rc_gamma := half |} ] |})
  /\ nth_error [one; nan] 1 = Some nan.
Proof.
  split; [reflexivity |].
  exact (proj2 (unfit_conditioning_poisons unit (constant_refinement one)
                  [(half, half); (one, two)] [half; half] [one; pinf]
                  [false; true] 1 pinf true eq_refl eq_refl
                  (or_intror (conj eq_refl eq_refl)))
               (fresh tt) [one; nan] _ eq_refl).
Defined.

(** ** The calls of a sweep that is cut short *)

(** X11.  Whatever the outcome of [infer_one_batch], the invocations of the
    refinement step are an initial part of the descending sweep: the model
    that records its own invocations has recorded at most [T] of them, with
    the pairs of the schedule from its last entry on, never out of order and
    never repeated.  A run that returns has made all [T]; a run cut short
    by an exception has made the invocations up to the one that raised, or
    whose result could not be blended, and none (with the model's state
    untouched) if the start image could not be formed.  The recording model
    runs as the model it records. *)
Theorem refinement_calls_prefix :
  forall (MS : Type) (refinement_step : refine_fn MS) (sched : NoiseSchedule)
         (noise cond_image : tensor) (mask : list bool)
         (s : observed (list invocation * MS) refine_call)
         (r : result tensor)
         (s' : observed (list invocation * MS) refine_call),
    infer_one_batch (recording refinement_step) sched noise cond_image mask s
    = (r, s') ->
    exists k made,
      (k <= length sched)%nat /\
      invocations s' = invocations s ++ made /\
      map given_coefficients made = firstn k (rev sched) /\
      Forall (fun v => given_cond_image v = cond_image) made /\
      calls s' = calls s ++ firstn k (descending_calls sched) /\
      (forall img, r = Ok img -> k = length sched) /\
      (forall start e, blend noise cond_image mask = Ok start ->
                       r = Raise e -> (1 <= k)%nat) /\
      (forall e, blend noise cond_image mask = Raise e ->
                 r = Raise e /\ s' = s) /\
      infer_one_batch refinement_step sched noise cond_image mask
        (unrecorded s) = (r, unrecorded s').
Proof.
  intros MS refinement_step sched noise cond_image mask s r s' H.
  destruct (infer_recorded refinement_step sched cond_image mask noise s r s' H)
    as (k & made & Hk & Hm & Hco & Hcond & Hc & Hok & Hraise & Hstart & Hu).
  exists k, made.
  split; [exact Hk |]. split; [exact Hm |]. split; [exact Hco |].
  split; [exact Hcond |]. split; [exact Hc |]. split; [exact Hok |].
  split; [exact Hraise |]. split; [exact Hstart | exact Hu].
Qed.

Lemma refinement_calls_prefix_witness :
  exists k made,
    (k <= 2)%nat /\
    [ {| given_image := [half]; given_cond_image := [one];
         given_alpha := one; given_gamma := two |} ] = [] ++ made /\
    map given_coefficients made = firstn k [(one, two); (half, half)].
Proof.
  destruct (refinement_calls_prefix unit refinement_step_stub
              [(half, half); (one, two)] [half] [one] [true] (fresh ([], tt))
              _ _ eq_refl) as (k & made & Hk & Hm & Hco & _).
  exists k, made. split; [exact Hk |]. split; [exact Hm | exact Hco].
Defined.

(** X12.  The refinement step of the placeholder class raises, so with the
    placeholder [infer_one_batch] on images of one size raises at its first
    call, the one that reads the last entry of the schedule, and leaves the
    model's state as it was; only with an empty schedule does it return, and
    then the masked noise it started from, without any call. *)
Theorem placeholder_refinement_raises :
  forall (MS : Type) (sched : NoiseSchedule) (noise cond_image : tensor)
         (mask : list bool) (s : observed MS refine_call),
    length noise = length cond_image ->
    length mask = length cond_image ->
    (sched <> [] ->
     infer_one_batch refinement_step_stub sched noise cond_image mask s
     = (Raise (ModelError "Must define a refinement step!"),
        {| model_state := model_state s;
           calls := calls s ++ [call_at sched (length sched - 1)] |})) /\
    (sched = [] ->
     exists start,
       blend noise cond_image mask = Ok start /\
       infer_one_batch refinement_step_stub sched noise cond_image mask s
       = (Ok start, s)).
Proof.
  intros MS sched noise cond_image mask s Hn Hm.
  destruct (blend_total noise cond_image mask) as [start Hb]; [lia | lia |].
  split.
  - intros Hne. unfold infer_one_batch, infer_iterations.
    rewrite (bind_step _ _ s start s) by (unfold lift; now rewrite Hb).
    destruct sched as [| ag0 sched0]; [congruence |].
    set (sched := ag0 :: sched0).
    change (length sched) with (S (length sched0)).
    cbn [seq refinement_loop].
    apply bind_raise. unfold refinement_iteration.
    destruct (nth_error_defined sched (length sched - (0 + 1))) as [ag Hag];
      [simpl; lia |].
    assert (Hnth : ag = nth (length sched - (0 + 1)) sched (zero, zero))
      by (symmetry; now apply nth_error_nth).
    rewrite (bind_step _ _ s ag s)
      by (unfold lift, schedule_at; now rewrite Hag).
    apply bind_raise. unfold call, refinement_step_stub, raise.
    f_equal. f_equal. f_equal. unfold call_at.
    replace (S (length sched0) - 1)%nat with (length sched - (0 + 1))%nat
      by (simpl; lia).
    now rewrite <- Hnth.
  - intros ->. exists start. split; [exact Hb |].
    unfold infer_one_batch, infer_iterations.
    rewrite (bind_step _ _ s start s) by (unfold lift; now rewrite Hb).
    reflexivity.
Qed.

Lemma placeholder_refinement_raises_witness :
  infer_one_batch (@refinement_step_stub unit) [(half, half); (one, two)]
    [half] [one] [false] (fresh tt)
  = (Raise (ModelError "Must define a refinement step!"),
     {| model_state := tt;
        calls := [ {| rc_index := 1; rc_alpha := one; rc_gamma := two |} ] |}).
Proof.
  exact (proj1 (placeholder_refinement_raises unit [(half, half); (one, two)]
                  [half] [one] [false] (fresh tt) eq_refl eq_refl)
               ltac:(discriminate)).
Defined.

(** ** [train_one_batch]: the ends of the noise level, and the update *)

Lemma fsqrt_negative m e : fsqrt (S754_finite true m e) = nan.
Proof. reflexivity. Qed.

Lemma fmul_nan_l x : fmul nan x = nan.
Proof. reflexivity. Qed.

Lemma fadd_nan_l a : fadd nan a = nan.
Proof. reflexivity. Qed.

(** X13.  Line 114 at the ends of the noise level and beyond them.  With
    [gamma_t = 0] the image passed to the network is the noise field
    wherever the ground truth is finite (a noise [-0.0] may be passed as
    [+0.0]).  With a [gamma_t] of which [sqrt(gamma_t)] or
    [sqrt(1 - gamma_t)] is NaN, as for a negative [gamma_t], every pixel
    passed to the network is NaN. *)
Theorem forward_corruption_extremes :
  forall (gamma : float) (gt_image noise noisy : tensor),
    noisy_image gamma gt_image noise = Ok noisy ->
    (gamma = zero ->
     forall p x n,
       nth_error gt_image p = Some x -> is_finite x = true ->
       nth_error noise p = Some n -> valid n = true ->
       exists v, nth_error noisy p = Some v /\ kept n v) /\
    (is_nan (fsqrt gamma) = true \/ is_nan (fsqrt (fsub one gamma)) = true ->
     forall p, (p < length gt_image)%nat -> nth_error noisy p = Some nan) /\
    (forall m e, gamma = S754_finite true m e ->
     forall p, (p < length gt_image)%nat -> nth_error noisy p = Some nan).
Proof.
  intros gamma gt_image noise noisy H.
  destruct (noisy_image_length _ _ _ _ H) as [Ln _].
  assert (Hnan : is_nan (fsqrt gamma) = true
                 \/ is_nan (fsqrt (fsub one gamma)) = true ->
                 forall p, (p < length gt_image)%nat ->
                           nth_error noisy p = Some nan).
  { intros Hbad p Hp.
    destruct (nth_error_defined gt_image p Hp) as [x Hx].
    destruct (nth_error_defined noise p) as [n Hn]; [lia |].
    rewrite (noisy_image_nth _ _ _ _ _ _ _ H Hx Hn). f_equal.
    destruct Hbad as [Hbad | Hbad].
    - destruct (fsqrt gamma); try discriminate. reflexivity.
    - destruct (fsqrt (fsub one gamma)); try discriminate.
      rewrite fmul_nan_l. apply fadd_nan_r. }
  split; [| split; [exact Hnan |]].
  - intros -> p x n Hx Hfx Hn Hvn.
    rewrite (noisy_image_nth _ _ _ _ _ _ _ H Hx Hn).
    eexists. split; [reflexivity |].
    change (fsqrt zero) with (S754_zero false).
    change (fsqrt (fsub one zero)) with one.
    rewrite (fmul_one_l n Hvn).
    destruct (fmul_zero_l x false Hfx) as [s' Hz]. rewrite Hz.
    apply fadd_zero_l.
  - intros m e -> p Hp. apply Hnan; [| exact Hp]. left. reflexivity.
Qed.

Lemma forward_corruption_extremes_witness :
  (exists v, nth_error [half; three] 1 = Some v /\ kept three v) /\
  noisy_image two [one; two] [half; three] = Ok [nan; nan].
Proof.
  split.
  - exact (proj1 (forward_corruption_extremes zero [one; two] [half; three]
                    [half; three] eq_refl)
                 eq_refl 1%nat two three eq_refl eq_refl eq_refl eq_refl).
  - reflexivity.
Defined.



(** ** The events of a run *)

Section Alphabet.

Variable E : engine.
Variable P : event -> Prop.

Hypothesis P_log : forall line also_print, P (LogLine line also_print).
Hypothesis P_scalar :
  has_summary_writer E = true -> forall series y x, P (AddScalar series y x).
Hypothesis P_visuals : forall index, P (LogVisuals "Evaluation" index).
Hypothesis P_save : forall epoch best, P (SaveModel epoch best).

Lemma sink_write_log_line line also_print :
  emits_only P (write_log_line E line also_print).
Proof. apply emits_write_log_line, P_log. Qed.

Lemma sink_log_scalar series y x : emits_only P (log_scalar E series y x).
Proof.
  unfold log_scalar.
  destruct (has_summary_writer E) eqn:Hw; [| apply emits_ret].
  apply emits_emit. apply P_scalar. reflexivity.
Qed.

Lemma sink_train_iteration epoch L n loc i loss :
  emits_only P (train_iteration E epoch L n loc i loss).
Proof.
  unfold train_iteration.
  apply emits_bind; [apply emits_lift | intros r].
  destruct (r =? 0); [| apply emits_ret].
  apply emits_bind; [apply emits_gets | intros lr].
  apply emits_bind; [apply sink_write_log_line | intros _].
  apply emits_bind; [apply sink_log_scalar | intros _].
  apply emits_ret.
Qed.

Lemma sink_train_loop epoch L n : forall losses loc i,
  emits_only P (train_loop E epoch L n loc i losses).
Proof.
  induction losses as [| loss losses IH]; intros loc i; simpl.
  - apply emits_ret.
  - apply emits_bind; [apply sink_train_iteration | intros loc'; apply IH].
Qed.

Lemma sink_train_single_epoch epoch L losses :
  emits_only P (train_single_epoch E epoch L losses).
Proof.
  unfold train_single_epoch.
  apply emits_bind; [apply sink_train_loop | intros loc].
  destruct (mean_loss loc); [apply emits_ret | apply emits_raise].
Qed.

Lemma sink_evaluate_single_epoch epoch :
  emits_only P (evaluate_single_epoch E epoch).
Proof.
  unfold evaluate_single_epoch.
  apply emits_bind; [apply emits_lift | intros looped].
  destruct (snd looped); [| apply emits_raise].
  apply emits_bind; [apply emits_lift | intros pairs].
  apply emits_bind; [apply emits_emit, P_visuals | intros _].
  apply emits_ret.
Qed.

Lemma sink_log_metric_scalars epoch means :
  emits_only P (log_metric_scalars E epoch means).
Proof.
  induction means as [| [name value] means IH]; simpl.
  - apply emits_ret.
  - apply emits_bind; [apply sink_log_scalar | intros _; exact IH].
Qed.

Lemma sink_training_phase L : phase_emits P (training_phase E L).
Proof.
  unfold training_phase.
  apply phase_bind; [apply phase_gets | intros epoch].
  apply phase_bind; [apply phase_on_trace, sink_write_log_line | intros _].
  apply phase_bind; [apply phase_on_trace, sink_write_log_line | intros _].
  apply phase_bind; [| intros _; apply phase_ret].
  apply phase_on_trace, sink_train_single_epoch.
Qed.

Lemma sink_evaluation_report : phase_emits P (evaluation_report E).
Proof.
  unfold evaluation_report.
  apply phase_bind; [apply phase_gets | intros epoch].
  apply phase_bind; [apply phase_on_trace, sink_write_log_line | intros _].
  apply phase_bind;
    [apply phase_on_trace, sink_evaluate_single_epoch | intros means].
  apply phase_bind; [apply phase_on_trace, sink_write_log_line | intros _].
  apply phase_bind; [apply phase_on_trace, sink_write_log_line | intros _].
  apply phase_bind; [apply phase_on_trace, sink_write_log_line | intros _].
  apply phase_bind; [apply phase_on_trace, sink_log_metric_scalars | intros _].
  apply phase_bind; [apply phase_on_trace, sink_log_scalar | intros _].
  apply phase_ret.
Qed.

Lemma sink_after_training ev sv : advances_once P (after_training E ev sv).
Proof.
  unfold after_training.
  apply advances_bind; [apply phase_gets | intros epoch].
  apply advances_bind; [apply phase_lift | intros r_eval].
  apply advances_bind.
  { destruct (r_eval =? 0); [| apply phase_ret].
    unfold evaluating_phase.
    apply phase_bind; [apply sink_evaluation_report | intros rms].
    apply phase_record_best; assumption. }
  intros saved. apply advances_bind; [apply phase_lift | intros r_save].
  apply advances_bind.
  { destruct (r_save =? 0); [| apply phase_ret].
    apply phase_saving; assumption. }
  intros _. apply advances_advance.
Qed.

Lemma sink_epoch_body L ev sv : advances_once P (epoch_body E L ev sv).
Proof.
  unfold epoch_body. apply advances_bind.
  - apply sink_training_phase.
  - intros _. apply sink_after_training.
Qed.

Hypothesis P_step : P SchedulerStep.

Lemma sink_epochs L ev sv : forall n s r s',
  epochs E L ev sv n s = (r, s') ->
  exists new, trace s' = trace s ++ new /\ Forall P new.
Proof.
  induction n as [| n IH]; intros s r s' H; simpl in H.
  - inversion H; subst. exists []. rewrite app_nil_r. split; [reflexivity |].
    constructor.
  - apply bind_inv in H. destruct H as [(u & s1 & H1 & H) | (e & H1 & _)].
    + pose proof (sink_epoch_body L ev sv s _ _ H1) as (_ & n1 & T1 & F1).
      destruct (IH _ _ _ H) as (n2 & T2 & F2).
      exists ((n1 ++ [SchedulerStep]) ++ n2).
      rewrite T2, T1, <- !app_assoc. split; [reflexivity |].
      apply Forall_app. split; [exact F1 |].
      constructor; [exact P_step | exact F2].
    + pose proof (sink_epoch_body L ev sv s _ _ H1) as ((n1 & T1 & F1) & _).
      exists n1. split; assumption.
Qed.

End Alphabet.

(** X15.  A run of the loop, however it ends, only appends to what has been
    logged and written before it, and what it appends are log lines, weight
    writes, steps of the scheduler, visuals of the series ["Evaluation"], and
    scalars only if the engine has a summary writer: without one, nothing is
    sent to a telemetry sink. *)
Theorem run_appends_permitted :
  forall (E : engine) (log_every eval_every save_every : Z) (n : nat)
         (s : run_state) (r : result unit) (s' : run_state),
    epochs E log_every eval_every save_every n s = (r, s') ->
    exists new,
      trace s' = trace s ++ new /\
      Forall (permitted E) new /\
      (has_summary_writer E = false ->
       forall series y x, ~ In (AddScalar series y x) new).
Proof.
  intros E L ev sv n s r s' H.
  destruct (sink_epochs E (permitted E)
              ltac:(intros; exact I) ltac:(intros Hw ? ? ?; exact Hw)
              ltac:(intros; reflexivity) ltac:(intros; exact I)
              I L ev sv n s r s' H) as (new & T & F).
  exists new. split; [exact T | split; [exact F |]].
  intros Hw series y x Hin.
  rewrite Forall_forall in F. specialize (F _ Hin). simpl in F. congruence.
Qed.

Lemma run_appends_permitted_witness :
  exists new,
    trace (snd (main_training_loop headless_engine 1 1 1 2)) = [] ++ new /\
    Forall (permitted headless_engine) new /\
    (has_summary_writer headless_engine = false ->
     forall series y x, ~ In (AddScalar series y x) new).
Proof.
  exact (run_appends_permitted headless_engine 1 1 1 2 initial_state
           (fst (main_training_loop headless_engine 1 1 1 2))
           (snd (main_training_loop headless_engine 1 1 1 2))
           (surjective_pairing _)).
Defined.

(** ** The weight writes of a run *)

Lemma save_epochs_app a b : save_epochs (a ++ b) = save_epochs a ++ save_epochs b.
Proof. apply flat_map_app. Qed.

Lemma save_epochs_none new : Forall no_save new -> save_epochs new = [].
Proof.
  induction 1 as [| e new He _ IH]; simpl; [reflexivity |].
  unfold no_save in He. now rewrite He.
Qed.

Lemma once_of_phase {A} e (m : M run_state A) :
  phase_emits no_save m -> saves_at_most_once e m.
Proof.
  intros Hm s r s' H. destruct (Hm _ _ _ H) as (E1 & new & T & F).
  split; [exact E1 |]. exists new. split; [exact T |].
  left. now apply save_epochs_none.
Qed.

Lemma once_bind_l {A B} e (m : M run_state A) (k : A -> M run_state B) :
  phase_emits no_save m -> (forall a, saves_at_most_once e (k a)) ->
  saves_at_most_once e (bind m k).
Proof.
  intros Hm Hk s r s' H.
  destruct (bind_inv _ _ _ _ _ H) as [(a & s1 & H1 & H2) | (x & H1 & _)].
  - destruct (Hm _ _ _ H1) as (E1 & n1 & T1 & F1).
    destruct (Hk a _ _ _ H2) as (E2 & n2 & T2 & S2).
    split; [congruence |]. exists (n1 ++ n2).
    rewrite T2, T1, <- app_assoc. split; [reflexivity |].
    now rewrite save_epochs_app, (save_epochs_none _ F1).
  - exact (once_of_phase e m Hm _ _ _ H1).
Qed.

Lemma once_bind_r {A B} e (m : M run_state A) (k : A -> M run_state B) :
  saves_at_most_once e m -> (forall a, phase_emits no_save (k a)) ->
  saves_at_most_once e (bind m k).
Proof.
  intros Hm Hk s r s' H.
  destruct (bind_inv _ _ _ _ _ H) as [(a & s1 & H1 & H2) | (x & H1 & _)].
  - destruct (Hm _ _ _ H1) as (E1 & n1 & T1 & S1).
    destruct (Hk a _ _ _ H2) as (E2 & n2 & T2 & F2).
    split; [congruence |]. exists (n1 ++ n2).
    rewrite T2, T1, <- app_assoc. split; [reflexivity |].
    now rewrite save_epochs_app, (save_epochs_none _ F2), app_nil_r.
  - exact (Hm _ _ _ H1).
Qed.

Lemma once_save E e best : saves_at_most_once e (on_trace (save E e best)).
Proof.
  intros s r s' H. unfold on_trace, save, emit in H.
  destruct (io_fails E (trace s) (SaveModel e best)); inversion H; subst; simpl.
  - split; [reflexivity |]. exists []. rewrite app_nil_r. auto.
  - split; [reflexivity |]. exists [SaveModel e best]. auto.
Qed.

Lemma quiet_log E line also_print :
  phase_emits no_save (on_trace (write_log_line E line also_print)).
Proof. apply phase_on_trace, emits_write_log_line. reflexivity. Qed.

(** Lines 228-234, however they end. *)
Lemma record_best_once E rms s r s' :
  record_best E rms s = (r, s') ->
  epoch_number s' = epoch_number s /\
  exists new,
    trace s' = trace s ++ new /\
    (save_epochs new = [] \/ save_epochs new = [epoch_number s]).
Proof.
  unfold record_best. intros H.
  rewrite (bind_step _ _ s (epoch_number s) s) in H by reflexivity.
  cbv beta in H.
  match type of H with
  | ?m s = _ =>
      assert (Hm : saves_at_most_once (epoch_number s) m);
        [| exact (Hm _ _ _ H)]
  end.
  apply once_bind_l; [apply phase_gets | intros before].
  apply once_bind_l.
  { destruct before; [apply phase_ret | apply phase_set_best]. }
  intros _. destruct (fleb rms _); [| apply once_of_phase, phase_ret].
  apply once_bind_l; [apply quiet_log | intros _].
  apply once_bind_l; [apply phase_set_best | intros _].
  apply once_bind_l; [apply quiet_log | intros _].
  apply once_bind_r; [apply once_save | intros _; apply phase_ret].
Qed.

(** Lines 236-242, however they end: no weight write when the evaluation
    has saved, at most one otherwise. *)
Lemma saving_phase_once E saved s r s' :
  saving_phase E saved s = (r, s') ->
  epoch_number s' = epoch_number s /\
  exists new,
    trace s' = trace s ++ new /\
    (save_epochs new = [] \/
     (saved = false /\ save_epochs new = [epoch_number s])).
Proof.
  unfold saving_phase. intros H.
  rewrite (bind_step _ _ s (epoch_number s) s) in H by reflexivity.
  cbv beta in H. destruct saved.
  - match type of H with
    | ?m s = _ => assert (Hm : phase_emits no_save m)
    end.
    { apply phase_bind; [apply quiet_log | intros _; apply quiet_log]. }
    destruct (Hm _ _ _ H) as (E1 & new & T & F).
    split; [exact E1 |]. exists new. split; [exact T |].
    left. now apply save_epochs_none.
  - match type of H with
    | ?m s = _ => assert (Hm : saves_at_most_once (epoch_number s) m)
    end.
    { apply once_bind_l; [apply quiet_log | intros _].
      apply once_bind_l; [apply quiet_log | intros _].
      apply once_bind_r; [apply once_save | intros _; apply quiet_log]. }
    destruct (Hm _ _ _ H) as (E1 & new & T & S).
    split; [exact E1 |]. exists new. split; [exact T |].
    destruct S as [S | S]; auto.
Qed.

(** Lines 217-234, however they end: one weight write when they return
    [saved = True], none when they return [saved = False]. *)
Lemma evaluating_phase_once E s r s' :
  evaluating_phase E s = (r, s') ->
  epoch_number s' = epoch_number s /\
  exists new,
    trace s' = trace s ++ new /\
    (save_epochs new = [] \/ save_epochs new = [epoch_number s]) /\
    (forall saved, r = Ok saved ->
                   save_epochs new = if saved then [epoch_number s] else []).
Proof.
  unfold evaluating_phase. intros H.
  assert (Hrep : phase_emits no_save (evaluation_report E))
    by (apply phase_evaluation_report; reflexivity).
  apply bind_inv in H. destruct H as [(rms & sm & H1 & H) | (e & H1 & ->)].
  - destruct (Hrep _ _ _ H1) as (E1 & n1 & T1 & F1).
    destruct (record_best_once E rms sm r s' H) as (E2 & n2 & T2 & S2).
    split; [congruence |]. exists (n1 ++ n2).
    rewrite T2, T1, <- app_assoc. split; [reflexivity |].
    rewrite save_epochs_app, (save_epochs_none _ F1). simpl.
    rewrite E1 in S2. split; [exact S2 |].
    intros saved ->. apply record_best_Ok in H. destruct H as [_ Hs'].
    rewrite Hs' in T2. simpl in T2. apply app_inv_head in T2. subst n2.
    destruct saved; [rewrite E1 |]; reflexivity.
  - destruct (Hrep _ _ _ H1) as (E1 & n1 & T1 & F1).
    split; [exact E1 |]. exists n1. split; [exact T1 |].
    rewrite (save_epochs_none _ F1). split; [now left | discriminate].
Qed.

Lemma advance_any E s r s' :
  advance E s = (r, s') ->
  exists new, trace s' = trace s ++ new /\ save_epochs new = [] /\
    (forall u, r = Ok u -> epoch_number s' = epoch_number s + 1).
Proof.
  intros H. pose proof (advances_advance no_save E s r s' H) as Ha.
  destruct r as [u | e].
  - destruct Ha as (E1 & new & T & F). exists (new ++ [SchedulerStep]).
    split; [exact T |]. split; [| intros _ _; exact E1].
    rewrite save_epochs_app, (save_epochs_none _ F). reflexivity.
  - destruct Ha as ((new & T & F) & _). exists new.
    split; [exact T |]. split; [now apply save_epochs_none | discriminate].
Qed.

(** Lines 215-245, however they end. *)
Lemma after_training_once E ev sv s r s' :
  after_training E ev sv s = (r, s') ->
  exists new,
    trace s' = trace s ++ new /\
    (save_epochs new = [] \/ save_epochs new = [epoch_number s]) /\
    (forall u, r = Ok u -> epoch_number s' = epoch_number s + 1).
Proof.
  unfold after_training. intros H.
  rewrite (bind_step _ _ s (epoch_number s) s) in H by reflexivity.
  cbv beta in H.
  assert (Hstop : exists new : list event,
            trace s = trace s ++ new /\
            (save_epochs new = [] \/ save_epochs new = [epoch_number s]))
    by (exists []; rewrite app_nil_r; auto).
  apply bind_inv in H. destruct H as [(r_eval & s0 & H0 & H) | (e & H0 & ->)].
  2:{ apply lift_inv in H0. destruct H0 as [_ ->].
      destruct Hstop as (new & T & S). exists new.
      split; [exact T | split; [exact S | discriminate]]. }
  apply lift_inv in H0. destruct H0 as [_ ->].
  assert (Heval : forall r2 s2,
            (if r_eval =? 0 then evaluating_phase E else ret false) s = (r2, s2) ->
            epoch_number s2 = epoch_number s /\
            exists new,
              trace s2 = trace s ++ new /\
              (save_epochs new = [] \/ save_epochs new = [epoch_number s]) /\
              (forall saved, r2 = Ok saved ->
                 save_epochs new = if saved then [epoch_number s] else [])).
  { intros r2 s2 H2. destruct (r_eval =? 0).
    - exact (evaluating_phase_once E s r2 s2 H2).
    - inversion H2; subst. split; [reflexivity |]. exists [].
      rewrite app_nil_r. split; [reflexivity | split; [now left |]].
      intros saved Hs. now inversion Hs. }
  apply bind_inv in H. destruct H as [(saved & s2 & H2 & H) | (e & H2 & ->)].
  2:{ destruct (Heval _ _ H2) as (_ & new & T & S & _). exists new.
      split; [exact T | split; [exact S | discriminate]]. }
  destruct (Heval _ _ H2) as (E2 & n2 & T2 & _ & S2).
  specialize (S2 saved eq_refl).
  apply bind_inv in H. destruct H as [(r_save & s0 & H0 & H) | (e & H0 & ->)].
  2:{ apply lift_inv in H0. destruct H0 as [_ ->]. exists n2.
      split; [exact T2 | split; [| discriminate]].
      rewrite S2. destruct saved; auto. }
  apply lift_inv in H0. destruct H0 as [_ ->].
  assert (Hsave : forall r3 s3,
            (if r_save =? 0 then saving_phase E saved else ret tt) s2 = (r3, s3) ->
            epoch_number s3 = epoch_number s /\
            exists new,
              trace s3 = trace s ++ new /\
              (save_epochs new = [] \/ save_epochs new = [epoch_number s])).
  { intros r3 s3 H3. destruct (r_save =? 0).
    - destruct (saving_phase_once E saved s2 r3 s3 H3) as (E3 & n3 & T3 & S3).
      split; [congruence |]. exists (n2 ++ n3).
      rewrite T3, T2, <- app_assoc. split; [reflexivity |].
      rewrite save_epochs_app, S2.
      destruct S3 as [S3 | [-> S3]]; rewrite S3.
      + rewrite app_nil_r. destruct saved; auto.
      + rewrite E2. auto.
    - inversion H3; subst. split; [exact E2 |]. exists n2.
      split; [exact T2 |]. rewrite S2. destruct saved; auto. }
  apply bind_inv in H. destruct H as [(u3 & s3 & H3 & H) | (e & H3 & ->)].
  2:{ destruct (Hsave _ _ H3) as (_ & new & T & S). exists new.
      split; [exact T | split; [exact S | discriminate]]. }
  destruct (Hsave _ _ H3) as (E3 & n3 & T3 & S3).
  destruct (advance_any E s3 r s' H) as (n4 & T4 & S4 & E4).
  exists (n3 ++ n4). rewrite T4, T3, <- app_assoc.
  split; [reflexivity | split].
  - now rewrite save_epochs_app, S4, app_nil_r.
  - intros u Hu. rewrite (E4 u Hu). lia.
Qed.

(** One iteration of the loop, however it ends. *)
Lemma epoch_body_once E L ev sv s r s' :
  epoch_body E L ev sv s = (r, s') ->
  exists new,
    trace s' = trace s ++ new /\
    (save_epochs new = [] \/ save_epochs new = [epoch_number s]) /\
    (forall u, r = Ok u -> epoch_number s' = epoch_number s + 1).
Proof.
  unfold epoch_body. intros H.
  assert (Ht : phase_emits no_save (training_phase E L))
    by (apply training_phase_emits; reflexivity).
  apply bind_inv in H. destruct H as [(u1 & s1 & H1 & H) | (e & H1 & ->)].
  - destruct (Ht _ _ _ H1) as (E1 & n1 & T1 & F1).
    destruct (after_training_once E ev sv s1 r s' H) as (n2 & T2 & S2 & E2).
    exists (n1 ++ n2). rewrite T2, T1, <- app_assoc.
    split; [reflexivity | split].
    + rewrite save_epochs_app, (save_epochs_none _ F1). simpl.
      now rewrite <- E1.
    + intros u Hu. rewrite (E2 u Hu). lia.
  - destruct (Ht _ _ _ H1) as (E1 & n1 & T1 & F1). exists n1.
    split; [exact T1 | split; [| discriminate]].
    left. now apply save_epochs_none.
Qed.

Lemma sorted_snoc (l : list Z) (x : Z) :
  StronglySorted Z.lt l -> Forall (fun y => y < x) l ->
  StronglySorted Z.lt (l ++ [x]).
Proof.
  intros S F. apply sorted_app; [exact S | repeat constructor |].
  intros a b Ha [<- | []]. rewrite Forall_forall in F. now apply F.
Qed.

Lemma epoch_body_saved_before E L ev sv s r s' :
  saved_before s ->
  epoch_body E L ev sv s = (r, s') ->
  StronglySorted Z.lt (save_epochs (trace s')) /\
  (forall u, r = Ok u -> saved_before s').
Proof.
  intros [S F] H.
  destruct (epoch_body_once E L ev sv s r s' H) as (new & T & Hs & He).
  rewrite T, save_epochs_app.
  assert (Hsorted : StronglySorted Z.lt (save_epochs (trace s) ++ save_epochs new)).
  { destruct Hs as [-> | ->]; [now rewrite app_nil_r | now apply sorted_snoc]. }
  split; [exact Hsorted |].
  intros u Hu. unfold saved_before. rewrite T, save_epochs_app, (He u Hu).
  split; [exact Hsorted |].
  apply Forall_app. split.
  - eapply Forall_impl; [| exact F]. intros x Hx. cbv beta in Hx. lia.
  - destruct Hs as [-> | ->]; repeat constructor. lia.
Qed.

Lemma epochs_saved_before E L ev sv : forall n s r s',
  saved_before s ->
  epochs E L ev sv n s = (r, s') ->
  StronglySorted Z.lt (save_epochs (trace s')).
Proof.
  induction n as [| n IH]; intros s r s' Hinv H; simpl in H.
  - inversion H; subst. exact (proj1 Hinv).
  - apply bind_inv in H. destruct H as [(u & s1 & H1 & H) | (e & H1 & _)].
    + destruct (epoch_body_saved_before E L ev sv s _ _ Hinv H1) as [_ Hok].
      exact (IH _ _ _ (Hok u eq_refl) H).
    + exact (proj1 (epoch_body_saved_before E L ev sv s _ _ Hinv H1)).
Qed.

Lemma save_epochs_In past n b :
  In (SaveModel n b) (saves past) -> In n (save_epochs past).
Proof.
  unfold saves, save_epochs. intros H. apply filter_In in H.
  destruct H as [H _]. apply in_flat_map. exists (SaveModel n b).
  split; [exact H | now left].
Qed.

Lemma saves_NoDup past :
  StronglySorted Z.lt (save_epochs past) -> NoDup (saves past).
Proof.
  induction past as [| e past IH]; intros S; [constructor |].
  destruct e as [line b | series y x | series i | n b |]; simpl in *;
    try (now apply IH).
  inversion S as [| ? ? S' F]; subst. constructor; [| now apply IH].
  intros Hin. apply save_epochs_In in Hin.
  rewrite Forall_forall in F. specialize (F _ Hin). lia.
Qed.

Lemma save_epochs_event past n b :
  In (SaveModel n b) past -> In n (save_epochs past).
Proof.
  intros H. apply in_flat_map. exists (SaveModel n b).
  split; [exact H | now left].
Qed.

Lemma one_designation past n b1 b2 :
  StronglySorted Z.lt (save_epochs past) ->
  In (SaveModel n b1) past -> In (SaveModel n b2) past -> b1 = b2.
Proof.
  induction past as [| e past IH]; intros S H1 H2; [destruct H1 |].
  assert (Htail : StronglySorted Z.lt (save_epochs past)).
  { destruct e; simpl in S; try exact S. now inversion S. }
  assert (Hhead : forall b b', e = SaveModel n b -> In (SaveModel n b') past ->
                               False).
  { intros b b' -> Hin. simpl in S. inversion S as [| ? ? _ F]; subst.
    apply save_epochs_event in Hin.
    rewrite Forall_forall in F. specialize (F _ Hin). lia. }
  destruct H1 as [H1 | H1], H2 as [H2 | H2].
  - congruence.
  - exfalso. exact (Hhead _ _ H1 H2).
  - exfalso. exact (Hhead _ _ H2 H1).
  - now apply IH.
Qed.

(** X16.  Over a run of the loop from its start, however it ends, the weight
    writes carry strictly increasing epoch numbers: no weights file is
    written twice, and of the two designations of an epoch (plain and best)
    at most one is written. *)
Theorem weight_epochs_increase :
  forall (E : engine) (log_every eval_every save_every : Z) (n : nat)
         (r : result unit) (s' : run_state),
    main_training_loop E log_every eval_every save_every n = (r, s') ->
    StronglySorted Z.lt (save_epochs (trace s')) /\
    NoDup (saves (trace s')) /\
    (forall epoch best best',
        In (SaveModel epoch best) (trace s') ->
        In (SaveModel epoch best') (trace s') -> best = best').
Proof.
  intros E L ev sv n r s' H. unfold main_training_loop in H.
  assert (S : StronglySorted Z.lt (save_epochs (trace s'))).
  { eapply epochs_saved_before; [| exact H].
    split; simpl; constructor. }
  split; [exact S | split].
  - now apply saves_NoDup.
  - intros epoch best best'. now apply one_designation.
Qed.

Lemma weight_epochs_increase_witness :
  StronglySorted Z.lt [1; 2; 3] /\
  save_epochs (trace (snd (main_training_loop example_engine 2 2 1 3)))
  = [1; 2; 3].
Proof.
  split; [| reflexivity].
  exact (proj1 (weight_epochs_increase example_engine 2 2 1 3
                  (fst (main_training_loop example_engine 2 2 1 3))
                  (snd (main_training_loop example_engine 2 2 1 3))
                  (surjective_pairing _))).
Defined.

(** ** The names of the weights files *)

Lemma to_int_proper z : Z.to_int z <> Decimal.Pos Decimal.Nil
                        /\ Z.to_int z <> Decimal.Neg Decimal.Nil.
Proof.
  destruct z as [| q | q]; simpl; split; intros H; try discriminate;
    inversion H as [Hq]; exact (Unsigned.to_uint_nonnil q Hq).
Qed.

Lemma str_inj a b : str a = str b -> a = b.
Proof.
  unfold str. intros H.
  destruct (to_int_proper a) as [Ha1 Ha2], (to_int_proper b) as [Hb1 Hb2].
  apply (f_equal NilZero.int_of_string) in H.
  rewrite !NilZero.isi in H by assumption.
  inversion H as [Hi]. apply (f_equal Z.of_int) in Hi.
  now rewrite !DecimalZ.of_to in Hi.
Qed.

Lemma list_ascii_append s t :
  list_ascii_of_string (String.append s t)
  = list_ascii_of_string s ++ list_ascii_of_string t.
Proof. induction s as [| c s IH]; simpl; [reflexivity | now rewrite IH]. Qed.

Lemma list_ascii_inj s t :
  list_ascii_of_string s = list_ascii_of_string t -> s = t.
Proof.
  intros H. apply (f_equal string_of_list_ascii) in H.
  now rewrite !string_of_list_ascii_of_string in H.
Qed.

(** A decimal numeral holds no underscore. *)
Lemma uint_no_underscore d :
  ~ In "_"%char (list_ascii_of_string (NilEmpty.string_of_uint d)).
Proof.
  induction d; simpl; intros H; try (destruct H as [H | H]; [discriminate H |]);
    auto.
Qed.

Lemma str_no_underscore n : ~ In "_"%char (list_ascii_of_string (str n)).
Proof.
  unfold str, NilZero.string_of_int, NilZero.string_of_uint.
  destruct (Z.to_int n) as [d | d]; destruct d; simpl;
    intros H;
    repeat (destruct H as [H | H]; [discriminate H |]);
    try (exact (uint_no_underscore _ H)); auto.
Qed.

Lemma save_name_inj e b e' b' :
  save_name e b = save_name e' b' -> e = e' /\ b = b'.
Proof.
  unfold save_name. cbv zeta. intros H.
  apply (f_equal list_ascii_of_string) in H.
  rewrite !list_ascii_append in H. apply app_inv_head in H.
  destruct b, b'.
  - apply app_inv_tail in H. apply list_ascii_inj, str_inj in H. auto.
  - exfalso. apply (str_no_underscore e').
    change (list_ascii_of_string EmptyString) with (@nil ascii) in H.
    rewrite app_nil_r in H. rewrite <- H.
    apply in_or_app. right. now left.
  - exfalso. apply (str_no_underscore e).
    change (list_ascii_of_string EmptyString) with (@nil ascii) in H.
    rewrite app_nil_r in H. rewrite H.
    apply in_or_app. right. now left.
  - apply app_inv_tail in H. apply list_ascii_inj, str_inj in H. auto.
Qed.

Lemma weight_files_In past name :
  In name (weight_files past) ->
  exists n b, In (SaveModel n b) past /\ name = save_name n b.
Proof.
  unfold weight_files. intros H. apply in_flat_map in H.
  destruct H as (e & He & Hn).
  destruct e as [line b | series y x | series i | n b |]; simpl in Hn;
    try contradiction.
  destruct Hn as [<- | []]. eauto.
Qed.

Lemma weight_files_NoDup past :
  StronglySorted Z.lt (save_epochs past) -> NoDup (weight_files past).
Proof.
  induction past as [| e past IH]; intros S; [constructor |].
  destruct e as [line b | series y x | series i | n b |]; simpl in *;
    try (now apply IH).
  inversion S as [| ? ? S' F]; subst. constructor; [| now apply IH].
  intros Hin. apply weight_files_In in Hin.
  destruct Hin as (n' & b' & Hin & Hname).
  apply save_name_inj in Hname. destruct Hname as [-> _].
  apply save_epochs_event in Hin.
  rewrite Forall_forall in F. specialize (F _ Hin). lia.
Qed.

(** X17.  The name [save] gives the weights file (lines 176-178) determines
    the epoch number and the best flag it was built from; and over a run of
    the loop from its start, however it ends, the names of the files written
    are pairwise distinct: a run never overwrites a weights file it has
    written. *)
Theorem weight_files_never_overwritten :
  (forall epoch best epoch' best',
      save_name epoch best = save_name epoch' best' ->
      epoch = epoch' /\ best = best') /\
  (forall (E : engine) (log_every eval_every save_every : Z) (n : nat)
          (r : result unit) (s' : run_state),
      main_training_loop E log_every eval_every save_every n = (r, s') ->
      NoDup (weight_files (trace s'))).
Proof.
  split; [exact save_name_inj |].
  intros E L ev sv n r s' H. unfold main_training_loop in H.
  apply weight_files_NoDup.
  eapply epochs_saved_before; [| exact H].
  split; simpl; constructor.
Qed.

Lemma weight_files_never_overwritten_witness :
  weight_files (trace (snd (main_training_loop example_engine 2 2 1 3)))
  = ["model_1"; "model_2_BEST"; "model_3"] /\
  NoDup ["model_1"; "model_2_BEST"; "model_3"].
Proof.
  split; [reflexivity |].
  exact (proj2 weight_files_never_overwritten example_engine 2 2 1 3%nat
           (fst (main_training_loop example_engine 2 2 1 3))
           (snd (main_training_loop example_engine 2 2 1 3))
           (surjective_pairing _)).
Defined.
